(** * gzipstreamwriter: a shallow embedding of the streaming gzip writer

    The development follows the Go package [gzipstreamwriter]: the CRC32
    combiner, the parser that locates the DEFLATE payload of a gzip blob,
    and the [GzipStreamWriter] state machine ([Write], [WriteCompressed],
    [Flush], [Close], [Reset]).

    Conventions.
    - [uint32] values are [Z] in [0, 2^32); wrap-around is written out.
    - [int] is the 64-bit Go [int]; the quantities stored in it here are
      lengths and offsets of slices, far below 2^63, so it is a plain [Z].
    - [[]byte] is [list byte].  A run-time panic (index or slice out of
      range, negative [make] length, nil dereference) is the result [None].
    - The destination [io.Writer] and the [flate.Writer] are external: every
      call to them is recorded in a trace and answered by an environment. *)

From Stdlib Require Import ZArith NArith List Lia Bool Btauto.
From Stdlib Require Import Strings.Byte.
From Stdlib Require Import Strings.String.
Import ListNotations.
Local Close Scope string_scope.
Local Open Scope Z_scope.

(* ================================================================== *)
(** ** Bytes and fixed-width integers *)

Definition byte_to_Z (b : byte) : Z := Z.of_N (Byte.to_N b).

(** The Go conversion [byte(v)]: keep the low eight bits. *)
Definition byte_of_Z (v : Z) : byte :=
  match Byte.of_N (Z.to_N (v mod 256)) with
  | Some b => b
  | None => x00
  end.

(** The Go conversion [uint32(v)]. *)
Definition uint32 (v : Z) : Z := v mod 2 ^ 32.

(** The size of Go's [int] on the platforms modelled: 64 bits, as on amd64
    and arm64.  Where [int] has 32 bits the conversion [int] below takes
    the values from 2^31 up to negative numbers, and what is proved here
    about a length that comes from a [uint32] does not carry over. *)
Definition intSize : Z := 64.

(** The Go conversion [int(v)]: [v] wrapped into the signed range of
    [int]. *)
Definition int (v : Z) : Z :=
  (v + 2 ^ (intSize - 1)) mod 2 ^ intSize - 2 ^ (intSize - 1).

(** [^x] on a [uint32]. *)
Definition not32 (x : Z) : Z := Z.lxor x 0xffffffff.

(** [len(p)] as an [int]. *)
Definition len {A} (p : list A) : Z := Z.of_nat (List.length p).

(* ================================================================== *)
(** ** Go slices: indexing and reslicing with their bounds checks *)

(** [s[i]]: panics unless [0 <= i < len(s)]. *)
Definition index {A} (s : list A) (i : Z) : option A :=
  if (0 <=? i) && (i <? len s) then nth_error s (Z.to_nat i) else None.

(** [s[lo:hi]]: panics unless [0 <= lo <= hi <= len(s)].  (Go admits
    [hi <= cap(s)]; bounding by the length is the stricter check.) *)
Definition slice {A} (s : list A) (lo hi : Z) : option (list A) :=
  if (0 <=? lo) && (lo <=? hi) && (hi <=? len s)
  then Some (firstn (Z.to_nat (hi - lo)) (skipn (Z.to_nat lo) s))
  else None.

(** [s[lo:]]. *)
Definition slice_from {A} (s : list A) (lo : Z) : option (list A) :=
  slice s lo (len s).

(** The option monad for code that may panic. *)
Definition obind {A B} (m : option A) (f : A -> option B) : option B :=
  match m with
  | Some a => f a
  | None => None
  end.

Declare Scope panic_scope.
Delimit Scope panic_scope with panic.
Notation "x <- m ;; k" := (obind m (fun x => k))
  (at level 61, m at next level, right associativity) : panic_scope.

(* ================================================================== *)
(** ** encoding/binary, little endian *)

Module binary.

(** [binary.LittleEndian.Uint16(b)]; panics when [len(b) < 2]. *)
Definition Uint16 (b : list byte) : option Z :=
  (b1 <- index b 1 ;;
   b0 <- index b 0 ;;
   Some (Z.lor (byte_to_Z b0) (Z.shiftl (byte_to_Z b1) 8)))%panic.

(** [binary.LittleEndian.Uint32(b)]; panics when [len(b) < 4]. *)
Definition Uint32 (b : list byte) : option Z :=
  (b3 <- index b 3 ;;
   b0 <- index b 0 ;;
   b1 <- index b 1 ;;
   b2 <- index b 2 ;;
   Some (Z.lor (Z.lor (Z.lor (byte_to_Z b0) (Z.shiftl (byte_to_Z b1) 8))
                      (Z.shiftl (byte_to_Z b2) 16))
               (Z.shiftl (byte_to_Z b3) 24)))%panic.

(** [binary.LittleEndian.PutUint16] into a two-byte buffer. *)
Definition PutUint16 (v : Z) : list byte :=
  [byte_of_Z v; byte_of_Z (Z.shiftr v 8)].

(** [binary.LittleEndian.PutUint32] into a four-byte buffer. *)
Definition PutUint32 (v : Z) : list byte :=
  [byte_of_Z v; byte_of_Z (Z.shiftr v 8);
   byte_of_Z (Z.shiftr v 16); byte_of_Z (Z.shiftr v 24)].

End binary.

(* ================================================================== *)
(** ** hash/crc32: the table-driven update of the Go standard library *)

Module crc32.

Definition IEEE : Z := 0xedb88320.

(** One round of the inner loop of [simplePopulateTable]. *)
Definition populate_step (poly crc : Z) : Z :=
  if Z.land crc 1 =? 1
  then Z.lxor (Z.shiftr crc 1) poly
  else Z.shiftr crc 1.

(** [t[i]] as [simplePopulateTable] fills it: eight rounds from [i]. *)
Definition populate_entry (poly i : Z) : Z :=
  Nat.iter 8 (populate_step poly) i.

Definition simpleMakeTable (poly : Z) : list Z :=
  map (fun i => populate_entry poly (Z.of_nat i)) (seq 0 256).

Definition IEEETable : list Z := Eval vm_compute in simpleMakeTable IEEE.

(** The body of the loop of [simpleUpdate]:
    [crc = tab[byte(crc)^v] ^ (crc >> 8)]. *)
Definition update_byte (tab : list Z) (crc : Z) (v : byte) : Z :=
  Z.lxor (nth (Z.to_nat (Z.lxor (Z.land crc 0xff) (byte_to_Z v))) tab 0)
         (Z.shiftr crc 8).

Definition simpleUpdate (crc : Z) (tab : list Z) (p : list byte) : Z :=
  let crc := not32 crc in
  let crc := fold_left (update_byte tab) p crc in
  not32 crc.

(** [crc32.Update]: every implementation the package dispatches to
    computes the function of [simpleUpdate]. *)
Definition Update (crc : Z) (tab : list Z) (p : list byte) : Z :=
  simpleUpdate crc tab p.

(** [crc32.ChecksumIEEE]. *)
Definition ChecksumIEEE (p : list byte) : Z := Update 0 IEEETable p.

End crc32.

(** [make([]byte, length)]: a zeroed slice; panics on a negative length.
    Go's [make] panics as well on a length above the limit of the
    allocator (the runtime's maxAlloc, at least 2^32 bytes wherever [int]
    has 64 bits), and it ends the program when the memory is not there.
    Neither is modelled: the definition is [make] for the lengths that the
    machine serves, which are the lengths of the slices that exist and,
    given the memory, every length below 2^32; statements about other
    lengths bound them. *)
Definition make_bytes (length : Z) : option (list byte) :=
  if length <? 0 then None else Some (repeat x00 (Z.to_nat length)).

(** [crc32Combine]: combine two CRC32 checksums with the XOR method. *)
Definition crc32Combine (front back length : Z) : option Z :=
  (zeroes <- make_bytes length ;;
   let front :=
     Z.lxor (crc32.Update (Z.lxor 0xffffffff front) crc32.IEEETable zeroes)
            0xffffffff in
   Some (Z.lxor front back))%panic.

(* ================================================================== *)
(** ** bytes.IndexByte *)

Module bytes.

Fixpoint IndexByte_from (b : list byte) (c : byte) (i : Z) : Z :=
  match b with
  | [] => -1
  | x :: rest => if Byte.eqb x c then i else IndexByte_from rest c (i + 1)
  end.

(** [bytes.IndexByte(b, c)]: the index of the first [c] in [b], or -1. *)
Definition IndexByte (b : list byte) (c : byte) : Z := IndexByte_from b c 0.

End bytes.

(* ================================================================== *)
(** ** The blob parser: [getHeaderLength] and [getDeflateSlice] *)

Definition gzipID1 : Z := 0x1f.
Definition gzipID2 : Z := 0x8b.
Definition gzipDeflate : Z := 8.
Definition flagText : Z := Z.shiftl 1 0.
Definition flagHdrCrc : Z := Z.shiftl 1 1.
Definition flagExtra : Z := Z.shiftl 1 2.
Definition flagName : Z := Z.shiftl 1 3.
Definition flagComment : Z := Z.shiftl 1 4.

Definition NoCompression : Z := 0.
Definition BestSpeed : Z := 1.
Definition BestCompression : Z := 9.
Definition DefaultCompression : Z := -1.
Definition HuffmanOnly : Z := -2.

(** The four optional-field blocks of [getHeaderLength], in source order.
    Each either returns from the function ([Some (-1)]) or falls through to
    the rest of the function, [k], with the updated [headerLen]. *)

(** [if flag&flagExtra != 0 { ... }] *)
Definition scanExtra (gzBlob : list byte) (flag headerLen : Z)
    (k : Z -> option Z) : option Z :=
  if negb (Z.land flag flagExtra =? 0) then
    let headerLen := headerLen + 2 in
    if len gzBlob <? headerLen then Some (-1) else
    (s <- slice gzBlob 10 12 ;;
     extraFieldLength <- binary.Uint16 s ;;
     let headerLen := headerLen + extraFieldLength in
     if len gzBlob <? headerLen then Some (-1) else
     k headerLen)%panic
  else k headerLen.

(** [if flag&flagName != 0 { ... }] *)
Definition scanName (gzBlob : list byte) (flag headerLen : Z)
    (k : Z -> option Z) : option Z :=
  if negb (Z.land flag flagName =? 0) then
    (s <- slice_from gzBlob headerLen ;;
     let endField := bytes.IndexByte s x00 in
     if endField <? 0 then Some (-1) else
     let headerLen := headerLen + endField in
     if len gzBlob <? headerLen then Some (-1) else
     k headerLen)%panic
  else k headerLen.

(** [if flag&flagComment != 0 { ... }] *)
Definition scanComment (gzBlob : list byte) (flag headerLen : Z)
    (k : Z -> option Z) : option Z :=
  if negb (Z.land flag flagComment =? 0) then
    (s <- slice_from gzBlob headerLen ;;
     let endField := bytes.IndexByte s x00 in
     if endField <? 0 then Some (-1) else
     let headerLen := headerLen + endField in
     if len gzBlob <? headerLen then Some (-1) else
     k headerLen)%panic
  else k headerLen.

(** [if flag&flagHdrCrc != 0 { ... }] *)
Definition scanHdrCrc (gzBlob : list byte) (flag headerLen : Z)
    (k : Z -> option Z) : option Z :=
  if negb (Z.land flag flagHdrCrc =? 0) then
    let headerLen := headerLen + 2 in
    if len gzBlob <? headerLen then Some (-1) else
    k headerLen
  else k headerLen.

(** [getHeaderLength]: the length of the gzip header of [gzBlob], or -1. *)
Definition getHeaderLength (gzBlob : list byte) : option Z :=
  let headerLen := 10 in
  if len gzBlob <? headerLen then Some (-1) else
  (b0 <- index gzBlob 0 ;;
   b1 <- index gzBlob 1 ;;
   b2 <- index gzBlob 2 ;;
   if negb (byte_to_Z b0 =? gzipID1) || negb (byte_to_Z b1 =? gzipID2)
      || negb (byte_to_Z b2 =? gzipDeflate)
   then Some (-1) else
   b3 <- index gzBlob 3 ;;
   let flag := byte_to_Z b3 in
   scanExtra gzBlob flag headerLen (fun headerLen =>
   scanName gzBlob flag headerLen (fun headerLen =>
   scanComment gzBlob flag headerLen (fun headerLen =>
   scanHdrCrc gzBlob flag headerLen (fun headerLen =>
   Some headerLen)))))%panic.

(** [getDeflateSlice]: the DEFLATE payload of the blob and an ok status.
    A nil slice is the empty list. *)
Definition getDeflateSlice (gzblob : list byte) : option (list byte * bool) :=
  (headerLength <- getHeaderLength gzblob ;;
   if headerLength <? 0 then Some ([], false) else
   if len gzblob <? headerLength + 8 then Some ([], false) else
   s <- slice gzblob headerLength (len gzblob - 8) ;;
   Some (s, true))%panic.

(* ================================================================== *)
(** ** Errors, the gzip header and the writer's record *)

(** Go [error] values.  [Errorf] is [fmt.Errorf] with a [%w] verb;
    [ExternalError] is an error made by the destination or the compressor. *)
Inductive error : Type :=
| ErrBlob
| ErrHdrNonLatin1
| ErrHdrExtaDataTooLarge
| ErrInvalidCompressionLevel
| Errorf (format : String.string) (wrapped : error)
| ExternalError (code : nat).

(** [time.Time], as the seconds and nanoseconds since the Unix epoch. *)
Record Time : Type := { unix_sec : Z; unix_nsec : Z }.

(** The zero [time.Time]: January 1, year 1, 00:00:00 UTC. *)
Definition zeroTime : Time := {| unix_sec := -62135596800; unix_nsec := 0 |}.

(** [t.After(time.Unix(0, 0))]. *)
Definition afterEpoch (t : Time) : bool :=
  (0 <? unix_sec t) || ((unix_sec t =? 0) && (0 <? unix_nsec t)).

(** A Go string, as the sequence of runes that [range] yields from it.
    The code writes the string's bytes verbatim only when every rune is
    ASCII, where bytes and runes coincide. *)
Definition gostring : Type := list Z.

(** [gzip.Header].  A nil [Extra] is [None]. *)
Record gzipHeader : Type := {
  Comment : gostring;
  Extra : option (list byte);
  ModTime : Time;
  Name : gostring;
  OS : byte
}.

(** An [io.Writer] is known by its identity. *)
Definition ioWriter : Type := nat.

(** The [*flate.Writer] the writer owns: the destination it is bound to
    and its level.  What it has buffered lives outside, in the trace. *)
Record flateWriter : Type := { fw_dst : ioWriter; fw_level : Z }.

Record GzipStreamWriter : Type := {
  Header : gzipHeader;
  w : ioWriter;
  compressor : option flateWriter;
  level : Z;
  err : option error;
  digest : Z;
  size : Z;
  stateFlags : Z   (* 0x1: wroteHeader, 0x2: closed, 0x4: activeDeflateStream *)
}.

(* ================================================================== *)
(** ** The outside world: calls, responses and the trace *)

(** Which statement of the writer issued a write to the destination. *)
Inductive part : Type := HeaderPart | PayloadPart | TrailerPart.

Inductive call : Type :=
| io_Write (dst : ioWriter) (what : part) (p : list byte)
| flate_NewWriter (dst : ioWriter) (lvl : Z)
| flate_Reset (c : flateWriter) (dst : ioWriter)
| flate_Write (c : flateWriter) (p : list byte)
| flate_Flush (c : flateWriter)
| flate_Close (c : flateWriter).

(** A call either succeeds, and a write has then consumed all of [p], or
    fails with an error after [n] bytes. *)
Inductive response : Type :=
| Done
| Failed (n : Z) (e : error).

Definition event : Type := (call * response)%type.

(** The environment answers a call knowing everything that happened. *)
Definition environment : Type := list event -> call -> response.

Record state : Type := { zw : GzipStreamWriter; log : list event }.

(** Code that reads and updates the writer, calls the outside, and may
    panic. *)
Definition M (A : Type) : Type := state -> option (A * state).

Definition ret {A} (a : A) : M A := fun st => Some (a, st).

Definition bind {A B} (m : M A) (f : A -> M B) : M B :=
  fun st =>
    match m st with
    | Some (a, st') => f a st'
    | None => None
    end.

Definition panic {A} : M A := fun _ => None.

Definition get : M GzipStreamWriter := fun st => Some (zw st, st).

Definition modify (f : GzipStreamWriter -> GzipStreamWriter) : M unit :=
  fun st => Some (tt, {| zw := f (zw st); log := log st |}).

(** Lift a computation that may panic. *)
Definition lift {A} (o : option A) : M A :=
  fun st => match o with Some a => Some (a, st) | None => None end.

Declare Scope writer_scope.
Delimit Scope writer_scope with writer.
Notation "x <- m ;; k" := (bind m (fun x => k))
  (at level 61, m at next level, right associativity) : writer_scope.
Notation "' pat <- m ;; k" := (bind m (fun x => match x with pat => k end))
  (at level 61, pat pattern, m at next level, right associativity)
  : writer_scope.
Notation "m ;; k" := (bind m (fun _ => k))
  (at level 61, right associativity) : writer_scope.

(** Field updates. *)
Definition with_Header (h : gzipHeader) (z : GzipStreamWriter) :=
  {| Header := h; w := w z; compressor := compressor z; level := level z;
     err := err z; digest := digest z; size := size z;
     stateFlags := stateFlags z |}.
Definition with_compressor (c : option flateWriter) (z : GzipStreamWriter) :=
  {| Header := Header z; w := w z; compressor := c; level := level z;
     err := err z; digest := digest z; size := size z;
     stateFlags := stateFlags z |}.
Definition with_err (e : option error) (z : GzipStreamWriter) :=
  {| Header := Header z; w := w z; compressor := compressor z;
     level := level z; err := e; digest := digest z; size := size z;
     stateFlags := stateFlags z |}.
Definition with_digest (d : Z) (z : GzipStreamWriter) :=
  {| Header := Header z; w := w z; compressor := compressor z;
     level := level z; err := err z; digest := d; size := size z;
     stateFlags := stateFlags z |}.
Definition with_size (n : Z) (z : GzipStreamWriter) :=
  {| Header := Header z; w := w z; compressor := compressor z;
     level := level z; err := err z; digest := digest z; size := n;
     stateFlags := stateFlags z |}.
Definition with_stateFlags (f : Z) (z : GzipStreamWriter) :=
  {| Header := Header z; w := w z; compressor := compressor z;
     level := level z; err := err z; digest := digest z; size := size z;
     stateFlags := f |}.

(* ================================================================== *)
(** ** The state flags *)

Definition setWroteHeader (value : bool) (z : GzipStreamWriter) :=
  let flag := if value then 1 else 0 in
  with_stateFlags (Z.lor (Z.land (stateFlags z) (not32 0x0001)) flag) z.

Definition setClosed (value : bool) (z : GzipStreamWriter) :=
  let flag := if value then 1 else 0 in
  with_stateFlags
    (Z.lor (Z.land (stateFlags z) (not32 0x0002)) (Z.shiftl flag 1)) z.

Definition setActiveDeflateStream (value : bool) (z : GzipStreamWriter) :=
  let flag := if value then 1 else 0 in
  with_stateFlags
    (Z.lor (Z.land (stateFlags z) (not32 0x0004)) (Z.shiftl flag 2)) z.

Definition checkWroteHeader (z : GzipStreamWriter) : bool :=
  let flag := Z.land (stateFlags z) 0x1 in
  flag =? 1.

Definition checkClosed (z : GzipStreamWriter) : bool :=
  let flag := Z.shiftr (Z.land (stateFlags z) 0x2) 1 in
  flag =? 1.

Definition checkActiveDeflateStream (z : GzipStreamWriter) : bool :=
  let flag := Z.shiftr (Z.land (stateFlags z) 0x4) 2 in
  flag =? 1.

(** What a write returns for a response: [(n, err)]. *)
Definition write_result (p : list byte) (r : response) : Z * option error :=
  match r with
  | Done => (len p, None)
  | Failed n e => (n, Some e)
  end.

Definition error_of (r : response) : option error :=
  match r with
  | Done => None
  | Failed _ e => Some e
  end.

(** [new(GzipStreamWriter)]: the zero value. *)
Definition new_GzipStreamWriter : GzipStreamWriter :=
  {| Header := {| Comment := []; Extra := None; ModTime := zeroTime;
                  Name := []; OS := x00 |};
     w := O; compressor := None; level := 0; err := None;
     digest := 0; size := 0; stateFlags := 0 |}.

Section Writer.

Variable env : environment.

(** A call whose outcome the environment decides. *)
Definition extcall (c : call) : M response :=
  fun st =>
    let r := env (log st) c in
    Some (r, {| zw := zw st; log := log st ++ [(c, r)] |}).

(** A call that returns nothing, or whose error is discarded. *)
Definition note (c : call) : M unit :=
  fun st => Some (tt, {| zw := zw st; log := log st ++ [(c, Done)] |}).

Definition init (w0 : ioWriter) (level0 : Z) : M unit :=
  (z <- get ;;
   let compressor0 := compressor z in
   compressor0 <-
     match compressor0 with
     | Some c =>
         note (flate_Reset c w0) ;;
         ret (Some {| fw_dst := w0; fw_level := fw_level c |})
     | None => ret None
     end ;;
   modify (fun _ =>
     {| Header := {| Comment := []; Extra := None; ModTime := zeroTime;
                     Name := []; OS := xff |};
        w := w0; compressor := compressor0; level := level0;
        err := None; digest := 0; size := 0; stateFlags := 0 |}))%writer.

(** [NewGzipStreamWriterLevel], given the trace so far: the new writer
    or nil, the error, and the trace afterwards. *)
Definition NewGzipStreamWriterLevel (w0 : ioWriter) (level0 : Z)
    (tr : list event)
  : option ((option GzipStreamWriter * option error) * list event) :=
  if (level0 <? HuffmanOnly) || (BestCompression <? level0) then
    Some ((None,
           Some (Errorf "%w: %d"%string ErrInvalidCompressionLevel)), tr)
  else
    match init w0 level0 {| zw := new_GzipStreamWriter; log := tr |} with
    | Some (_, st) => Some ((Some (zw st), None), log st)
    | None => None
    end.

Definition NewGzipStreamWriter (w0 : ioWriter) (tr : list event)
  : option (option GzipStreamWriter * list event) :=
  match NewGzipStreamWriterLevel w0 DefaultCompression tr with
  | Some ((z, _), tr') => Some (z, tr')
  | None => None
  end.

(** [z.w.Write(p)] (and [io.WriteString(z.w, s)]) from the header or
    trailer code. *)
Definition w_Write (what : part) (p : list byte) : M (Z * option error) :=
  (z <- get ;;
   r <- extcall (io_Write (w z) what p) ;;
   ret (write_result p r))%writer.

(** [writeHeaderBytes]: a length-prefixed byte slice. *)
Definition writeHeaderBytes (b : list byte) : M (option error) :=
  (if 0xffff <? len b then ret (Some ErrHdrExtaDataTooLarge) else
   let lengthPrefix := binary.PutUint16 (len b mod 2 ^ 16) in
   '(_, e) <- w_Write HeaderPart lengthPrefix ;;
   match e with
   | Some e =>
       ret (Some (Errorf "gzip: failed to write length prefix: %w"%string e))
   | None =>
       '(_, e) <- w_Write HeaderPart b ;;
       match e with
       | Some e =>
           ret (Some (Errorf "gzip: failed to write bytes: %w"%string e))
       | None => ret None
       end
   end)%writer.

(** [writeHeaderString]: a NUL-terminated Latin-1 string. *)
Definition writeHeaderString (s : gostring) : M (option error) :=
  (if existsb (fun v => (v =? 0) || (0xff <? v)) s
   then ret (Some ErrHdrNonLatin1) else
   let needconv := existsb (fun v => 0x7f <? v) s in
   '(_, e) <-
     (if needconv
      then w_Write HeaderPart (map byte_of_Z s)
      else w_Write HeaderPart (map byte_of_Z s)) ;;
   match e with
   | Some e =>
       ret (Some (Errorf "gzip: failed to write header string: %w"%string e))
   | None =>
       '(_, e) <- w_Write HeaderPart [x00] ;;
       match e with
       | Some e =>
           ret (Some (Errorf
             "gzip: failed to write null terminator for header string: %w"
             e))
       | None => ret None
       end
   end)%writer.

(** [writeHeader]: write the gzip header and make sure a compressor
    exists.  Returns [(n, z.err)]. *)
Definition writeHeader : M (Z * option error) :=
  (modify (setWroteHeader true) ;;
   z <- get ;;
   let buf3 := 0 in
   let buf3 := match Extra (Header z) with
               | Some _ => Z.lor buf3 0x04
               | None => buf3
               end in
   let buf3 := match Name (Header z) with
               | [] => buf3
               | _ :: _ => Z.lor buf3 0x08
               end in
   let buf3 := match Comment (Header z) with
               | [] => buf3
               | _ :: _ => Z.lor buf3 0x10
               end in
   let buf4_8 := if afterEpoch (ModTime (Header z))
                 then binary.PutUint32
                        (uint32 (unix_sec (ModTime (Header z))))
                 else [x00; x00; x00; x00] in
   let buf8 := if level z =? BestCompression then 2
               else if level z =? BestSpeed then 4
               else 0 in
   let buf := [byte_of_Z gzipID1; byte_of_Z gzipID2; byte_of_Z gzipDeflate;
               byte_of_Z buf3] ++ buf4_8 ++ [byte_of_Z buf8; OS (Header z)] in
   '(n, e) <- w_Write HeaderPart buf ;;
   modify (with_err e) ;;
   match e with
   | Some _ => ret (n, e)
   | None =>
   e <- match Extra (Header z) with
        | Some extra =>
            e <- writeHeaderBytes extra ;; modify (with_err e) ;; ret e
        | None => ret None
        end ;;
   match e with
   | Some _ => ret (n, e)
   | None =>
   e <- match Name (Header z) with
        | _ :: _ =>
            e <- writeHeaderString (Name (Header z)) ;;
            modify (with_err e) ;; ret e
        | [] => ret None
        end ;;
   match e with
   | Some _ => ret (n, e)
   | None =>
   e <- match Comment (Header z) with
        | _ :: _ =>
            e <- writeHeaderString (Comment (Header z)) ;;
            modify (with_err e) ;; ret e
        | [] => ret None
        end ;;
   match e with
   | Some _ => ret (n, e)
   | None =>
   z <- get ;;
   match compressor z with
   | None =>
       (* z.compressor, _ = flate.NewWriter(z.w, z.level): nil when the
          level is outside [HuffmanOnly, BestCompression] *)
       note (flate_NewWriter (w z) (level z)) ;;
       modify (with_compressor
                 (if (level z <? -2) || (9 <? level z) then None
                  else Some {| fw_dst := w z; fw_level := level z |}))
   | Some _ => ret tt
   end ;;
   z <- get ;;
   ret (n, err z)
   end end end end)%writer.

(** [z.compressor.Write(p)]; a nil compressor panics. *)
Definition compressor_Write (p : list byte) : M (Z * option error) :=
  (z <- get ;;
   match compressor z with
   | None => panic
   | Some c => r <- extcall (flate_Write c p) ;; ret (write_result p r)
   end)%writer.

Definition compressor_Flush : M (option error) :=
  (z <- get ;;
   match compressor z with
   | None => panic
   | Some c => r <- extcall (flate_Flush c) ;; ret (error_of r)
   end)%writer.

Definition compressor_Close : M (option error) :=
  (z <- get ;;
   match compressor z with
   | None => panic
   | Some c => r <- extcall (flate_Close c) ;; ret (error_of r)
   end)%writer.

(** The part of [Write] behind the lazy header: account for [p] and
    hand it to the compressor. *)
Definition Write_compress (p : list byte) : M (Z * option error) :=
  (modify (fun z => with_size (uint32 (size z + uint32 (len p))) z) ;;
   modify (fun z =>
     with_digest (crc32.Update (digest z) crc32.IEEETable p) z) ;;
   modify (setActiveDeflateStream true) ;;
   '(n, e) <- compressor_Write p ;;
   modify (with_err e) ;;
   ret (n, e))%writer.

(** [Write]: compress [p] into the stream. *)
Definition Write (p : list byte) : M (Z * option error) :=
  (z <- get ;;
   match err z with
   | Some e => ret (0, Some e)
   | None =>
   '(n, e) <- (if negb (checkWroteHeader z)
               then '(n, e) <- writeHeader ;;
                    modify (with_err e) ;; ret (n, e)
               else ret (0, None)) ;;
   match e with
   | Some _ => ret (n, e)
   | None => Write_compress p
   end end)%writer.

(** The block of [WriteCompressed] under "Flush the current deflate
    stream, if one was active": the error it leaves in [z.err]. *)
Definition WriteCompressed_flush : M (option error) :=
  (z <- get ;;
   if checkActiveDeflateStream z
   then e <- compressor_Flush ;;
        modify (with_err e) ;;
        match e with
        | Some _ => ret e
        | None => modify (setActiveDeflateStream false) ;; ret None
        end
   else ret None)%writer.

(** The rest of [WriteCompressed], from the length check on; [n] is the
    count that [writeHeader] returned. *)
Definition WriteCompressed_splice (n : Z) (p : list byte)
  : M (Z * option error) :=
  (if len p <? 18 then ret (n, Some ErrBlob) else
   s <- lift (slice p (len p - 8) (len p - 4)) ;;
   trailerChecksum <- lift (binary.Uint32 s) ;;
   s <- lift (slice_from p (len p - 4)) ;;
   trailerLength <- lift (binary.Uint32 s) ;;
   '(content, ok) <- lift (getDeflateSlice p) ;;
   if negb ok then ret (n, Some ErrBlob) else
   modify (fun z => with_size (uint32 (size z + trailerLength)) z) ;;
   z <- get ;;
   d <- lift (crc32Combine (digest z) trailerChecksum
                           (int trailerLength)) ;;
   modify (with_digest d) ;;
   '(n, e) <- w_Write PayloadPart content ;;
   modify (with_err e) ;;
   ret (n, e))%writer.

(** [WriteCompressed]: splice the DEFLATE payload of the gzip blob [p]
    into the stream. *)
Definition WriteCompressed (p : list byte) : M (Z * option error) :=
  (z <- get ;;
   match err z with
   | Some e => ret (0, Some e)
   | None =>
   '(n, e) <- writeHeader ;;
   modify (with_err e) ;;
   match e with
   | Some _ => ret (n, e)
   | None =>
   e <- WriteCompressed_flush ;;
   match e with
   | Some _ => ret (n, e)
   | None => WriteCompressed_splice n p
   end end end)%writer.

(** The end of [Close]: finish the compressor, write the trailer. *)
Definition Close_finish : M (option error) :=
  (e <- compressor_Close ;;
   modify (with_err e) ;;
   match e with
   | Some _ => ret e
   | None =>
   z <- get ;;
   let buf := binary.PutUint32 (digest z) ++ binary.PutUint32 (size z) in
   '(_, e) <- w_Write TrailerPart buf ;;
   modify (with_err e) ;;
   ret e
   end)%writer.

(** [Close]: finish the stream and write the gzip trailer. *)
Definition Close : M (option error) :=
  (z <- get ;;
   match err z with
   | Some e => ret (Some e)
   | None =>
   if checkClosed z then ret None else
   modify (setClosed true) ;;
   z <- get ;;
   e <- (if negb (checkWroteHeader z)
         then _ <- Write [] ;; z <- get ;; ret (err z)
         else ret None) ;;
   match e with
   | Some _ => ret e
   | None => Close_finish
   end end)%writer.

(** The end of [Flush]: sync-flush the compressor, clear the flag. *)
Definition Flush_sync : M (option error) :=
  (e <- compressor_Flush ;;
   modify (with_err e) ;;
   modify (setActiveDeflateStream false) ;;
   ret e)%writer.

(** [Flush]: sync-flush the compressor. *)
Definition Flush : M (option error) :=
  (z <- get ;;
   match err z with
   | Some e => ret (Some e)
   | None =>
   if checkClosed z then ret None else
   r <- (if negb (checkWroteHeader z)
         then '(_, e) <- Write [] ;;
              match e with
              | Some _ => z <- get ;; ret (Some (err z))
              | None => ret None
              end
         else ret None) ;;
   match r with
   | Some e => ret e
   | None => Flush_sync
   end end)%writer.

(** [Reset]: back to the initial state, on the destination [w0]. *)
Definition Reset (w0 : ioWriter) : M unit :=
  (z <- get ;;
   init w0 (level z) ;;
   modify (setClosed false) ;;
   modify (setWroteHeader false) ;;
   modify (setActiveDeflateStream false))%writer.

End Writer.

(* ================================================================== *)
(** ** Callers: sequences of method calls and the states they reach *)

(** What a caller can do with a writer.  [Header] is an exported embedded
    field, so a caller can assign it at any time. *)
Inductive method : Type :=
| CallWrite (p : list byte)
| CallWriteCompressed (p : list byte)
| CallFlush
| CallClose
| CallReset (w0 : ioWriter)
| AssignHeader (h : gzipHeader).

Definition invoke (env : environment) (m : method) : M unit :=
  match m with
  | CallWrite p => (_ <- Write env p ;; ret tt)%writer
  | CallWriteCompressed p => (_ <- WriteCompressed env p ;; ret tt)%writer
  | CallFlush => (_ <- Flush env ;; ret tt)%writer
  | CallClose => (_ <- Close env ;; ret tt)%writer
  | CallReset w0 => Reset w0
  | AssignHeader h => modify (with_Header h)
  end.

Fixpoint run (env : environment) (ms : list method) : M unit :=
  match ms with
  | [] => ret tt
  | m :: rest => (invoke env m ;; run env rest)%writer
  end.

(** A writer fresh from [NewGzipStreamWriterLevel], in an empty world. *)
Definition fresh (w0 : ioWriter) (level0 : Z) : option state :=
  match NewGzipStreamWriterLevel w0 level0 [] with
  | Some ((Some z, None), tr) => Some {| zw := z; log := tr |}
  | _ => None
  end.

(** The states a writer can be in: fresh, or one method call later. *)
Inductive reachable (env : environment) : state -> Prop :=
| reachable_fresh w0 level0 st :
    fresh w0 level0 = Some st -> reachable env st
| reachable_invoke st m st' :
    reachable env st -> invoke env m st = Some (tt, st') ->
    reachable env st'.

(** An environment in which nothing ever fails. *)
Definition reliable : environment := fun _ _ => Done.

(* ================================================================== *)
(** ** Reading the trace *)

(** Does the compressor hold raw-write data that no sync-flush, close or
    reset has committed or discarded yet? *)
Definition uncommitted_step (pending : bool) (ev : event) : bool :=
  match ev with
  | (flate_Write _ _, _) => true
  | (flate_Flush _, Done) => false
  | (flate_Close _, Done) => false
  | (flate_Reset _ _, _) => false
  | (flate_NewWriter _ _, _) => false
  | _ => pending
  end.

Definition uncommitted (tr : list event) : bool :=
  fold_left uncommitted_step tr false.

Definition is_flush (ev : event) : bool :=
  match ev with
  | (flate_Flush _, _) => true
  | _ => false
  end.

Definition is_payload (ev : event) : bool :=
  match ev with
  | (io_Write _ PayloadPart _, _) => true
  | _ => false
  end.

Definition is_header (ev : event) : bool :=
  match ev with
  | (io_Write _ HeaderPart _, _) => true
  | _ => false
  end.

Definition is_flate_Close (ev : event) : bool :=
  match ev with
  | (flate_Close _, _) => true
  | _ => false
  end.

(** The number of sync-flushes in a stretch of the trace. *)
Definition count_flush (tr : list event) : nat :=
  List.length (filter is_flush tr).

(** Reading "sync-flushes occur exactly where a raw-write sequence turns
    into a splice or an explicit Flush" on a trace: every sync-flush has a
    compressor write since the previous sync-flush (or the beginning). *)
Fixpoint flush_follows_raw_from (raw : bool) (tr : list event) : bool :=
  match tr with
  | [] => true
  | (flate_Write _ _, _) :: rest => flush_follows_raw_from true rest
  | (flate_Flush _, _) :: rest => raw && flush_follows_raw_from false rest
  | _ :: rest => flush_follows_raw_from raw rest
  end.

Definition flush_follows_raw (tr : list event) : bool :=
  flush_follows_raw_from false tr.

(* ================================================================== *)
(** ** Reference content of a sequence of writes *)

(** The trailer RFC 1952 prescribes for a member whose decompressed content
    is [content]: CRC32, then ISIZE, both little endian. *)
Definition gzip_trailer (content : list byte) : list byte :=
  binary.PutUint32 (crc32.ChecksumIEEE content)
  ++ binary.PutUint32 (uint32 (len content)).

(** [blob] ends with the trailer of [content]: its last eight bytes are
    the CRC32 and the ISIZE of [content].  A gzip member that decompresses
    to [content] ends so; a blob of several members ends with the trailer
    of its last member only, not with that of all it decompresses to. *)
Definition ends_with_trailer_of (blob content : list byte) : Prop :=
  skipn (List.length blob - 8) blob = gzip_trailer content.

(** [WriteCompressed] splices the blob rather than rejecting it. *)
Definition accepted (blob : list byte) : bool :=
  (18 <=? len blob)
  && match getDeflateSlice blob with
     | Some (_, true) => true
     | _ => false
     end.

(** [describes m d]: the content [d] that the call [m] is taken to add to
    the stream.  A [Write] adds its bytes.  DEFLATE is not decoded here,
    so for a blob that [WriteCompressed] accepts, [d] is any content
    whose trailer the blob ends with: this is what relates the blob to
    its decompressed content, and it does so only for a blob that ends
    with the CRC32 and the ISIZE of all it decompresses to.  A blob that
    is rejected adds nothing. *)
Inductive describes : method -> list byte -> Prop :=
| describes_raw p : describes (CallWrite p) p
| describes_spliced blob d :
    accepted blob = true -> ends_with_trailer_of blob d ->
    describes (CallWriteCompressed blob) d
| describes_rejected blob :
    accepted blob = false -> describes (CallWriteCompressed blob) [].

(** The content of a spliced blob is shorter than 2^32 bytes, so that its
    ISIZE field is its length. *)
Definition splice_fits (m : method) (d : list byte) : Prop :=
  match m with
  | CallWriteCompressed _ => len d < 2 ^ 32
  | _ => True
  end.

(* ================================================================== *)
(** ** CRC32 over long runs of zero bytes *)

(** One zero byte through the loop of [simpleUpdate]. *)
Definition shift0 (crc : Z) : Z :=
  crc32.update_byte crc32.IEEETable crc x00.

(** A GF(2)-linear map on 32-bit words, by its values on 1, 2, 4, ... *)
Fixpoint apply_cols (cols : list Z) (c : Z) : Z :=
  match cols with
  | [] => 0
  | m :: rest =>
      Z.lxor (if Z.odd c then m else 0) (apply_cols rest (Z.shiftr c 1))
  end.

Definition cols_of (f : Z -> Z) : list Z :=
  map (fun i => f (2 ^ Z.of_nat i)) (seq 0 32).

Definition square_cols (cols : list Z) : list Z :=
  map (apply_cols cols) cols.

(** The columns of [shift0] iterated [2^k] times. *)
Definition pow2_cols (k : nat) : list Z :=
  Nat.iter k square_cols (cols_of shift0).

(* ================================================================== *)
(** ** Sample inputs *)

(** A gzip member of the empty string whose header carries the file name
    "a": the ten fixed bytes with FNAME set, "a", NUL, the DEFLATE stream
    [03 00], and the trailer (CRC32 0, ISIZE 0). *)
Definition blob_named_a : list byte :=
  [x1f; x8b; x08; x08; x00; x00; x00; x00; x00; xff;
   x61; x00;
   x03; x00;
   x00; x00; x00; x00; x00; x00; x00; x00].

(** The same member without a file name. *)
Definition blob_empty : list byte :=
  [x1f; x8b; x08; x00; x00; x00; x00; x00; x00; xff;
   x03; x00;
   x00; x00; x00; x00; x00; x00; x00; x00].

(** A writer fresh from [NewGzipStreamWriter] on the destination 1. *)
Definition st_fresh : state :=
  {| zw := {| Header := {| Comment := []; Extra := None;
                           ModTime := zeroTime; Name := []; OS := xff |};
              w := 1%nat; compressor := None; level := DefaultCompression;
              err := None; digest := 0; size := 0; stateFlags := 0 |};
     log := [] |}.

(** The state after a sequence of calls, when nothing ever fails. *)
Definition after (ms : list method) (st : state) : state :=
  match run reliable ms st with
  | Some (_, st') => st'
  | None => st
  end.

(** After splicing the empty member into a fresh writer. *)
Definition st_spliced : state :=
  Eval vm_compute in after [CallWriteCompressed blob_empty] st_fresh.

(** After handing a fresh writer a blob that is no gzip member. *)
Definition st_rejected : state :=
  Eval vm_compute in after [CallWriteCompressed []] st_fresh.

(** After one and after two calls of [Flush] on a fresh writer. *)
Definition st_flushed : state :=
  Eval vm_compute in after [CallFlush] st_fresh.

Definition st_flushed_twice : state :=
  Eval vm_compute in after [CallFlush; CallFlush] st_fresh.

(** After closing a fresh writer. *)
Definition st_closed : state :=
  Eval vm_compute in after [CallClose] st_fresh.

(** After closing the writer that holds the spliced empty member. *)
Definition st_spliced_closed : state :=
  Eval vm_compute in after [CallClose] st_spliced.

(** After writing the byte "A" into a fresh writer. *)
Definition st_written : state :=
  Eval vm_compute in after [CallWrite [x41]] st_fresh.

(** The gzip member of "bar": header, the DEFLATE stream 4b 4a 2c 02 00,
    CRC32 0x76ff8caa and ISIZE 3. *)
Definition blob_bar : list byte :=
  [x1f; x8b; x08; x00; x00; x00; x00; x00; x00; xff;
   x4b; x4a; x2c; x02; x00;
   xaa; x8c; xff; x76; x03; x00; x00; x00].

(** Write "foo", splice the member of "bar", close. *)
Definition foo_bar : list method :=
  [CallWrite [x66; x6f; x6f]; CallWriteCompressed blob_bar].

Definition st_foo_bar_closed : state :=
  Eval vm_compute in after (foo_bar ++ [CallClose]) st_fresh.

(** The ten fixed bytes of a gzip header without optional fields. *)
Definition plain_header : list byte :=
  [x1f; x8b; x08; x00; x00; x00; x00; x00; x00; xff].

(** A gzip member: the plain header, a DEFLATE stream and a trailer. *)
Definition plain_member (body trailer : list byte) : list byte :=
  plain_header ++ body ++ trailer.

(** Two gzip members in one blob, of "a" and of "b", each with its byte in
    a stored DEFLATE block (01 01 00 fe ff, the byte) and with its own
    trailer: the blob decompresses to "ab" and ends with the trailer of
    "b". *)
Definition blob_two_members : list byte :=
  plain_member [x01; x01; x00; xfe; xff; x61]
               [x43; xbe; xb7; xe8; x01; x00; x00; x00]
  ++ plain_member [x01; x01; x00; xfe; xff; x62]
                  [xf9; xef; xbe; x71; x01; x00; x00; x00].

(** After splicing that blob into a fresh writer and closing. *)
Definition st_two_members_closed : state :=
  Eval vm_compute in
    after [CallWriteCompressed blob_two_members; CallClose] st_fresh.

(** 2^32 zero bytes. *)
Definition zeros_4GiB : list byte := repeat x00 (2 ^ 32)%nat.

(** A stored DEFLATE block of 65535 zero bytes that is not the last one:
    BFINAL 0 and BTYPE 00, LEN ffff, NLEN 0000, the data. *)
Definition zero_block : list byte :=
  [x00; xff; xff; x00; x00] ++ repeat x00 (Z.to_nat 65535).

(** 2^32 zero bytes as a DEFLATE stream: 65537 such blocks, then a last
    stored block of one zero byte (65537 * 65535 + 1 = 2^32). *)
Definition deflate_4GiB : list byte :=
  List.concat (repeat zero_block (Z.to_nat 65537))
  ++ [x01; x01; x00; xfe; xff; x00].

(** Its trailer: CRC32 0xd202ef8d, and ISIZE 2^32 mod 2^32 = 0. *)
Definition trailer_4GiB : list byte :=
  [x8d; xef; x02; xd2; x00; x00; x00; x00].

Definition blob_4GiB : list byte := plain_member deflate_4GiB trailer_4GiB.

(** Write "A", then splice the member of 2^32 zero bytes. *)
Definition write_then_4GiB : list method :=
  [CallWrite [x41]; CallWriteCompressed blob_4GiB].

(** [st_written] after the [writeHeader] call that starts a splice, and
    after the sync-flush that follows it. *)
Definition st_written_header : state :=
  Eval vm_compute in
    match writeHeader reliable st_written with
    | Some (_, st') => st'
    | None => st_written
    end.

Definition st_written_synced : state :=
  Eval vm_compute in
    match WriteCompressed_flush reliable st_written_header with
    | Some (_, st') => st'
    | None => st_written_header
    end.

(** A header whose file name holds the rune U+0100, which Latin-1 does
    not have. *)
Definition header_bad_name : gzipHeader :=
  {| Comment := []; Extra := None; ModTime := zeroTime; Name := [0x100];
     OS := xff |}.

(** A fresh writer after the caller has assigned that header. *)
Definition st_bad_name : state :=
  Eval vm_compute in after [AssignHeader header_bad_name] st_fresh.


(* ================================================================== *)
(** * The vocabulary of the statements

    Outcomes of the methods, the invariant of reachable states, and the
    readings of the trace that the theorems are stated with. *)

(* ================================================================== *)
(** ** Results of the parser *)

(** The two trailer fields as [WriteCompressed] reads them. *)
Definition trailerChecksum (p : list byte) : option Z :=
  (s <- slice p (len p - 8) (len p - 4) ;; binary.Uint32 s)%panic.

Definition trailerLength (p : list byte) : option Z :=
  (s <- slice_from p (len p - 4) ;; binary.Uint32 s)%panic.

Section Parser_results.

Variable gzBlob : list byte.

(** What [getHeaderLength] may return. *)
Definition header_length_ok (h : Z) : Prop :=
  h = -1 \/ 10 <= h <= len gzBlob.

(** A continuation that returns for every offset inside the blob. *)
Definition continues (k : Z -> option Z) : Prop :=
  forall h, 10 <= h <= len gzBlob ->
            exists r, k h = Some r /\ header_length_ok r.

End Parser_results.

(* ================================================================== *)
(** ** Runs of the monad and stretches of the trace *)

(** [m] returns from [st], with a result and a state that satisfy [Q]. *)
Definition post {A} (m : M A) (st : state) (Q : A -> state -> Prop) : Prop :=
  exists a st', m st = Some (a, st') /\ Q a st'.

(** A stretch of the trace that holds only header writes. *)
Definition header_only (tr : list event) : Prop :=
  forallb is_header tr = true.

(** No event of the stretch is of the given kind. *)
Definition none_of (k : event -> bool) (tr : list event) : Prop :=
  forallb (fun ev => negb (k ev)) tr = true.

(** The first call is the write of the ten fixed header bytes. *)
Definition starts_with_header (dst : ioWriter) (tr : list event) : Prop :=
  exists buf resp rest,
    tr = (io_Write dst HeaderPart buf, resp) :: rest /\ len buf = 10.

(* ================================================================== *)
(** ** What [writeHeader] leaves behind *)

(** A header field writer leaves the writer alone and appends header
    writes to the trace. *)
Definition header_field_post (st : state) (_ : option error) (st' : state)
  : Prop :=
  zw st' = zw st
  /\ exists tr, log st' = log st ++ tr /\ header_only tr.

(** The compressor after [writeHeader] and the call that made it. *)
Definition compressor_after (z : GzipStreamWriter) (e : option error)
    (c' : option flateWriter) (nw : list event) : Prop :=
  match compressor z, e with
  | Some c, _ => c' = Some c /\ nw = []
  | None, Some _ => c' = None /\ nw = []
  | None, None =>
      c' = (if (level z <? -2) || (9 <? level z) then None
            else Some {| fw_dst := w z; fw_level := level z |})
      /\ nw = [(flate_NewWriter (w z) (level z), Done)]
  end.

(** The header is under way: the flag is set, the ten fixed bytes went to
    the destination first, and only header writes followed. *)
Definition header_progress (st : state) (e : option error) (st' : state)
  : Prop :=
  zw st' = with_err e (setWroteHeader true (zw st))
  /\ exists buf resp hdr,
       log st' = log st ++ (io_Write (w (zw st)) HeaderPart buf, resp) :: hdr
       /\ len buf = 10 /\ header_only hdr
       /\ (e = None -> resp = Done).

(** [writeHeader] has returned [r]. *)
Definition header_post (st : state) (r : Z * option error) (st' : state)
  : Prop :=
  exists c' buf resp hdr nw,
    zw st' = with_err (snd r) (with_compressor c' (setWroteHeader true (zw st)))
    /\ log st'
       = log st ++ (io_Write (w (zw st)) HeaderPart buf, resp) :: hdr ++ nw
    /\ len buf = 10 /\ header_only hdr
    /\ compressor_after (zw st) (snd r) c' nw.

(* ================================================================== *)
(** ** The ways through the methods *)

Section Outcomes.

Variable env : environment.

(** The state after the second half of [Write]. *)
Definition Write_compress_state (p : list byte) (c : flateWriter)
    (st : state) : state :=
  let r := env (log st) (flate_Write c p) in
  {| zw := with_err (error_of r)
             (setActiveDeflateStream true
                (with_digest
                   (crc32.Update (digest (zw st)) crc32.IEEETable p)
                   (with_size (uint32 (size (zw st) + uint32 (len p)))
                              (zw st))));
     log := log st ++ [(flate_Write c p, r)] |}.

(** The state after the flush block of [WriteCompressed]. *)
Definition flush_state (c : flateWriter) (st : state) : state :=
  let r := env (log st) (flate_Flush c) in
  {| zw := match error_of r with
           | Some e => with_err (Some e) (zw st)
           | None => setActiveDeflateStream false (with_err None (zw st))
           end;
     log := log st ++ [(flate_Flush c, r)] |}.

(** The state after a splice: size, digest and the payload write. *)
Definition splice_state (content : list byte) (tl d : Z) (st : state)
  : state :=
  let r := env (log st) (io_Write (w (zw st)) PayloadPart content) in
  {| zw := with_err (error_of r)
             (with_digest d
                (with_size (uint32 (size (zw st) + tl)) (zw st)));
     log := log st ++ [(io_Write (w (zw st)) PayloadPart content, r)] |}.

(** The state in which [Close] goes on after [z.setClosed(true)]. *)
Definition closing (st : state) : state :=
  {| zw := setClosed true (zw st); log := log st |}.

(** The state after the end of [Close]. *)
Definition Close_finish_state (c : flateWriter) (st : state) : state :=
  let r := env (log st) (flate_Close c) in
  match error_of r with
  | Some e =>
      {| zw := with_err (Some e) (zw st);
         log := log st ++ [(flate_Close c, r)] |}
  | None =>
      let buf := binary.PutUint32 (digest (zw st))
                 ++ binary.PutUint32 (size (zw st)) in
      let tr1 := log st ++ [(flate_Close c, r)] in
      let r2 := env tr1 (io_Write (w (zw st)) TrailerPart buf) in
      {| zw := with_err (error_of r2) (zw st);
         log := tr1 ++ [(io_Write (w (zw st)) TrailerPart buf, r2)] |}
  end.

(** The state after the end of [Flush]. *)
Definition Flush_sync_state (c : flateWriter) (st : state) : state :=
  let r := env (log st) (flate_Flush c) in
  {| zw := setActiveDeflateStream false (with_err (error_of r) (zw st));
     log := log st ++ [(flate_Flush c, r)] |}.

(** The state in which [Write] reaches its second half. *)
Definition lazy_header (st st1 : state) : Prop :=
  (checkWroteHeader (zw st) = true /\ st1 = st)
  \/ (checkWroteHeader (zw st) = false
      /\ exists n, writeHeader env st = Some ((n, None), st1)).

(** The ways through [Write]. *)
Inductive Write_case (p : list byte) (st : state)
  : Z * option error -> state -> Prop :=
| Write_is_latched e :
    err (zw st) = Some e -> Write_case p st (0, Some e) st
| Write_header_failed n e st1 :
    err (zw st) = None -> checkWroteHeader (zw st) = false ->
    writeHeader env st = Some ((n, Some e), st1) ->
    Write_case p st (n, Some e) st1
| Write_compressed st1 c :
    err (zw st) = None -> lazy_header st st1 ->
    compressor (zw st1) = Some c ->
    Write_case p st
      (write_result p (env (log st1) (flate_Write c p)))
      (Write_compress_state p c st1).

(** The ways through the second half of [WriteCompressed]. *)
Inductive splice_case (n : Z) (p : list byte) (st : state)
  : Z * option error -> state -> Prop :=
| splice_is_rejected :
    accepted p = false -> splice_case n p st (n, Some ErrBlob) st
| splice_is_accepted content c tl d :
    accepted p = true ->
    getDeflateSlice p = Some (content, true) ->
    trailerChecksum p = Some c -> trailerLength p = Some tl ->
    0 <= c < 2 ^ 32 -> 0 <= tl < 2 ^ 32 ->
    crc32Combine (digest (zw st)) c tl = Some d ->
    splice_case n p st
      (write_result content
         (env (log st) (io_Write (w (zw st)) PayloadPart content)))
      (splice_state content tl d st).

(** The flush block of [WriteCompressed] went through. *)
Definition flushed (st1 st2 : state) : Prop :=
  (checkActiveDeflateStream (zw st1) = false /\ st2 = st1)
  \/ (checkActiveDeflateStream (zw st1) = true
      /\ exists c, compressor (zw st1) = Some c
                   /\ env (log st1) (flate_Flush c) = Done
                   /\ st2 = flush_state c st1).

(** The ways through [WriteCompressed]. *)
Inductive WriteCompressed_case (p : list byte) (st : state)
  : Z * option error -> state -> Prop :=
| WriteCompressed_is_latched e :
    err (zw st) = Some e -> WriteCompressed_case p st (0, Some e) st
| WriteCompressed_header_failed n e st1 :
    err (zw st) = None ->
    writeHeader env st = Some ((n, Some e), st1) ->
    WriteCompressed_case p st (n, Some e) st1
| WriteCompressed_flush_failed n st1 c k e :
    err (zw st) = None ->
    writeHeader env st = Some ((n, None), st1) ->
    checkActiveDeflateStream (zw st1) = true ->
    compressor (zw st1) = Some c ->
    env (log st1) (flate_Flush c) = Failed k e ->
    WriteCompressed_case p st (n, Some e) (flush_state c st1)
| WriteCompressed_spliced n st1 st2 r st' :
    err (zw st) = None ->
    writeHeader env st = Some ((n, None), st1) ->
    flushed st1 st2 -> splice_case n p st2 r st' ->
    WriteCompressed_case p st r st'.

(** The state in which [Close] reaches its end. *)
Definition close_ready (st st1 : state) : Prop :=
  (checkWroteHeader (zw st) = true /\ st1 = closing st)
  \/ (checkWroteHeader (zw st) = false
      /\ exists r0, Write env [] (closing st) = Some (r0, st1)
                    /\ err (zw st1) = None).

(** The ways through [Close]. *)
Inductive Close_case (st : state) : option error -> state -> Prop :=
| Close_is_latched e :
    err (zw st) = Some e -> Close_case st (Some e) st
| Close_is_closed :
    err (zw st) = None -> checkClosed (zw st) = true ->
    Close_case st None st
| Close_header_failed r0 st1 e :
    err (zw st) = None -> checkClosed (zw st) = false ->
    checkWroteHeader (zw st) = false ->
    Write env [] (closing st) = Some (r0, st1) ->
    err (zw st1) = Some e ->
    Close_case st (Some e) st1
| Close_finished st1 c :
    err (zw st) = None -> checkClosed (zw st) = false ->
    close_ready st st1 -> compressor (zw st1) = Some c ->
    Close_case st (err (zw (Close_finish_state c st1)))
               (Close_finish_state c st1).

(** The state in which [Flush] reaches the compressor. *)
Definition flush_ready (st st1 : state) : Prop :=
  (checkWroteHeader (zw st) = true /\ st1 = st)
  \/ (checkWroteHeader (zw st) = false
      /\ exists n, Write env [] st = Some ((n, None), st1)).

(** The ways through [Flush]. *)
Inductive Flush_case (st : state) : option error -> state -> Prop :=
| Flush_is_latched e :
    err (zw st) = Some e -> Flush_case st (Some e) st
| Flush_is_closed :
    err (zw st) = None -> checkClosed (zw st) = true ->
    Flush_case st None st
| Flush_header_failed n e st1 :
    err (zw st) = None -> checkClosed (zw st) = false ->
    checkWroteHeader (zw st) = false ->
    Write env [] st = Some ((n, Some e), st1) ->
    Flush_case st (err (zw st1)) st1
| Flush_synced st1 c :
    err (zw st) = None -> checkClosed (zw st) = false ->
    flush_ready st st1 -> compressor (zw st1) = Some c ->
    Flush_case st (error_of (env (log st1) (flate_Flush c)))
               (Flush_sync_state c st1).

End Outcomes.

(* ================================================================== *)
(** ** The invariant and the effect of [Reset] *)

(** What holds of every state a caller can reach. *)
Record wf (st : state) : Prop := {
  wf_level : -2 <= level (zw st) <= 9;
  wf_compressor :
    checkWroteHeader (zw st) = true -> err (zw st) = None ->
    compressor (zw st) <> None;
  wf_no_data : compressor (zw st) = None -> uncommitted (log st) = false;
  wf_active :
    err (zw st) = None -> uncommitted (log st) = true ->
    checkActiveDeflateStream (zw st) = true;
  wf_size : 0 <= size (zw st) < 2 ^ 32;
  wf_digest : 0 <= digest (zw st) < 2 ^ 32
}.

(** The writer after [Reset] onto [w0]. *)
Definition reset_writer (w0 : ioWriter) (z : GzipStreamWriter)
  : GzipStreamWriter :=
  {| Header := {| Comment := []; Extra := None; ModTime := zeroTime;
                  Name := []; OS := xff |};
     w := w0;
     compressor := match compressor z with
                   | Some c => Some {| fw_dst := w0; fw_level := fw_level c |}
                   | None => None
                   end;
     level := level z; err := None; digest := 0; size := 0;
     stateFlags := 0 |}.

(** The calls [Reset] makes. *)
Definition reset_events (w0 : ioWriter) (z : GzipStreamWriter)
  : list event :=
  match compressor z with
  | Some c => [(flate_Reset c w0, Done)]
  | None => []
  end.

(* ================================================================== *)
(** ** Sync-flushes and payloads on the trace *)

(** What [WriteCompressed] adds to the trace when it writes a payload:
    the payload is the last call, and before it the compressor holds
    nothing that is not committed. *)
Definition payload_last (p : list byte) (st st' : state) (tr : list event)
  : Prop :=
  exists pre content resp,
    tr = pre ++ [(io_Write (w (zw st)) PayloadPart content, resp)]
    /\ getDeflateSlice p = Some (content, true)
    /\ none_of is_payload pre
    /\ uncommitted (log st ++ pre) = false
    /\ checkActiveDeflateStream (zw st') = false
    /\ (checkActiveDeflateStream (zw st) = true ->
        exists c, In (flate_Flush c, Done) pre).

(** [WriteCompressed] sync-flushes exactly when it finds the flag set. *)
Definition splice_flushes (env : environment) (st : state)
    (tr : list event) : Prop :=
  (count_flush tr = 1%nat
   /\ err (zw st) = None /\ checkActiveDeflateStream (zw st) = true
   /\ exists n st1, writeHeader env st = Some ((n, None), st1))
  \/ (count_flush tr = O
      /\ (err (zw st) <> None
          \/ checkActiveDeflateStream (zw st) = false
          \/ exists n e st1, writeHeader env st = Some ((n, Some e), st1))).

(** [Flush] sync-flushes exactly when it reaches the compressor. *)
Definition Flush_flushes (env : environment) (st st' : state)
    (tr : list event) : Prop :=
  (count_flush tr = 1%nat
   /\ err (zw st) = None /\ checkClosed (zw st) = false
   /\ (checkWroteHeader (zw st) = true
       \/ exists n st1, Write env [] st = Some ((n, None), st1))
   /\ checkActiveDeflateStream (zw st') = false)
  \/ (count_flush tr = O
      /\ (err (zw st) <> None
          \/ checkClosed (zw st) = true
          \/ exists n e st1, Write env [] st = Some ((n, Some e), st1))).

(* ================================================================== *)
(** ** Digest and size against the content written so far *)

(** With no error latched, digest and size are those of [acc], and the
    destination is [w0]. *)
Definition tally (w0 : ioWriter) (acc : list byte) (st : state) : Prop :=
  err (zw st) = None ->
  digest (zw st) = crc32.ChecksumIEEE acc
  /\ size (zw st) = uint32 (len acc)
  /\ w (zw st) = w0.

(** With no error latched, the writer is not closed. *)
Definition still_open (st : state) : Prop :=
  err (zw st) = None -> checkClosed (zw st) = false.

(** A map on CRC registers that is linear over GF(2) and keeps to 32
    bits. *)
Record linear32 (f : Z -> Z) : Prop := {
  lin_zero : f 0 = 0;
  lin_lxor : forall a b, f (Z.lxor a b) = Z.lxor (f a) (f b);
  lin_range : forall c, 0 <= c < 2 ^ 32 -> 0 <= f c < 2 ^ 32
}.

(* ================================================================== *)
(** ** The writer around a member whose ISIZE field has wrapped *)

Section Wrapped_states.

Variable body : list byte.

(** [st_written_synced] after the splice of the member with the trailer
    of 2^32 zero bytes. *)
Definition st_wrapped : state :=
  splice_state reliable body 0 31158534 st_written_synced.

(** The state after the [Close] that follows. *)
Definition st_wrapped_closed : state :=
  Close_finish_state reliable {| fw_dst := 1%nat; fw_level := -1 |}
    (closing st_wrapped).

End Wrapped_states.

(* ================================================================== *)
(** ** The gzip header as a byte string *)

(** The flag byte that [writeHeader] computes in [buf[3]]. *)
Definition header_flags (h : gzipHeader) : Z :=
  let buf3 := 0 in
  let buf3 := match Extra h with
              | Some _ => Z.lor buf3 0x04
              | None => buf3
              end in
  let buf3 := match Name h with
              | [] => buf3
              | _ :: _ => Z.lor buf3 0x08
              end in
  match Comment h with
  | [] => buf3
  | _ :: _ => Z.lor buf3 0x10
  end.

(** The ten bytes that [writeHeader] fills [buf] with. *)
Definition fixed_header (z : GzipStreamWriter) : list byte :=
  [byte_of_Z gzipID1; byte_of_Z gzipID2; byte_of_Z gzipDeflate;
   byte_of_Z (header_flags (Header z))]
  ++ (if afterEpoch (ModTime (Header z))
      then binary.PutUint32 (uint32 (unix_sec (ModTime (Header z))))
      else [x00; x00; x00; x00])
  ++ [byte_of_Z (if level z =? BestCompression then 2
                 else if level z =? BestSpeed then 4
                 else 0);
      OS (Header z)].

(** What [writeHeaderBytes] and [writeHeaderString] send when they
    succeed. *)
Definition extra_field (b : list byte) : list byte :=
  binary.PutUint16 (len b mod 2 ^ 16) ++ b.

Definition string_field (s : gostring) : list byte :=
  map byte_of_Z s ++ [x00].

(** The optional fields of the header [h], as [writeHeader] sends them
    behind the fixed bytes when nothing fails. *)
Definition optional_fields (h : gzipHeader) : list byte :=
  match Extra h with
  | Some b => extra_field b
  | None => []
  end
  ++ match Name h with
     | [] => []
     | _ :: _ => string_field (Name h)
     end
  ++ match Comment h with
     | [] => []
     | _ :: _ => string_field (Comment h)
     end.

(** The whole header of the writer [z]. *)
Definition header_bytes (z : GzipStreamWriter) : list byte :=
  fixed_header z ++ optional_fields (Header z).

(** A rune that Latin-1 cannot hold, or NUL. *)
Definition not_latin1 (v : Z) : bool := (v =? 0) || (0xff <? v).

Definition part_eqb (a b : part) : bool :=
  match a, b with
  | HeaderPart, HeaderPart => true
  | PayloadPart, PayloadPart => true
  | TrailerPart, TrailerPart => true
  | _, _ => false
  end.

(** The bytes that the destination [dst] has accepted in a stretch of the
    trace from writes of one kind. *)
Fixpoint sent (dst : ioWriter) (what : part) (tr : list event) : list byte :=
  match tr with
  | [] => []
  | (io_Write d q p, Done) :: rest =>
      if Nat.eqb d dst && part_eqb q what
      then p ++ sent dst what rest
      else sent dst what rest
  | _ :: rest => sent dst what rest
  end.

(** The call with which [writeHeader] starts. *)
Definition first_write (st : state) : call :=
  io_Write (w (zw st)) HeaderPart (fixed_header (zw st)).

(** [writeHeader] is past the fixed bytes without an error: the
    destination has accepted them and, behind them, [acc]. *)
Definition header_sofar (env : environment) (st : state) (acc : list byte)
    (s : state) : Prop :=
  env (log st) (first_write st) = Done
  /\ zw s = with_err None (setWroteHeader true (zw st))
  /\ exists rest,
       log s = log st ++ (first_write st, Done) :: rest
       /\ sent (w (zw st)) HeaderPart rest = acc.

(** [writeHeader] has returned [r]: its first call is the write of the
    fixed bytes; if that fails, it is the only call and its result is
    returned; if not, 10 is the count returned, and when no error is
    returned the optional fields have been accepted behind the fixed
    bytes. *)
Definition header_exact (env : environment) (st : state)
    (r : Z * option error) (st' : state) : Prop :=
  exists rest,
    log st' = log st ++ (first_write st, env (log st) (first_write st)) :: rest
    /\ match env (log st) (first_write st) with
       | Failed n e => r = (n, Some e) /\ rest = []
       | Done =>
           fst r = 10
           /\ (snd r = None ->
               sent (w (zw st)) HeaderPart rest
               = optional_fields (Header (zw st)))
       end.

(** A header whose extra field is one byte longer than its two-byte
    length prefix can say, and a fresh writer that carries it. *)
Definition header_big_extra : gzipHeader :=
  {| Comment := []; Extra := Some (repeat x00 (Z.to_nat 65536));
     ModTime := zeroTime; Name := []; OS := xff |}.

Definition st_big_extra : state :=
  {| zw := with_Header header_big_extra (zw st_fresh); log := [] |}.

(** The state a header error leaves behind when the fixed bytes went
    through: the flag set, the error latched, one call made. *)
Definition header_refused (st : state) (e : error) : state :=
  {| zw := with_err (Some e) (setWroteHeader true (zw st));
     log := log st ++ [(first_write st, Done)] |}.

(** A header with the three-byte extra field 01 02 03, a fresh writer
    that carries it, and that writer after [writeHeader]. *)
Definition header_small_extra : gzipHeader :=
  {| Comment := []; Extra := Some [x01; x02; x03]; ModTime := zeroTime;
     Name := []; OS := xff |}.

Definition st_small_extra : state :=
  {| zw := with_Header header_small_extra (zw st_fresh); log := [] |}.

Definition st_small_extra_header : state :=
  Eval vm_compute in
    match writeHeader reliable st_small_extra with
    | Some (_, st') => st'
    | None => st_small_extra
    end.

(* ================================================================== *)
(** ** The compressor over the life of a writer *)

Definition is_NewWriter (ev : event) : bool :=
  match ev with
  | (flate_NewWriter _ _, _) => true
  | _ => false
  end.

(** The number of calls of [flate.NewWriter] in a stretch of the trace. *)
Definition count_NewWriter (tr : list event) : nat :=
  List.length (filter is_NewWriter tr).

(** What [Write], [WriteCompressed], [Flush] and [Close] do to the
    configuration of the writer: header fields, level and destination
    stay; the compressor stays, or there was none and it is made, by the
    one call of [flate.NewWriter], for the writer's destination and
    level. *)
Definition compressor_step (st st' : state) : Prop :=
  Header (zw st') = Header (zw st)
  /\ level (zw st') = level (zw st)
  /\ w (zw st') = w (zw st)
  /\ exists tr,
       log st' = log st ++ tr
       /\ ((compressor (zw st') = compressor (zw st)
            /\ count_NewWriter tr = O)
           \/ (compressor (zw st) = None
               /\ compressor (zw st')
                  = Some {| fw_dst := w (zw st); fw_level := level (zw st) |}
               /\ count_NewWriter tr = 1%nat)).

(** The compressor, when there is one, writes to the writer's destination
    at the writer's level. *)
Definition bound (z : GzipStreamWriter) : Prop :=
  forall c, compressor z = Some c ->
            fw_dst c = w z /\ fw_level c = level z.

(** A sequence of calls that goes through every method and most of their
    branches when nothing outside fails: a write that makes the
    compressor, a splice that is accepted (flush, parser, [make], payload
    write), a splice that is rejected, [Flush], [Close], a write after
    [Close], [Reset], a name that the header cannot hold, the [Write]
    that finds it and the [Close] that returns its error. *)
Definition calls_sample : list method :=
  [CallWrite [x41]; CallWriteCompressed blob_bar; CallWriteCompressed [];
   CallFlush; CallClose; CallWrite [x42]; CallReset 2%nat;
   AssignHeader header_bad_name; CallWrite [x43]; CallClose].

(** The writer and the trace after these calls on a fresh writer. *)
Definition st_calls_sample : state :=
  Eval vm_compute in after calls_sample st_fresh.

(* ================================================================== *)
(** ** The header over the calls of a writer *)

(** What a call that writes the header lazily does about it: nothing when
    the header has been written, and when it has not and the call leaves no
    error, the destination has accepted the whole header and the flag is
    set. *)
Definition header_once (st st' : state) : Prop :=
  exists tr,
    log st' = log st ++ tr
    /\ (checkWroteHeader (zw st) = true -> none_of is_header tr)
    /\ (checkWroteHeader (zw st) = false -> err (zw st') = None ->
        sent (w (zw st)) HeaderPart tr = header_bytes (zw st)
        /\ checkWroteHeader (zw st') = true).

(* ################################################################## *)
(** * Properties *)

(* ================================================================== *)
(** ** Bytes, lengths and little-endian words *)

Lemma byte_to_Z_range b : 0 <= byte_to_Z b < 256.
Proof.
  unfold byte_to_Z. pose proof (Byte.to_N_bounded b). lia.
Qed.

Lemma byte_of_to_Z b : byte_of_Z (byte_to_Z b) = b.
Proof.
  unfold byte_of_Z. pose proof (byte_to_Z_range b).
  rewrite Z.mod_small by lia. unfold byte_to_Z.
  rewrite N2Z.id, Byte.of_to_N. reflexivity.
Qed.

Lemma byte_to_of_Z v : byte_to_Z (byte_of_Z v) = v mod 256.
Proof.
  unfold byte_of_Z, byte_to_Z.
  pose proof (Z.mod_pos_bound v 256 ltac:(lia)) as Hr.
  destruct (Byte.of_N (Z.to_N (v mod 256))) as [b|] eqn:E.
  - apply Byte.to_of_N in E. rewrite E. lia.
  - apply Byte.of_N_None_iff in E. lia.
Qed.

Lemma len_app {A} (p q : list A) : len (p ++ q) = len p + len q.
Proof. unfold len. rewrite length_app. lia. Qed.

Lemma len_nonneg {A} (p : list A) : 0 <= len p.
Proof. unfold len. lia. Qed.

Lemma len_repeat {A} (x : A) n : len (repeat x n) = Z.of_nat n.
Proof. unfold len. rewrite repeat_length. reflexivity. Qed.

(** Bitwise xor keeps a word inside its width. *)
Lemma lxor_range n a b :
  0 <= n -> 0 <= a < 2 ^ n -> 0 <= b < 2 ^ n -> 0 <= Z.lxor a b < 2 ^ n.
Proof.
  intros Hn Ha Hb.
  assert (Hnn : 0 <= Z.lxor a b) by (apply Z.lxor_nonneg; lia).
  split; [exact Hnn|].
  assert (Hs : Z.shiftr (Z.lxor a b) n = 0).
  { rewrite Z.shiftr_lxor, !Z.shiftr_div_pow2 by lia.
    rewrite !Z.div_small by lia. reflexivity. }
  rewrite Z.shiftr_div_pow2 in Hs by lia.
  apply Z.div_small_iff in Hs; lia.
Qed.

Lemma lor_range n a b :
  0 <= n -> 0 <= a < 2 ^ n -> 0 <= b < 2 ^ n -> 0 <= Z.lor a b < 2 ^ n.
Proof.
  intros Hn Ha Hb.
  assert (Hnn : 0 <= Z.lor a b) by (apply Z.lor_nonneg; lia).
  split; [exact Hnn|].
  assert (Hs : Z.shiftr (Z.lor a b) n = 0).
  { rewrite Z.shiftr_lor, !Z.shiftr_div_pow2 by lia.
    rewrite !Z.div_small by lia. reflexivity. }
  rewrite Z.shiftr_div_pow2 in Hs by lia.
  apply Z.div_small_iff in Hs; lia.
Qed.

Lemma shiftr_range n k a :
  0 <= k -> 0 <= a < 2 ^ n -> 0 <= Z.shiftr a k < 2 ^ n.
Proof.
  intros Hk Ha. rewrite Z.shiftr_div_pow2 by lia.
  assert (0 < 2 ^ k) by (apply Z.pow_pos_nonneg; lia).
  split.
  - apply Z.div_pos; lia.
  - apply Z.le_lt_trans with a; [|lia].
    apply Z.div_le_upper_bound; nia.
Qed.

Lemma land_low_range a k : 0 <= k -> 0 <= Z.land a (2 ^ k - 1) < 2 ^ k.
Proof.
  intros Hk. replace (2 ^ k - 1) with (Z.ones k)
    by (rewrite Z.ones_equiv; lia).
  rewrite Z.land_ones by lia. apply Z.mod_pos_bound.
  apply Z.pow_pos_nonneg; lia.
Qed.

Lemma not32_involutive x : not32 (not32 x) = x.
Proof.
  unfold not32. rewrite Z.lxor_assoc, Z.lxor_nilpotent, Z.lxor_0_r.
  reflexivity.
Qed.

Lemma not32_range x : 0 <= x < 2 ^ 32 -> 0 <= not32 x < 2 ^ 32.
Proof. intros H. unfold not32. apply lxor_range; lia. Qed.

(* ================================================================== *)
(** ** CRC32 is affine over GF(2) *)

Section CRC32_linearity.

Import crc32.

Lemma land1_odd x : (Z.land x 1 =? 1) = Z.odd x.
Proof.
  change 1 with (Z.ones 1) at 1. rewrite Z.land_ones by lia.
  rewrite Zmod_odd. destruct (Z.odd x); reflexivity.
Qed.

Lemma odd_lxor a b : Z.odd (Z.lxor a b) = xorb (Z.odd a) (Z.odd b).
Proof. rewrite <- !Z.bit0_odd. apply Z.lxor_spec. Qed.

(** Bitwise equalities between xor-combinations. *)
Ltac xor_bits :=
  apply Z.bits_inj'; intros ? ?;
  repeat (rewrite Z.lxor_spec || rewrite Z.land_spec || rewrite Z.bits_0);
  btauto.

Lemma populate_step_lxor poly a b :
  populate_step poly (Z.lxor a b)
  = Z.lxor (populate_step poly a) (populate_step poly b).
Proof.
  unfold populate_step. rewrite !land1_odd, odd_lxor, Z.shiftr_lxor.
  destruct (Z.odd a), (Z.odd b); cbn [xorb]; xor_bits.
Qed.

Lemma populate_entry_lxor poly a b :
  populate_entry poly (Z.lxor a b)
  = Z.lxor (populate_entry poly a) (populate_entry poly b).
Proof.
  unfold populate_entry. cbn [Nat.iter nat_rect].
  rewrite !populate_step_lxor. reflexivity.
Qed.

Lemma IEEETable_nth i :
  0 <= i < 256 ->
  nth (Z.to_nat i) IEEETable 0 = populate_entry IEEE i.
Proof.
  intros Hi.
  change IEEETable with (simpleMakeTable IEEE). unfold simpleMakeTable.
  rewrite nth_indep with (d' := populate_entry IEEE (Z.of_nat 0))
    by (rewrite length_map, length_seq; lia).
  rewrite (map_nth (fun i => populate_entry IEEE (Z.of_nat i))).
  rewrite seq_nth by lia. f_equal. lia.
Qed.

(** The loop body of [simpleUpdate], with the table entry computed. *)
Lemma update_byte_entry crc v :
  update_byte IEEETable crc v
  = Z.lxor (populate_entry IEEE (Z.lxor (Z.land crc 0xff) (byte_to_Z v)))
           (Z.shiftr crc 8).
Proof.
  unfold update_byte. rewrite IEEETable_nth; [reflexivity|].
  apply (lxor_range 8); try lia.
  - apply (land_low_range crc 8). lia.
  - apply byte_to_Z_range.
Qed.

Lemma update_byte_lxor a b v :
  update_byte IEEETable (Z.lxor a b) v
  = Z.lxor (update_byte IEEETable a v) (update_byte IEEETable b x00).
Proof.
  rewrite !update_byte_entry.
  change (byte_to_Z x00) with 0. rewrite Z.lxor_0_r.
  rewrite Z.shiftr_lxor.
  replace (Z.lxor (Z.land (Z.lxor a b) 255) (byte_to_Z v))
    with (Z.lxor (Z.lxor (Z.land a 255) (byte_to_Z v)) (Z.land b 255))
    by xor_bits.
  rewrite populate_entry_lxor. xor_bits.
Qed.

(** Running the loop from [a xor b] over [p] is running it from [a] over
    [p], xor running it from [b] over as many zero bytes. *)
Lemma fold_update_lxor p : forall a b,
  fold_left (update_byte IEEETable) p (Z.lxor a b)
  = Z.lxor (fold_left (update_byte IEEETable) p a)
           (fold_left (update_byte IEEETable)
                      (repeat x00 (List.length p)) b).
Proof.
  induction p as [|v p IH]; intros a b; cbn [fold_left repeat List.length].
  - reflexivity.
  - rewrite update_byte_lxor. apply IH.
Qed.

Lemma update_byte_range crc v :
  0 <= crc < 2 ^ 32 -> 0 <= update_byte IEEETable crc v < 2 ^ 32.
Proof.
  intros Hc. unfold update_byte.
  apply (lxor_range 32); try lia.
  - assert (Hall : Forall (fun t => 0 <= t < 2 ^ 32) IEEETable).
    { apply Forall_forall. intros t Ht.
      assert (Hb : forallb (fun t => (0 <=? t) && (t <? 2 ^ 32)) IEEETable
                   = true) by (vm_compute; reflexivity).
      rewrite forallb_forall in Hb. specialize (Hb t Ht).
      apply andb_prop in Hb. destruct Hb as [H1 H2].
      apply Z.leb_le in H1. apply Z.ltb_lt in H2. lia. }
    rewrite Forall_forall in Hall.
    destruct (nth_in_or_default
                (Z.to_nat (Z.lxor (Z.land crc 255) (byte_to_Z v)))
                IEEETable 0) as [Hin | ->].
    + apply Hall, Hin.
    + lia.
  - apply shiftr_range; lia.
Qed.

Lemma fold_update_range p : forall crc,
  0 <= crc < 2 ^ 32 ->
  0 <= fold_left (update_byte IEEETable) p crc < 2 ^ 32.
Proof.
  induction p as [|v p IH]; intros crc Hc; cbn [fold_left].
  - exact Hc.
  - apply IH, update_byte_range, Hc.
Qed.

Lemma Update_range crc p :
  0 <= crc < 2 ^ 32 -> 0 <= Update crc IEEETable p < 2 ^ 32.
Proof.
  intros Hc. unfold Update, simpleUpdate.
  apply not32_range, fold_update_range, not32_range, Hc.
Qed.

Lemma ChecksumIEEE_range p : 0 <= ChecksumIEEE p < 2 ^ 32.
Proof. apply Update_range. lia. Qed.

(** Updating in two steps is updating by the concatenation. *)
Lemma Update_app crc p q :
  Update (Update crc IEEETable p) IEEETable q
  = Update crc IEEETable (p ++ q).
Proof.
  unfold Update, simpleUpdate.
  rewrite not32_involutive, fold_left_app. reflexivity.
Qed.

(** The combiner, for any front checksum: extend it by [length] zero
    bytes without the pre- and post-inversion, and xor the back. *)
Lemma crc32Combine_eq front back n :
  crc32Combine front back (Z.of_nat n)
  = Some (Z.lxor (fold_left (update_byte IEEETable) (repeat x00 n) front)
                 back).
Proof.
  unfold crc32Combine, make_bytes.
  destruct (Z.of_nat n <? 0) eqn:E; [apply Z.ltb_lt in E; lia|].
  cbn [obind]. rewrite Nat2Z.id.
  unfold Update, simpleUpdate, not32.
  do 2 f_equal.
  replace (Z.lxor (Z.lxor 4294967295 front) 4294967295) with front
    by xor_bits.
  rewrite Z.lxor_assoc, Z.lxor_nilpotent, Z.lxor_0_r. reflexivity.
Qed.

Lemma crc32Combine_Update crc p q :
  crc32Combine (Update crc IEEETable p) (ChecksumIEEE q) (len q)
  = Some (Update crc IEEETable (p ++ q)).
Proof.
  unfold len. rewrite crc32Combine_eq. f_equal.
  rewrite <- Update_app.
  set (c := Update crc IEEETable p).
  unfold ChecksumIEEE, Update, simpleUpdate.
  replace (not32 c) with (Z.lxor (not32 0) c) by (unfold not32; xor_bits).
  rewrite fold_update_lxor. unfold not32. xor_bits.
Qed.

End CRC32_linearity.

(** C2.  For all byte strings X and Y, [crc32Combine] applied to the CRC32
    of X, the CRC32 of Y and the length of Y returns the CRC32 of X
    followed by Y, where CRC32 is the IEEE checksum of the table-driven
    point update with its pre- and post-inversion. *)
Theorem crc32Combine_concat (X Y : list byte) :
  crc32Combine (crc32.ChecksumIEEE X) (crc32.ChecksumIEEE Y) (len Y)
  = Some (crc32.ChecksumIEEE (X ++ Y)).
Proof.
  unfold crc32.ChecksumIEEE at 1 3. apply crc32Combine_Update.
Qed.

(** On the 64-bit [int] of the model the conversion keeps every value of
    the signed 64-bit range, every [uint32] among them. *)
Lemma int_small v : - 2 ^ 63 <= v < 2 ^ 63 -> int v = v.
Proof.
  intros H. unfold int, intSize. change (64 - 1) with 63.
  rewrite Z.mod_small; lia.
Qed.

Lemma int_uint32 v : 0 <= v < 2 ^ 32 -> int v = v.
Proof. intros H. apply int_small. lia. Qed.

(* ================================================================== *)
(** ** Slices and indices stay in bounds *)

Lemma index_Some {A} (s : list A) i :
  0 <= i < len s -> exists x, index s i = Some x.
Proof.
  intros Hi. unfold index.
  destruct (0 <=? i) eqn:E1; [|apply Z.leb_gt in E1; lia].
  destruct (i <? len s) eqn:E2; [|apply Z.ltb_ge in E2; lia].
  cbn [andb].
  destruct (nth_error s (Z.to_nat i)) as [x|] eqn:E; [eauto|].
  apply nth_error_None in E. unfold len in Hi. lia.
Qed.

Lemma slice_Some {A} (s : list A) lo hi :
  0 <= lo <= hi -> hi <= len s ->
  slice s lo hi = Some (firstn (Z.to_nat (hi - lo)) (skipn (Z.to_nat lo) s)).
Proof.
  intros H1 H2. unfold slice.
  destruct (0 <=? lo) eqn:E1; [|apply Z.leb_gt in E1; lia].
  destruct (lo <=? hi) eqn:E2; [|apply Z.leb_gt in E2; lia].
  destruct (hi <=? len s) eqn:E3; [|apply Z.leb_gt in E3; lia].
  reflexivity.
Qed.

Lemma slice_inv {A} (s : list A) lo hi t :
  slice s lo hi = Some t ->
  0 <= lo <= hi /\ hi <= len s
  /\ t = firstn (Z.to_nat (hi - lo)) (skipn (Z.to_nat lo) s).
Proof.
  unfold slice.
  destruct (0 <=? lo) eqn:E1; [|discriminate].
  destruct (lo <=? hi) eqn:E2; [|discriminate].
  destruct (hi <=? len s) eqn:E3; [|discriminate].
  cbn [andb]. intros [= <-].
  apply Z.leb_le in E1, E2, E3. auto with zarith.
Qed.

Lemma len_slice {A} (s : list A) lo hi :
  0 <= lo <= hi -> hi <= len s ->
  len (firstn (Z.to_nat (hi - lo)) (skipn (Z.to_nat lo) s)) = hi - lo.
Proof.
  intros H1 H2. unfold len in *.
  rewrite length_firstn, length_skipn. lia.
Qed.

Lemma Uint16_Some (b : list byte) :
  2 <= len b -> exists v, binary.Uint16 b = Some v /\ 0 <= v < 2 ^ 16.
Proof.
  intros Hb. unfold binary.Uint16.
  destruct (index_Some b 1 ltac:(lia)) as [b1 ->].
  destruct (index_Some b 0 ltac:(lia)) as [b0 ->].
  cbn [obind]. eexists; split; [reflexivity|].
  pose proof (byte_to_Z_range b0). pose proof (byte_to_Z_range b1).
  apply (lor_range 16); try lia.
  rewrite Z.shiftl_mul_pow2 by lia. lia.
Qed.

Lemma Uint32_Some (b : list byte) :
  4 <= len b -> exists v, binary.Uint32 b = Some v /\ 0 <= v < 2 ^ 32.
Proof.
  intros Hb. unfold binary.Uint32.
  destruct (index_Some b 3 ltac:(lia)) as [b3 ->].
  destruct (index_Some b 0 ltac:(lia)) as [b0 ->].
  destruct (index_Some b 1 ltac:(lia)) as [b1 ->].
  destruct (index_Some b 2 ltac:(lia)) as [b2 ->].
  cbn [obind]. eexists; split; [reflexivity|].
  pose proof (byte_to_Z_range b0). pose proof (byte_to_Z_range b1).
  pose proof (byte_to_Z_range b2). pose proof (byte_to_Z_range b3).
  repeat apply (lor_range 32); try lia;
    rewrite Z.shiftl_mul_pow2 by lia; lia.
Qed.

Lemma IndexByte_from_range b c : forall i,
  bytes.IndexByte_from b c i = -1
  \/ i <= bytes.IndexByte_from b c i < i + len b.
Proof.
  induction b as [|x b IH]; intros i; cbn [bytes.IndexByte_from].
  - left. reflexivity.
  - unfold len in *. cbn [List.length].
    destruct (Byte.eqb x c); [right; lia|].
    destruct (IH (i + 1)) as [-> | H]; [left; reflexivity | right; lia].
Qed.

(** Where [IndexByte] points, there is the byte. *)
Lemma IndexByte_from_hit b c : forall i,
  0 <= i -> 0 <= bytes.IndexByte_from b c i ->
  nth_error b (Z.to_nat (bytes.IndexByte_from b c i - i)) = Some c.
Proof.
  induction b as [|x b IH]; intros i Hi; cbn [bytes.IndexByte_from].
  - lia.
  - destruct (Byte.eqb x c) eqn:E.
    + intros _. rewrite Z.sub_diag. cbn.
      apply Byte.byte_dec_bl in E. congruence.
    + intros H.
      destruct (IndexByte_from_range b c (i + 1)) as [Hm | Hr];
        [rewrite Hm in H; lia|].
      specialize (IH (i + 1) ltac:(lia) ltac:(lia)).
      replace (Z.to_nat (bytes.IndexByte_from b c (i + 1) - i))
        with (S (Z.to_nat (bytes.IndexByte_from b c (i + 1) - (i + 1))))
        by lia.
      exact IH.
Qed.

(* ================================================================== *)
(** ** The blob parser never leaves the blob *)

Section Parser.

Variable gzBlob : list byte.

Local Abbreviation header_length_ok := (header_length_ok gzBlob).
Local Abbreviation continues := (continues gzBlob).

Lemma return_minus_one :
  exists r, Some (-1) = Some r /\ header_length_ok r.
Proof. exists (-1). split; [reflexivity | left; reflexivity]. Qed.

Lemma scanExtra_ok flag k :
  continues k -> continues (fun h => scanExtra gzBlob flag h k).
Proof.
  intros Hk h Hh. unfold scanExtra.
  destruct (negb (Z.land flag flagExtra =? 0)); [|apply Hk, Hh].
  destruct (len gzBlob <? h + 2) eqn:E1; [apply return_minus_one|].
  apply Z.ltb_ge in E1.
  rewrite slice_Some by lia. cbn [obind].
  destruct (Uint16_Some
              (firstn (Z.to_nat (12 - 10)) (skipn (Z.to_nat 10) gzBlob)))
    as (x & -> & Hx).
  { rewrite len_slice; lia. }
  cbn [obind].
  destruct (len gzBlob <? h + 2 + x) eqn:E2; [apply return_minus_one|].
  apply Z.ltb_ge in E2. apply Hk. lia.
Qed.

Lemma scan_to_NUL_ok h k :
  continues k -> 10 <= h <= len gzBlob ->
  exists r,
    (s <- slice_from gzBlob h ;;
     let endField := bytes.IndexByte s x00 in
     if endField <? 0 then Some (-1) else
     let headerLen := h + endField in
     if len gzBlob <? headerLen then Some (-1) else
     k headerLen)%panic = Some r
    /\ header_length_ok r.
Proof.
  intros Hk Hh. unfold slice_from.
  rewrite slice_Some by lia. cbn [obind].
  set (s := firstn _ _).
  assert (Hs : len s = len gzBlob - h) by (apply len_slice; lia).
  unfold bytes.IndexByte.
  destruct (IndexByte_from_range s x00 0) as [-> | Hr].
  - cbn. apply return_minus_one.
  - cbv zeta.
    destruct (bytes.IndexByte_from s x00 0 <? 0) eqn:E1;
      [apply return_minus_one|].
    destruct (len gzBlob <? h + bytes.IndexByte_from s x00 0) eqn:E2;
      [apply return_minus_one|].
    apply Hk. lia.
Qed.

Lemma scanName_ok flag k :
  continues k -> continues (fun h => scanName gzBlob flag h k).
Proof.
  intros Hk h Hh. unfold scanName.
  destruct (negb (Z.land flag flagName =? 0)); [|apply Hk, Hh].
  apply scan_to_NUL_ok; assumption.
Qed.

Lemma scanComment_ok flag k :
  continues k -> continues (fun h => scanComment gzBlob flag h k).
Proof.
  intros Hk h Hh. unfold scanComment.
  destruct (negb (Z.land flag flagComment =? 0)); [|apply Hk, Hh].
  apply scan_to_NUL_ok; assumption.
Qed.

Lemma scanHdrCrc_ok flag k :
  continues k -> continues (fun h => scanHdrCrc gzBlob flag h k).
Proof.
  intros Hk h Hh. unfold scanHdrCrc.
  destruct (negb (Z.land flag flagHdrCrc =? 0)); [|apply Hk, Hh].
  destruct (len gzBlob <? h + 2) eqn:E1; [apply return_minus_one|].
  apply Z.ltb_ge in E1. apply Hk. lia.
Qed.

(** [getHeaderLength] returns, with -1 or an offset inside the blob. *)
Lemma getHeaderLength_total :
  exists h, getHeaderLength gzBlob = Some h /\ header_length_ok h.
Proof.
  unfold getHeaderLength.
  destruct (len gzBlob <? 10) eqn:E; [apply return_minus_one|].
  apply Z.ltb_ge in E.
  destruct (index_Some gzBlob 0 ltac:(lia)) as [b0 ->].
  destruct (index_Some gzBlob 1 ltac:(lia)) as [b1 ->].
  destruct (index_Some gzBlob 2 ltac:(lia)) as [b2 ->].
  cbn [obind].
  destruct (_ || _); [apply return_minus_one|].
  destruct (index_Some gzBlob 3 ltac:(lia)) as [b3 ->].
  cbn [obind].
  apply scanExtra_ok; [|lia].
  apply scanName_ok, scanComment_ok, scanHdrCrc_ok.
  intros h Hh. exists h. split; [reflexivity | right; exact Hh].
Qed.


(** [getDeflateSlice] returns; when it says ok, the payload is the part
    of the blob from the header length to eight bytes before the end. *)
Lemma getDeflateSlice_total :
  exists content ok,
    getDeflateSlice gzBlob = Some (content, ok)
    /\ (ok = false -> content = [])
    /\ (ok = true ->
        exists h, getHeaderLength gzBlob = Some h
                  /\ 10 <= h <= len gzBlob - 8
                  /\ content = firstn (Z.to_nat (len gzBlob - 8 - h))
                                      (skipn (Z.to_nat h) gzBlob)).
Proof.
  unfold getDeflateSlice.
  destruct getHeaderLength_total as (h & Hh & Hok). rewrite Hh.
  cbn [obind].
  destruct (h <? 0) eqn:E1.
  { exists [], false. repeat split; [discriminate]. }
  apply Z.ltb_ge in E1.
  destruct (len gzBlob <? h + 8) eqn:E2.
  { exists [], false. repeat split; [discriminate]. }
  apply Z.ltb_ge in E2.
  destruct Hok as [-> | Hok]; [lia|].
  rewrite slice_Some by lia. cbn [obind].
  eexists _, true. split; [reflexivity|]. split; [discriminate|].
  intros _. exists h. repeat split; lia.
Qed.

End Parser.

(** The two trailer reads of [WriteCompressed] behind its length check. *)
Lemma trailer_reads_in_bounds (p : list byte) :
  18 <= len p ->
  exists s1 c s2 n,
    slice p (len p - 8) (len p - 4) = Some s1
    /\ binary.Uint32 s1 = Some c /\ 0 <= c < 2 ^ 32
    /\ slice_from p (len p - 4) = Some s2
    /\ binary.Uint32 s2 = Some n /\ 0 <= n < 2 ^ 32.
Proof.
  intros Hp. unfold slice_from.
  rewrite !slice_Some by lia.
  destruct (Uint32_Some (firstn (Z.to_nat (len p - 4 - (len p - 8)))
                                (skipn (Z.to_nat (len p - 8)) p)))
    as (c & Hc & Hcr); [rewrite len_slice; lia|].
  destruct (Uint32_Some (firstn (Z.to_nat (len p - (len p - 4)))
                                (skipn (Z.to_nat (len p - 4)) p)))
    as (n & Hn & Hnr); [rewrite len_slice; lia|].
  eauto 10.
Qed.

(* ================================================================== *)
(** ** The name and comment fields: where the header length stops *)

(** C3, evaluated.  On a gzip member whose header names the file "a", the
    parser returns the offset of the NUL that ends the name, 11, and not
    the offset after it: the payload slice starts with that NUL. *)
Theorem getDeflateSlice_keeps_name_terminator :
  getHeaderLength blob_named_a = Some 11
  /\ index blob_named_a 11 = Some x00
  /\ getDeflateSlice blob_named_a = Some ([x00; x03; x00], true)
  /\ getDeflateSlice blob_empty = Some ([x03; x00], true).
Proof. repeat split; reflexivity. Qed.

(** The same in general: with FNAME as the only optional field, a header
    length that [getHeaderLength] returns is the offset of a NUL byte. *)
Lemma getHeaderLength_stops_at_NUL (gzBlob : list byte) (b3 : byte) (h : Z) :
  index gzBlob 3 = Some b3 ->
  Z.land (byte_to_Z b3) flagExtra = 0 ->
  Z.land (byte_to_Z b3) flagName <> 0 ->
  Z.land (byte_to_Z b3) flagComment = 0 ->
  Z.land (byte_to_Z b3) flagHdrCrc = 0 ->
  getHeaderLength gzBlob = Some h -> 0 <= h ->
  index gzBlob h = Some x00.
Proof.
  intros H3 HE HN HC HH. unfold getHeaderLength.
  destruct (len gzBlob <? 10) eqn:E; [intros [= <-]; lia|].
  apply Z.ltb_ge in E.
  destruct (index gzBlob 0) as [b0|]; [|discriminate].
  destruct (index gzBlob 1) as [b1|]; [|discriminate].
  destruct (index gzBlob 2) as [b2|]; [|discriminate].
  cbn [obind].
  destruct (_ || _); [intros [= <-]; lia|].
  rewrite H3. cbn [obind].
  unfold scanExtra, scanName, scanComment, scanHdrCrc.
  rewrite HE, HC, HH.
  apply Z.eqb_neq in HN. rewrite HN, !Z.eqb_refl. cbn [negb].
  unfold slice_from. rewrite slice_Some by lia. cbn [obind].
  rewrite firstn_all2 by (rewrite length_skipn; unfold len in *; lia).
  set (s := skipn _ _).
  unfold bytes.IndexByte.
  destruct (bytes.IndexByte_from s x00 0 <? 0) eqn:E1;
    [intros [= <-]; lia|].
  apply Z.ltb_ge in E1.
  destruct (len gzBlob <? 10 + bytes.IndexByte_from s x00 0) eqn:E2;
    [intros [= <-]; lia|].
  apply Z.ltb_ge in E2.
  intros Heq _.
  assert (Hh : h = 10 + bytes.IndexByte_from s x00 0) by congruence.
  subst h. clear Heq.
  pose proof (IndexByte_from_hit s x00 0 ltac:(lia) E1) as Hhit.
  rewrite Z.sub_0_r in Hhit.
  destruct (IndexByte_from_range s x00 0) as [Hm | Hr]; [lia|].
  assert (Hs : len s = len gzBlob - 10)
    by (subst s; unfold len in *; rewrite length_skipn; lia).
  unfold index.
  destruct (0 <=? 10 + bytes.IndexByte_from s x00 0) eqn:E3;
    [|apply Z.leb_gt in E3; lia].
  destruct (10 + bytes.IndexByte_from s x00 0 <? len gzBlob) eqn:E4;
    [|apply Z.ltb_ge in E4; lia].
  cbn [andb].
  subst s. rewrite nth_error_skipn in Hhit.
  rewrite <- Hhit. f_equal. lia.
Qed.

(* ================================================================== *)
(** ** The three state flags are independent bits *)

Lemma land_bit f k :
  0 <= k -> Z.land f (2 ^ k) = if Z.testbit f k then 2 ^ k else 0.
Proof.
  intros Hk. apply Z.bits_inj'. intros i Hi.
  rewrite Z.land_spec, Z.pow2_bits_eqb by lia.
  destruct (Z.eqb_spec k i) as [<- | Hne].
  - destruct (Z.testbit f k); cbn [andb].
    + rewrite Z.pow2_bits_eqb, Z.eqb_refl by lia. reflexivity.
    + rewrite Z.bits_0. reflexivity.
  - rewrite andb_false_r.
    destruct (Z.testbit f k).
    + rewrite Z.pow2_bits_eqb by lia.
      symmetry. apply Z.eqb_neq. exact Hne.
    + rewrite Z.bits_0. reflexivity.
Qed.

Lemma checkWroteHeader_bit z :
  checkWroteHeader z = Z.testbit (stateFlags z) 0.
Proof.
  unfold checkWroteHeader. cbv zeta.
  rewrite (land_bit _ 0) by lia.
  destruct (Z.testbit (stateFlags z) 0); reflexivity.
Qed.

Lemma checkClosed_bit z : checkClosed z = Z.testbit (stateFlags z) 1.
Proof.
  unfold checkClosed. cbv zeta.
  rewrite (land_bit _ 1) by lia.
  destruct (Z.testbit (stateFlags z) 1); reflexivity.
Qed.

Lemma checkActiveDeflateStream_bit z :
  checkActiveDeflateStream z = Z.testbit (stateFlags z) 2.
Proof.
  unfold checkActiveDeflateStream. cbv zeta.
  rewrite (land_bit _ 2) by lia.
  destruct (Z.testbit (stateFlags z) 2); reflexivity.
Qed.

(** One bit of the flags after a setter. *)
Ltac flag_bit :=
  intros;
  rewrite ?checkWroteHeader_bit, ?checkClosed_bit,
    ?checkActiveDeflateStream_bit;
  unfold setWroteHeader, setClosed, setActiveDeflateStream, with_stateFlags;
  cbn [stateFlags];
  rewrite Z.lor_spec, Z.land_spec;
  match goal with
  | v : bool |- _ => destruct v
  | _ => idtac
  end;
  match goal with
  | |- context [Z.testbit (stateFlags ?z) ?i] =>
      destruct (Z.testbit (stateFlags z) i)
  end; reflexivity.

Lemma wroteHeader_setWroteHeader v z :
  checkWroteHeader (setWroteHeader v z) = v.
Proof. flag_bit. Qed.
Lemma closed_setWroteHeader v z :
  checkClosed (setWroteHeader v z) = checkClosed z.
Proof. flag_bit. Qed.
Lemma active_setWroteHeader v z :
  checkActiveDeflateStream (setWroteHeader v z) = checkActiveDeflateStream z.
Proof. flag_bit. Qed.

Lemma wroteHeader_setClosed v z :
  checkWroteHeader (setClosed v z) = checkWroteHeader z.
Proof. flag_bit. Qed.
Lemma closed_setClosed v z : checkClosed (setClosed v z) = v.
Proof. flag_bit. Qed.
Lemma active_setClosed v z :
  checkActiveDeflateStream (setClosed v z) = checkActiveDeflateStream z.
Proof. flag_bit. Qed.

Lemma wroteHeader_setActive v z :
  checkWroteHeader (setActiveDeflateStream v z) = checkWroteHeader z.
Proof. flag_bit. Qed.
Lemma closed_setActive v z :
  checkClosed (setActiveDeflateStream v z) = checkClosed z.
Proof. flag_bit. Qed.
Lemma active_setActive v z :
  checkActiveDeflateStream (setActiveDeflateStream v z) = v.
Proof. flag_bit. Qed.

Create Rewrite HintDb flags.
#[export] Hint Rewrite
  wroteHeader_setWroteHeader closed_setWroteHeader active_setWroteHeader
  wroteHeader_setClosed closed_setClosed active_setClosed
  wroteHeader_setActive closed_setActive active_setActive : flags.

(** The setters touch nothing but the flags. *)
Lemma Header_of_setWroteHeader v z : Header (setWroteHeader v z) = Header z.
Proof. reflexivity. Qed.

Lemma w_of_setWroteHeader v z : w (setWroteHeader v z) = w z.
Proof. reflexivity. Qed.

Lemma compressor_of_setWroteHeader v z :
  compressor (setWroteHeader v z) = compressor z.
Proof. reflexivity. Qed.

Lemma level_of_setWroteHeader v z : level (setWroteHeader v z) = level z.
Proof. reflexivity. Qed.

Lemma err_of_setWroteHeader v z : err (setWroteHeader v z) = err z.
Proof. reflexivity. Qed.

Lemma digest_of_setWroteHeader v z : digest (setWroteHeader v z) = digest z.
Proof. reflexivity. Qed.

Lemma size_of_setWroteHeader v z : size (setWroteHeader v z) = size z.
Proof. reflexivity. Qed.

Lemma Header_of_setClosed v z : Header (setClosed v z) = Header z.
Proof. reflexivity. Qed.

Lemma w_of_setClosed v z : w (setClosed v z) = w z.
Proof. reflexivity. Qed.

Lemma compressor_of_setClosed v z : compressor (setClosed v z) = compressor z.
Proof. reflexivity. Qed.

Lemma level_of_setClosed v z : level (setClosed v z) = level z.
Proof. reflexivity. Qed.

Lemma err_of_setClosed v z : err (setClosed v z) = err z.
Proof. reflexivity. Qed.

Lemma digest_of_setClosed v z : digest (setClosed v z) = digest z.
Proof. reflexivity. Qed.

Lemma size_of_setClosed v z : size (setClosed v z) = size z.
Proof. reflexivity. Qed.

Lemma Header_of_setActiveDeflateStream v z :
  Header (setActiveDeflateStream v z) = Header z.
Proof. reflexivity. Qed.

Lemma w_of_setActiveDeflateStream v z : w (setActiveDeflateStream v z) = w z.
Proof. reflexivity. Qed.

Lemma compressor_of_setActiveDeflateStream v z :
  compressor (setActiveDeflateStream v z) = compressor z.
Proof. reflexivity. Qed.

Lemma level_of_setActiveDeflateStream v z :
  level (setActiveDeflateStream v z) = level z.
Proof. reflexivity. Qed.

Lemma err_of_setActiveDeflateStream v z :
  err (setActiveDeflateStream v z) = err z.
Proof. reflexivity. Qed.

Lemma digest_of_setActiveDeflateStream v z :
  digest (setActiveDeflateStream v z) = digest z.
Proof. reflexivity. Qed.

Lemma size_of_setActiveDeflateStream v z :
  size (setActiveDeflateStream v z) = size z.
Proof. reflexivity. Qed.

#[export] Hint Rewrite
  Header_of_setWroteHeader
  w_of_setWroteHeader
  compressor_of_setWroteHeader
  level_of_setWroteHeader
  err_of_setWroteHeader
  digest_of_setWroteHeader
  size_of_setWroteHeader
  Header_of_setClosed
  w_of_setClosed
  compressor_of_setClosed
  level_of_setClosed
  err_of_setClosed
  digest_of_setClosed
  size_of_setClosed
  Header_of_setActiveDeflateStream
  w_of_setActiveDeflateStream
  compressor_of_setActiveDeflateStream
  level_of_setActiveDeflateStream
  err_of_setActiveDeflateStream
  digest_of_setActiveDeflateStream
  size_of_setActiveDeflateStream : flags.

(** Updating another field leaves the flags alone. *)
Lemma checkWroteHeader_with_err e z :
  checkWroteHeader (with_err e z) = checkWroteHeader z.
Proof. reflexivity. Qed.

Lemma checkWroteHeader_with_compressor c z :
  checkWroteHeader (with_compressor c z) = checkWroteHeader z.
Proof. reflexivity. Qed.

Lemma checkWroteHeader_with_digest d z :
  checkWroteHeader (with_digest d z) = checkWroteHeader z.
Proof. reflexivity. Qed.

Lemma checkWroteHeader_with_size n z :
  checkWroteHeader (with_size n z) = checkWroteHeader z.
Proof. reflexivity. Qed.

Lemma checkWroteHeader_with_Header h z :
  checkWroteHeader (with_Header h z) = checkWroteHeader z.
Proof. reflexivity. Qed.

Lemma checkClosed_with_err e z : checkClosed (with_err e z) = checkClosed z.
Proof. reflexivity. Qed.

Lemma checkClosed_with_compressor c z :
  checkClosed (with_compressor c z) = checkClosed z.
Proof. reflexivity. Qed.

Lemma checkClosed_with_digest d z :
  checkClosed (with_digest d z) = checkClosed z.
Proof. reflexivity. Qed.

Lemma checkClosed_with_size n z : checkClosed (with_size n z) = checkClosed z.
Proof. reflexivity. Qed.

Lemma checkClosed_with_Header h z :
  checkClosed (with_Header h z) = checkClosed z.
Proof. reflexivity. Qed.

Lemma checkActiveDeflateStream_with_err e z :
  checkActiveDeflateStream (with_err e z) = checkActiveDeflateStream z.
Proof. reflexivity. Qed.

Lemma checkActiveDeflateStream_with_compressor c z :
  checkActiveDeflateStream (with_compressor c z) = checkActiveDeflateStream z.
Proof. reflexivity. Qed.

Lemma checkActiveDeflateStream_with_digest d z :
  checkActiveDeflateStream (with_digest d z) = checkActiveDeflateStream z.
Proof. reflexivity. Qed.

Lemma checkActiveDeflateStream_with_size n z :
  checkActiveDeflateStream (with_size n z) = checkActiveDeflateStream z.
Proof. reflexivity. Qed.

Lemma checkActiveDeflateStream_with_Header h z :
  checkActiveDeflateStream (with_Header h z) = checkActiveDeflateStream z.
Proof. reflexivity. Qed.

#[export] Hint Rewrite
  checkWroteHeader_with_err
  checkWroteHeader_with_compressor
  checkWroteHeader_with_digest
  checkWroteHeader_with_size
  checkWroteHeader_with_Header
  checkClosed_with_err
  checkClosed_with_compressor
  checkClosed_with_digest
  checkClosed_with_size
  checkClosed_with_Header
  checkActiveDeflateStream_with_err
  checkActiveDeflateStream_with_compressor
  checkActiveDeflateStream_with_digest
  checkActiveDeflateStream_with_size
  checkActiveDeflateStream_with_Header : flags.

(* ================================================================== *)
(** ** Reasoning about code in [M] *)

Lemma post_ret {A} (a : A) st (Q : A -> state -> Prop) :
  Q a st -> post (ret a) st Q.
Proof. intros H. exists a, st. split; [reflexivity | exact H]. Qed.

Lemma post_bind {A B} (m : M A) (f : A -> M B) st (Q : B -> state -> Prop) :
  post m st (fun a st1 => post (f a) st1 Q) -> post (bind m f) st Q.
Proof.
  intros (a & st1 & Hm & b & st2 & Hf & HQ).
  exists b, st2. unfold bind. rewrite Hm. split; assumption.
Qed.

Lemma post_weaken {A} (m : M A) st (Q Q' : A -> state -> Prop) :
  post m st Q -> (forall a st', Q a st' -> Q' a st') -> post m st Q'.
Proof. intros (a & st' & Hm & HQ) H. exists a, st'. auto. Qed.

Lemma post_elim {A} (m : M A) st (Q : A -> state -> Prop) a st' :
  post m st Q -> m st = Some (a, st') -> Q a st'.
Proof. intros (a0 & st0 & Hm & HQ) H. congruence. Qed.

Lemma post_intro {A} (m : M A) st a st' :
  m st = Some (a, st') -> post m st (fun a0 st0 => a0 = a /\ st0 = st').
Proof. intros H. exists a, st'. auto. Qed.

Lemma post_get st (Q : GzipStreamWriter -> state -> Prop) :
  Q (zw st) st -> post get st Q.
Proof. intros H. exists (zw st), st. split; [reflexivity | exact H]. Qed.

Lemma post_modify f st (Q : unit -> state -> Prop) :
  Q tt {| zw := f (zw st); log := log st |} -> post (modify f) st Q.
Proof. intros H. eexists _, _. split; [reflexivity | exact H]. Qed.

Lemma post_lift {A} (o : option A) a st (Q : A -> state -> Prop) :
  o = Some a -> Q a st -> post (lift o) st Q.
Proof.
  intros -> H. exists a, st. split; [reflexivity | exact H].
Qed.

Lemma post_extcall env c st (Q : response -> state -> Prop) :
  Q (env (log st) c)
    {| zw := zw st; log := log st ++ [(c, env (log st) c)] |} ->
  post (extcall env c) st Q.
Proof. intros H. eexists _, _. split; [reflexivity | exact H]. Qed.

Lemma post_note c st (Q : unit -> state -> Prop) :
  Q tt {| zw := zw st; log := log st ++ [(c, Done)] |} ->
  post (note c) st Q.
Proof. intros H. eexists _, _. split; [reflexivity | exact H]. Qed.

(** Walk through straight-line code in [M]. *)
Ltac mstep :=
  match goal with
  | |- post (bind _ _) _ _ => apply post_bind
  | |- post (ret _) _ _ => apply post_ret
  | |- post get _ _ => apply post_get
  | |- post (modify _) _ _ => apply post_modify
  | |- post (extcall _ _) _ _ => apply post_extcall
  | |- post (note _) _ _ => apply post_note
  end; cbv beta.

Ltac msteps := repeat mstep.

Lemma header_only_app tr1 tr2 :
  header_only tr1 -> header_only tr2 -> header_only (tr1 ++ tr2).
Proof.
  unfold header_only. intros H1 H2. rewrite forallb_app, H1, H2.
  reflexivity.
Qed.

Section Header.

Variable env : environment.

Lemma w_Write_eq what p st :
  w_Write env what p st
  = Some (write_result p (env (log st) (io_Write (w (zw st)) what p)),
          {| zw := zw st;
             log := log st
                    ++ [(io_Write (w (zw st)) what p,
                         env (log st) (io_Write (w (zw st)) what p))] |}).
Proof. reflexivity. Qed.

Lemma post_w_Write_header p st (Q : Z * option error -> state -> Prop) :
  (forall r st', zw st' = zw st ->
                 (exists tr, log st' = log st ++ tr /\ header_only tr) ->
                 Q r st') ->
  post (w_Write env HeaderPart p) st Q.
Proof.
  intros H. eexists _, _. split; [apply w_Write_eq|].
  apply H; [reflexivity|]. eexists. split; [reflexivity|]. reflexivity.
Qed.

Lemma writeHeaderBytes_spec b st :
  post (writeHeaderBytes env b) st (header_field_post st).
Proof.
  unfold writeHeaderBytes.
  destruct (0xffff <? len b).
  { mstep. split; [reflexivity|]. exists []. rewrite app_nil_r.
    split; reflexivity. }
  mstep. apply post_w_Write_header.
  intros [n1 e1] st1 Hz1 (tr1 & Hl1 & Ht1).
  destruct e1 as [e1|].
  { mstep. split; [exact Hz1|]. eauto. }
  mstep. apply post_w_Write_header.
  intros [n2 e2] st2 Hz2 (tr2 & Hl2 & Ht2).
  assert (Hpost : header_field_post st None st2).
  { split; [congruence|]. exists (tr1 ++ tr2).
    rewrite Hl2, Hl1, app_assoc.
    split; [reflexivity | apply header_only_app; assumption]. }
  destruct e2; mstep; exact Hpost.
Qed.

Lemma writeHeaderString_spec s st :
  post (writeHeaderString env s) st (header_field_post st).
Proof.
  unfold writeHeaderString.
  destruct (existsb _ s).
  { mstep. split; [reflexivity|]. exists []. rewrite app_nil_r.
    split; reflexivity. }
  cbv zeta.
  destruct (existsb _ s); mstep; apply post_w_Write_header;
    intros [n1 e1] st1 Hz1 (tr1 & Hl1 & Ht1);
    (destruct e1 as [e1|];
     [mstep; split; [exact Hz1 | eauto]|]);
    mstep; apply post_w_Write_header;
    intros [n2 e2] st2 Hz2 (tr2 & Hl2 & Ht2);
    (assert (Hpost : header_field_post st None st2)
      by (split; [congruence|]; exists (tr1 ++ tr2);
          rewrite Hl2, Hl1, app_assoc;
          split; [reflexivity | apply header_only_app; assumption]));
    destruct e2; mstep; exact Hpost.
Qed.

End Header.

(* ================================================================== *)
(** ** What [writeHeader] does *)

Section WriteHeader.

Variable env : environment.

(** A failure on the way ends [writeHeader] with the compressor as it
    was. *)
Lemma header_progress_failed st e st' n :
  header_progress st (Some e) st' -> header_post st (n, Some e) st'.
Proof.
  intros (Hz & buf & resp & hdr & Hl & Hb & Hh & _).
  exists (compressor (zw st)), buf, resp, hdr, [].
  rewrite app_nil_r. cbn [snd].
  split; [|split; [exact Hl|split; [exact Hb|split; [exact Hh|]]]].
  - rewrite Hz. destruct st as [[] ?]. reflexivity.
  - unfold compressor_after. destruct (compressor (zw st)); auto.
Qed.

(** One optional field more. *)
Lemma header_progress_field st st1 e st2 :
  header_progress st None st1 ->
  header_field_post st1 e st2 ->
  header_progress st e {| zw := with_err e (zw st2); log := log st2 |}.
Proof.
  intros (Hz & buf & resp & hdr & Hl & Hb & Hh & Hr) (Hz2 & tr & Hl2 & Ht).
  split.
  - cbn [zw]. rewrite Hz2, Hz. reflexivity.
  - exists buf, resp, (hdr ++ tr). cbn [log].
    rewrite Hl2, Hl, <- app_assoc. cbn [app].
    repeat split; auto using header_only_app.
Qed.

Lemma post_w_Write what p st (Q : Z * option error -> state -> Prop) :
  Q (write_result p (env (log st) (io_Write (w (zw st)) what p)))
    {| zw := zw st;
       log := log st
              ++ [(io_Write (w (zw st)) what p,
                   env (log st) (io_Write (w (zw st)) what p))] |} ->
  post (w_Write env what p) st Q.
Proof. intros H. eexists _, _. split; [apply w_Write_eq | exact H]. Qed.

(** The block for one optional field, and the early return behind it. *)
Lemma header_stage st st1 (blk : M (option error)) (K : M (Z * option error))
    (n : Z) :
  header_progress st None st1 ->
  (blk = ret None
   \/ exists fw, blk = (e <- fw ;; modify (with_err e) ;; ret e)%writer
                 /\ forall s, post fw s (header_field_post s)) ->
  (forall st2, header_progress st None st2 -> post K st2 (header_post st)) ->
  post (e <- blk ;;
        match e with
        | Some _ => ret (n, e)
        | None => K
        end)%writer st1 (header_post st).
Proof.
  intros Hp [-> | (fw & -> & Hfw)] HK.
  - msteps. apply HK, Hp.
  - mstep. mstep. eapply post_weaken; [apply Hfw|].
    cbv beta. intros e st2 Hf. msteps.
    pose proof (header_progress_field _ _ _ _ Hp Hf) as Hp2.
    destruct e as [e|].
    + mstep. apply header_progress_failed, Hp2.
    + apply HK, Hp2.
Qed.

Lemma header_finish st st2 n :
  header_progress st None st2 ->
  post (z <- get ;;
        match compressor z with
        | None =>
            note (flate_NewWriter (w z) (level z)) ;;
            modify (with_compressor
                      (if (level z <? -2) || (9 <? level z) then None
                       else Some {| fw_dst := w z; fw_level := level z |}))
        | Some _ => ret tt
        end ;;
        z <- get ;;
        ret (n, err z))%writer st2 (header_post st).
Proof.
  intros (Hz & buf & resp & hdr & Hl & Hb & Hh & Hr).
  msteps. rewrite Hz.
  destruct st as [z tr]. destruct z as [h w0 c l e d s f].
  cbn [zw log compressor with_err setWroteHeader with_stateFlags w level]
    in *.
  destruct c as [c|]; msteps.
  - exists (Some c), buf, resp, hdr, [].
    cbn [zw log err snd]. rewrite Hz, Hl, app_nil_r.
    repeat split; assumption.
  - eexists _, buf, resp, hdr, _.
    cbn [zw log err snd with_compressor]. rewrite Hz, Hl.
    cbn [Header w compressor level err digest size stateFlags with_err].
    split; [reflexivity|]. split.
    { rewrite <- app_assoc. reflexivity. }
    repeat split; assumption.
Qed.

Lemma writeHeader_spec st : post (writeHeader env) st (header_post st).
Proof.
  unfold writeHeader.
  msteps. cbv zeta. msteps. apply post_w_Write.
  cbn [zw log setWroteHeader with_stateFlags Header w level].
  match goal with
  | |- context [io_Write _ _ ?b] => set (buf := b)
  end.
  set (resp := env (log st) (io_Write (w (zw st)) HeaderPart buf)).
  assert (Hbuf : len buf = 10).
  { subst buf. unfold len. rewrite !length_app.
    destruct (afterEpoch _); reflexivity. }
  assert (Hp : header_progress st (error_of resp)
                 {| zw := with_err (error_of resp)
                                   (setWroteHeader true (zw st));
                    log := log st
                           ++ [(io_Write (w (zw st)) HeaderPart buf,
                                resp)] |}).
  { split; [reflexivity|]. exists buf, resp, [].
    cbn [log]. repeat split; auto.
    destruct resp; [reflexivity | discriminate]. }
  clearbody resp buf.
  destruct resp as [|n e]; cbn [write_result error_of] in *;
    do 2 mstep; cbn [zw log].
  2: { mstep. apply header_progress_failed, Hp. }
  apply header_stage; [exact Hp | |].
  { destruct (Extra (Header (zw st))); [right | left; reflexivity].
    eexists. split; [reflexivity|]. apply writeHeaderBytes_spec. }
  intros st2 Hp2.
  apply header_stage; [exact Hp2 | |].
  { destruct (Name (Header (zw st))) eqn:E; [left; reflexivity | right].
    eexists. split; [reflexivity|]. apply writeHeaderString_spec. }
  intros st3 Hp3.
  apply header_stage; [exact Hp3 | |].
  { destruct (Comment (Header (zw st))) eqn:E; [left; reflexivity | right].
    eexists. split; [reflexivity|]. apply writeHeaderString_spec. }
  intros st4 Hp4.
  apply header_finish, Hp4.
Qed.

End WriteHeader.

(* ================================================================== *)
(** ** The methods, case by case *)

Lemma with_err_same z e : err z = e -> with_err e z = z.
Proof. destruct z. cbn. intros <-. reflexivity. Qed.

Lemma state_eta st : {| zw := zw st; log := log st |} = st.
Proof. destruct st. reflexivity. Qed.

Lemma snd_write_result p r : snd (write_result p r) = error_of r.
Proof. destruct r; reflexivity. Qed.

Section Methods.

Variable env : environment.

Local Abbreviation Write_compress_state := (Write_compress_state env).
Local Abbreviation flush_state := (flush_state env).
Local Abbreviation splice_state := (splice_state env).
Local Abbreviation Close_finish_state := (Close_finish_state env).
Local Abbreviation Flush_sync_state := (Flush_sync_state env).

(** *** Write *)

Lemma Write_latched p st e :
  err (zw st) = Some e -> Write env p st = Some ((0, Some e), st).
Proof. intros H. unfold Write, bind, get. rewrite H. reflexivity. Qed.

Lemma Write_compress_eq p st c :
  compressor (zw st) = Some c ->
  Write_compress env p st
  = Some (write_result p (env (log st) (flate_Write c p)),
          Write_compress_state p c st).
Proof.
  intros H. unfold Write_compress, compressor_Write, bind, get, modify.
  cbn [zw log compressor setActiveDeflateStream with_stateFlags
       with_digest with_size].
  rewrite H. unfold extcall, ret. cbn [zw log].
  destruct (env (log st) (flate_Write c p)) eqn:E;
    unfold Write_compress_state; cbn zeta; rewrite E; reflexivity.
Qed.

Lemma Write_compress_nil p st :
  compressor (zw st) = None -> Write_compress env p st = None.
Proof.
  intros H. unfold Write_compress, compressor_Write, bind, get, modify.
  cbn [zw log compressor setActiveDeflateStream with_stateFlags
       with_digest with_size].
  rewrite H. reflexivity.
Qed.

Lemma Write_written p st :
  err (zw st) = None -> checkWroteHeader (zw st) = true ->
  Write env p st = Write_compress env p st.
Proof.
  intros He Hh. unfold Write, bind at 1, get. rewrite He, Hh.
  reflexivity.
Qed.

Lemma writeHeader_err st n e st1 :
  writeHeader env st = Some ((n, e), st1) -> err (zw st1) = e.
Proof.
  intros H.
  destruct (post_elim _ _ _ _ _ (writeHeader_spec env st) H)
    as (c' & _ & _ & _ & _ & Hz & _).
  rewrite Hz. reflexivity.
Qed.

Lemma Write_lazy p st n e st1 :
  err (zw st) = None -> checkWroteHeader (zw st) = false ->
  writeHeader env st = Some ((n, e), st1) ->
  Write env p st
  = match e with
    | Some _ => Some ((n, e), st1)
    | None => Write_compress env p st1
    end.
Proof.
  intros He Hh Hw. pose proof (writeHeader_err _ _ _ _ Hw) as He1.
  unfold Write, bind, get. rewrite He, Hh. cbn [negb]. rewrite Hw.
  unfold modify, ret. rewrite with_err_same, state_eta by exact He1.
  destruct e; reflexivity.
Qed.

(** *** WriteCompressed *)

Lemma WriteCompressed_latched p st e :
  err (zw st) = Some e ->
  WriteCompressed env p st = Some ((0, Some e), st).
Proof.
  intros H. unfold WriteCompressed, bind, get. rewrite H. reflexivity.
Qed.

Lemma WriteCompressed_unfold p st n e st1 :
  err (zw st) = None ->
  writeHeader env st = Some ((n, e), st1) ->
  WriteCompressed env p st
  = match e with
    | Some _ => Some ((n, e), st1)
    | None =>
        match WriteCompressed_flush env st1 with
        | Some (Some e', st2) => Some ((n, Some e'), st2)
        | Some (None, st2) => WriteCompressed_splice env n p st2
        | None => None
        end
    end.
Proof.
  intros He Hw. pose proof (writeHeader_err _ _ _ _ Hw) as He1.
  unfold WriteCompressed, bind, get. rewrite He, Hw.
  unfold modify, ret. rewrite with_err_same, state_eta by exact He1.
  destruct e; [reflexivity|].
  destruct (WriteCompressed_flush env st1) as [[[e'|] st2]|]; reflexivity.
Qed.

Lemma WriteCompressed_flush_idle st :
  checkActiveDeflateStream (zw st) = false ->
  WriteCompressed_flush env st = Some (None, st).
Proof.
  intros H. unfold WriteCompressed_flush, bind, get. rewrite H.
  reflexivity.
Qed.

Lemma WriteCompressed_flush_active st c :
  checkActiveDeflateStream (zw st) = true ->
  compressor (zw st) = Some c ->
  WriteCompressed_flush env st
  = Some (error_of (env (log st) (flate_Flush c)), flush_state c st).
Proof.
  intros Ha Hc.
  unfold WriteCompressed_flush, compressor_Flush, bind, get.
  rewrite Ha, Hc. unfold extcall, modify, ret, flush_state.
  cbn [zw log]. destruct (env (log st) (flate_Flush c)); reflexivity.
Qed.

Lemma WriteCompressed_flush_nil st :
  checkActiveDeflateStream (zw st) = true ->
  compressor (zw st) = None ->
  WriteCompressed_flush env st = None.
Proof.
  intros Ha Hc.
  unfold WriteCompressed_flush, compressor_Flush, bind, get.
  rewrite Ha, Hc. reflexivity.
Qed.

Lemma splice_short n p st :
  len p < 18 ->
  WriteCompressed_splice env n p st = Some ((n, Some ErrBlob), st).
Proof.
  intros H. unfold WriteCompressed_splice.
  destruct (len p <? 18) eqn:E; [reflexivity|].
  apply Z.ltb_ge in E. lia.
Qed.

Lemma splice_rejected n p st content :
  18 <= len p -> getDeflateSlice p = Some (content, false) ->
  WriteCompressed_splice env n p st = Some ((n, Some ErrBlob), st).
Proof.
  intros H Hg. unfold WriteCompressed_splice.
  destruct (len p <? 18) eqn:E; [apply Z.ltb_lt in E; lia|].
  destruct (trailer_reads_in_bounds p H)
    as (s1 & c & s2 & tl & H1 & H2 & _ & H3 & H4 & _).
  unfold bind, lift. rewrite H1, H2, H3, H4, Hg. reflexivity.
Qed.

Lemma splice_accepted n p st content c tl d :
  18 <= len p -> getDeflateSlice p = Some (content, true) ->
  trailerChecksum p = Some c -> trailerLength p = Some tl ->
  0 <= tl < 2 ^ 32 ->
  crc32Combine (digest (zw st)) c tl = Some d ->
  WriteCompressed_splice env n p st
  = Some (write_result content
            (env (log st) (io_Write (w (zw st)) PayloadPart content)),
          splice_state content tl d st).
Proof.
  intros H Hg Hc Htl Hr Hd. unfold WriteCompressed_splice.
  destruct (len p <? 18) eqn:E; [apply Z.ltb_lt in E; lia|].
  unfold trailerChecksum, trailerLength in *.
  destruct (slice p (len p - 8) (len p - 4)) as [s1|]; [|discriminate].
  destruct (slice_from p (len p - 4)) as [s2|]; [|discriminate].
  cbn [obind] in Hc, Htl.
  unfold bind, lift. rewrite Hc, Htl, Hg.
  cbn [negb]. unfold modify, get. cbn [zw log with_size digest].
  rewrite (int_uint32 tl Hr), Hd.
  rewrite w_Write_eq. unfold ret, splice_state.
  cbn [zw log with_digest with_size w].
  destruct (env (log st) (io_Write (w (zw st)) PayloadPart content));
    reflexivity.
Qed.

(** *** Close *)

Lemma Close_latched st e :
  err (zw st) = Some e -> Close env st = Some (Some e, st).
Proof. intros H. unfold Close, bind, get. rewrite H. reflexivity. Qed.

Lemma Close_closed st :
  err (zw st) = None -> checkClosed (zw st) = true ->
  Close env st = Some (None, st).
Proof.
  intros He Hc. unfold Close, bind, get. rewrite He, Hc. reflexivity.
Qed.

Lemma Close_unfold st :
  err (zw st) = None -> checkClosed (zw st) = false ->
  Close env st
  = if checkWroteHeader (zw st) then Close_finish env (closing st)
    else match Write env [] (closing st) with
         | Some (_, st1) =>
             match err (zw st1) with
             | Some e => Some (Some e, st1)
             | None => Close_finish env st1
             end
         | None => None
         end.
Proof.
  intros He Hc. unfold Close, bind at 1 2 3, get, modify.
  rewrite He, Hc. cbn [zw log]. rewrite wroteHeader_setClosed.
  fold (closing st).
  destruct (checkWroteHeader (zw st)); cbn [negb].
  - reflexivity.
  - unfold bind, get, ret.
    destruct (Write env [] (closing st)) as [[r st1]|]; [|reflexivity].
    destruct (err (zw st1)); reflexivity.
Qed.

Lemma Close_finish_eq st c :
  compressor (zw st) = Some c ->
  Close_finish env st
  = Some (err (zw (Close_finish_state c st)), Close_finish_state c st).
Proof.
  intros Hc. unfold Close_finish, compressor_Close, bind, get.
  rewrite Hc. unfold extcall, modify, Close_finish_state.
  cbn [zw log]. cbv zeta.
  destruct (env (log st) (flate_Close c)) as [|n e]; cbn [error_of].
  - unfold ret, w_Write, bind, get, extcall.
    cbn [zw log with_err digest size w].
    destruct (env _ (io_Write _ _ _)); reflexivity.
  - reflexivity.
Qed.

Lemma Close_finish_nil st :
  compressor (zw st) = None -> Close_finish env st = None.
Proof.
  intros Hc. unfold Close_finish, compressor_Close, bind, get.
  rewrite Hc. reflexivity.
Qed.

(** *** Flush *)

Lemma Flush_latched st e :
  err (zw st) = Some e -> Flush env st = Some (Some e, st).
Proof. intros H. unfold Flush, bind, get. rewrite H. reflexivity. Qed.

Lemma Flush_closed st :
  err (zw st) = None -> checkClosed (zw st) = true ->
  Flush env st = Some (None, st).
Proof.
  intros He Hc. unfold Flush, bind, get. rewrite He, Hc. reflexivity.
Qed.

Lemma Flush_unfold st :
  err (zw st) = None -> checkClosed (zw st) = false ->
  Flush env st
  = if checkWroteHeader (zw st) then Flush_sync env st
    else match Write env [] st with
         | Some ((_, Some _), st1) => Some (err (zw st1), st1)
         | Some ((_, None), st1) => Flush_sync env st1
         | None => None
         end.
Proof.
  intros He Hc. unfold Flush, bind at 1 2, get.
  rewrite He, Hc.
  destruct (checkWroteHeader (zw st)); cbn [negb].
  - reflexivity.
  - unfold bind, get, ret.
    destruct (Write env [] st) as [[[n [e|]] st1]|]; reflexivity.
Qed.

Lemma Flush_sync_eq st c :
  compressor (zw st) = Some c ->
  Flush_sync env st
  = Some (error_of (env (log st) (flate_Flush c)), Flush_sync_state c st).
Proof.
  intros Hc. unfold Flush_sync, compressor_Flush, bind, get.
  rewrite Hc. reflexivity.
Qed.

Lemma Flush_sync_nil st :
  compressor (zw st) = None -> Flush_sync env st = None.
Proof.
  intros Hc. unfold Flush_sync, compressor_Flush, bind, get.
  rewrite Hc. reflexivity.
Qed.

End Methods.

(* ================================================================== *)
(** ** Facts about traces *)

Lemma uncommitted_snoc tr ev :
  uncommitted (tr ++ [ev]) = uncommitted_step (uncommitted tr) ev.
Proof. unfold uncommitted. rewrite fold_left_app. reflexivity. Qed.

Lemma uncommitted_app tr1 tr2 :
  uncommitted (tr1 ++ tr2)
  = fold_left uncommitted_step tr2 (uncommitted tr1).
Proof. unfold uncommitted. apply fold_left_app. Qed.

Lemma uncommitted_header_only tr : forall b,
  header_only tr -> fold_left uncommitted_step tr b = b.
Proof.
  unfold header_only.
  induction tr as [|[c r] tr IH]; intros b H; cbn [fold_left].
  - reflexivity.
  - cbn [forallb] in H. apply andb_prop in H. destruct H as [H1 H2].
    rewrite IH by exact H2.
    destruct c; try discriminate. reflexivity.
Qed.

Lemma count_flush_app tr1 tr2 :
  count_flush (tr1 ++ tr2) = (count_flush tr1 + count_flush tr2)%nat.
Proof. unfold count_flush. rewrite filter_app, length_app. reflexivity. Qed.

Lemma count_flush_header_only tr : header_only tr -> count_flush tr = O.
Proof.
  unfold header_only, count_flush.
  induction tr as [|[c r] tr IH]; intros H; cbn [filter].
  - reflexivity.
  - cbn [forallb] in H. apply andb_prop in H. destruct H as [H1 H2].
    destruct c; try discriminate. cbn [is_flush]. apply IH, H2.
Qed.

Lemma none_of_app k tr1 tr2 :
  none_of k (tr1 ++ tr2) <-> none_of k tr1 /\ none_of k tr2.
Proof.
  unfold none_of. rewrite forallb_app. apply andb_true_iff.
Qed.

Lemma header_only_none_of k tr :
  (forall d p r, k (io_Write d HeaderPart p, r) = false) ->
  header_only tr -> none_of k tr.
Proof.
  unfold header_only, none_of. intros Hk.
  induction tr as [|[c r] tr IH]; intros H; cbn [forallb] in *.
  - reflexivity.
  - apply andb_prop in H. destruct H as [H1 H2]. rewrite IH by exact H2.
    destruct c as [d [] p| | | | |]; try discriminate.
    rewrite Hk. reflexivity.
Qed.

(* ================================================================== *)
(** ** Well-formed states *)

(** What [writeHeader] changes, field by field. *)
Lemma header_post_inv st n e st1 :
  header_post st (n, e) st1 ->
  exists c' tr,
    zw st1 = with_err e (with_compressor c' (setWroteHeader true (zw st)))
    /\ log st1 = log st ++ tr
    /\ (exists buf resp rest,
          tr = (io_Write (w (zw st)) HeaderPart buf, resp) :: rest
          /\ len buf = 10)
    /\ count_flush tr = O
    /\ none_of is_payload tr /\ none_of is_flate_Close tr
    /\ (compressor (zw st) = None -> uncommitted (log st) = false ->
        uncommitted (log st1) = false)
    /\ (compressor (zw st) <> None ->
        uncommitted (log st1) = uncommitted (log st))
    /\ (forall c, compressor (zw st) = Some c -> c' = Some c)
    /\ (e = None -> -2 <= level (zw st) <= 9 -> c' <> None)
    /\ (c' = None -> compressor (zw st) = None).
Proof.
  intros (c' & buf & resp & hdr & nw & Hz & Hl & Hb & Hh & Hc).
  cbn [snd] in *.
  assert (Hhdr : header_only ((io_Write (w (zw st)) HeaderPart buf, resp)
                              :: hdr)).
  { unfold header_only in *. cbn [forallb is_header]. exact Hh. }
  change ((io_Write (w (zw st)) HeaderPart buf, resp) :: hdr ++ nw)
    with (((io_Write (w (zw st)) HeaderPart buf, resp) :: hdr) ++ nw) in Hl.
  exists c', (((io_Write (w (zw st)) HeaderPart buf, resp) :: hdr) ++ nw).
  split; [exact Hz|]. split; [exact Hl|].
  split; [exists buf, resp, (hdr ++ nw); auto|].
  unfold compressor_after in Hc.
  rewrite count_flush_app, !none_of_app, Hl, !uncommitted_app.
  rewrite fold_left_app.
  rewrite (uncommitted_header_only _ _ Hhdr).
  rewrite (count_flush_header_only _ Hhdr).
  pose proof (header_only_none_of is_payload _ ltac:(reflexivity) Hhdr).
  pose proof (header_only_none_of is_flate_Close _ ltac:(reflexivity) Hhdr).
  destruct (compressor (zw st)) as [c|] eqn:Ec.
  - destruct Hc as [-> ->]. cbn. repeat split; auto; congruence.
  - destruct e as [e|].
    + destruct Hc as [-> ->]. cbn.
      repeat split; auto; try congruence.
    + destruct Hc as [-> ->]. cbn.
      repeat split; auto; try congruence.
      intros _ Hlv.
      destruct (level (zw st) <? -2) eqn:E1; [apply Z.ltb_lt in E1; lia|].
      destruct (9 <? level (zw st)) eqn:E2; [apply Z.ltb_lt in E2; lia|].
      discriminate.
Qed.

(** The same, from a run of [writeHeader]. *)
Lemma writeHeader_inv env st n e st1 :
  writeHeader env st = Some ((n, e), st1) ->
  exists c' tr,
    zw st1 = with_err e (with_compressor c' (setWroteHeader true (zw st)))
    /\ log st1 = log st ++ tr
    /\ (exists buf resp rest,
          tr = (io_Write (w (zw st)) HeaderPart buf, resp) :: rest
          /\ len buf = 10)
    /\ count_flush tr = O
    /\ none_of is_payload tr /\ none_of is_flate_Close tr
    /\ (compressor (zw st) = None -> uncommitted (log st) = false ->
        uncommitted (log st1) = false)
    /\ (compressor (zw st) <> None ->
        uncommitted (log st1) = uncommitted (log st))
    /\ (forall c, compressor (zw st) = Some c -> c' = Some c)
    /\ (e = None -> -2 <= level (zw st) <= 9 -> c' <> None)
    /\ (c' = None -> compressor (zw st) = None).
Proof.
  intros H. apply (header_post_inv st n e st1).
  apply (post_elim _ _ _ _ _ (writeHeader_spec env st) H).
Qed.

(** Read fields through updates. *)
Ltac fields :=
  repeat first
    [ progress cbn [zw log Header w compressor level err digest size
                    with_Header with_compressor with_err with_digest
                    with_size] in *
    | progress autorewrite with flags in * ].

Lemma crc32Combine_total front back n :
  0 <= n -> exists d, crc32Combine front back n = Some d.
Proof.
  intros Hn. rewrite <- (Z2Nat.id n) by exact Hn.
  rewrite crc32Combine_eq. eauto.
Qed.

Lemma crc32Combine_range front back n d :
  0 <= front < 2 ^ 32 -> 0 <= back < 2 ^ 32 ->
  crc32Combine front back n = Some d -> 0 <= d < 2 ^ 32.
Proof.
  intros Hf Hb. destruct (Z_lt_ge_dec n 0) as [Hn | Hn].
  - unfold crc32Combine, make_bytes.
    destruct (n <? 0) eqn:E; [discriminate | apply Z.ltb_ge in E; lia].
  - rewrite <- (Z2Nat.id n) by lia. rewrite crc32Combine_eq.
    intros [= <-]. apply (lxor_range 32); try lia.
    apply fold_update_range, Hf.
Qed.

Lemma accepted_true p :
  accepted p = true <->
  18 <= len p /\ exists content, getDeflateSlice p = Some (content, true).
Proof.
  unfold accepted. rewrite andb_true_iff, Z.leb_le.
  destruct (getDeflateSlice p) as [[content [|]]|]; split;
    intros [H1 H2]; split; eauto; try discriminate;
    destruct H2; discriminate.
Qed.

Lemma accepted_false p :
  accepted p = false ->
  len p < 18 \/ exists content, getDeflateSlice p = Some (content, false).
Proof.
  unfold accepted. intros H. apply andb_false_iff in H.
  destruct H as [H | H]; [left; apply Z.leb_gt in H; lia|].
  destruct (getDeflateSlice_total p) as (content & ok & Hg & _).
  rewrite Hg in H. destruct ok; [discriminate|]. right. eauto.
Qed.

Section Cases.

Variable env : environment.

Local Abbreviation lazy_header := (lazy_header env).
Local Abbreviation Write_case := (Write_case env).
Local Abbreviation splice_case := (splice_case env).
Local Abbreviation flushed := (flushed env).
Local Abbreviation WriteCompressed_case := (WriteCompressed_case env).

Lemma header_wf st n e st1 :
  wf st -> err (zw st) = None ->
  writeHeader env st = Some ((n, e), st1) ->
  wf st1 /\ err (zw st1) = e /\ checkWroteHeader (zw st1) = true
  /\ checkActiveDeflateStream (zw st1) = checkActiveDeflateStream (zw st)
  /\ checkClosed (zw st1) = checkClosed (zw st)
  /\ digest (zw st1) = digest (zw st) /\ size (zw st1) = size (zw st).
Proof.
  intros [Hlv Hcomp Hnd Hact Hsz Hdg] He Hp.
  destruct (writeHeader_inv _ _ _ _ _ Hp)
    as (c' & tr & Hz & Hl & _ & _ & _ & _ & Hu0 & Hu1 & Hc1 & Hc2 & Hc3).
  rewrite Hz. split; [|fields; repeat split; reflexivity].
  constructor; rewrite Hz; fields.
  - exact Hlv.
  - intros _ ->. apply Hc2; auto.
  - intros ->. auto.
  - intros -> Hu.
    destruct (compressor (zw st)) eqn:Ec.
    + rewrite Hu1 in Hu by congruence. auto.
    + rewrite Hu0 in Hu by auto. discriminate.
  - exact Hsz.
  - exact Hdg.
Qed.

(** [Write] goes one of these ways; it panics on no well-formed
    state. *)
Lemma Write_outcome p st :
  match Write env p st with
  | Some (r, st') => Write_case p st r st'
  | None => ~ wf st
  end.
Proof.
  destruct (err (zw st)) as [e|] eqn:He.
  { rewrite (Write_latched env p st e He). constructor. exact He. }
  destruct (checkWroteHeader (zw st)) eqn:Hh.
  - rewrite Write_written by assumption.
    destruct (compressor (zw st)) as [c|] eqn:Hc.
    + rewrite (Write_compress_eq env p st c Hc).
      apply Write_compressed; auto. left. auto.
    + rewrite (Write_compress_nil env p st Hc).
      intros Hwf. eapply wf_compressor; eauto.
  - destruct (writeHeader_spec env st) as ([n e] & st1 & Hw & Hp).
    rewrite (Write_lazy env p st n e st1 He Hh Hw).
    destruct e as [e|].
    + apply Write_header_failed; assumption.
    + destruct (compressor (zw st1)) as [c|] eqn:Hc.
      * rewrite (Write_compress_eq env p st1 c Hc).
        apply Write_compressed; auto. right. eauto.
      * rewrite (Write_compress_nil env p st1 Hc).
        intros Hwf.
        destruct (header_wf _ _ _ _ Hwf He Hw) as (Hwf1 & He1 & Hh1 & _).
        eapply wf_compressor; eauto.
Qed.

Lemma Write_inv p st r st' :
  Write env p st = Some (r, st') -> Write_case p st r st'.
Proof.
  intros H. pose proof (Write_outcome p st) as Ho. rewrite H in Ho.
  exact Ho.
Qed.

Lemma Write_cases p st :
  wf st -> exists r st', Write env p st = Some (r, st')
                         /\ Write_case p st r st'.
Proof.
  intros Hwf. pose proof (Write_outcome p st) as Ho.
  destruct (Write env p st) as [[r st']|]; [eauto | contradiction].
Qed.

Lemma splice_cases n p st :
  exists r st', WriteCompressed_splice env n p st = Some (r, st')
                /\ splice_case n p st r st'.
Proof.
  destruct (accepted p) eqn:Hacc.
  - pose proof Hacc as Hacc'.
    apply accepted_true in Hacc'. destruct Hacc' as (Hlen & content & Hg).
    destruct (trailer_reads_in_bounds p Hlen)
      as (s1 & c & s2 & tl & H1 & H2 & Hc & H3 & H4 & Htl).
    assert (Hck : trailerChecksum p = Some c)
      by (unfold trailerChecksum; rewrite H1; exact H2).
    assert (Hln : trailerLength p = Some tl)
      by (unfold trailerLength; rewrite H3; exact H4).
    destruct (crc32Combine_total (digest (zw st)) c tl ltac:(lia))
      as [d Hd].
    eexists _, _. split.
    + eapply splice_accepted; eauto.
    + eapply splice_is_accepted; eauto.
  - eexists _, _. split; [|apply splice_is_rejected, Hacc].
    destruct (accepted_false p Hacc) as [Hs | [content Hg]].
    + apply splice_short, Hs.
    + destruct (Z_lt_ge_dec (len p) 18) as [Hs | Hs].
      * apply splice_short, Hs.
      * eapply splice_rejected; [lia | exact Hg].
Qed.

Lemma WriteCompressed_outcome p st :
  match WriteCompressed env p st with
  | Some (r, st') => WriteCompressed_case p st r st'
  | None => ~ wf st
  end.
Proof.
  destruct (err (zw st)) as [e|] eqn:He.
  { rewrite (WriteCompressed_latched env p st e He).
    constructor. exact He. }
  destruct (writeHeader_spec env st) as ([n e] & st1 & Hw & Hp).
  rewrite (WriteCompressed_unfold env p st n e st1 He Hw).
  destruct e as [e|].
  { apply WriteCompressed_header_failed; assumption. }
  destruct (checkActiveDeflateStream (zw st1)) eqn:Ha.
  - destruct (compressor (zw st1)) as [c|] eqn:Hc.
    + rewrite (WriteCompressed_flush_active env st1 c Ha Hc).
      destruct (env (log st1) (flate_Flush c)) as [|k e] eqn:Er;
        cbn [error_of].
      * destruct (splice_cases n p (flush_state env c st1))
          as (r & st' & Hs & Hcase).
        rewrite Hs.
        eapply WriteCompressed_spliced; eauto.
        right. split; [exact Ha|]. eauto.
      * eapply WriteCompressed_flush_failed; eauto.
    + rewrite (WriteCompressed_flush_nil env st1 Ha Hc).
      intros Hwf.
      destruct (header_wf _ _ _ _ Hwf He Hw) as (Hwf1 & He1 & Hh1 & _).
      eapply wf_compressor; eauto.
  - rewrite (WriteCompressed_flush_idle env st1 Ha).
    destruct (splice_cases n p st1) as (r & st' & Hs & Hcase).
    rewrite Hs.
    eapply WriteCompressed_spliced; eauto. left. auto.
Qed.

Lemma WriteCompressed_inv p st r st' :
  WriteCompressed env p st = Some (r, st') ->
  WriteCompressed_case p st r st'.
Proof.
  intros H. pose proof (WriteCompressed_outcome p st) as Ho.
  rewrite H in Ho. exact Ho.
Qed.

Lemma WriteCompressed_cases p st :
  wf st -> exists r st', WriteCompressed env p st = Some (r, st')
                         /\ WriteCompressed_case p st r st'.
Proof.
  intros Hwf. pose proof (WriteCompressed_outcome p st) as Ho.
  destruct (WriteCompressed env p st) as [[r st']|];
    [eauto | contradiction].
Qed.

End Cases.

(* ================================================================== *)
(** ** Every method keeps the state well formed *)

Section Preservation.

Variable env : environment.

Local Abbreviation close_ready := (close_ready env).
Local Abbreviation Close_case := (Close_case env).

Lemma lazy_header_wf st st1 :
  wf st -> err (zw st) = None -> lazy_header env st st1 ->
  wf st1 /\ err (zw st1) = None /\ checkWroteHeader (zw st1) = true
  /\ checkActiveDeflateStream (zw st1) = checkActiveDeflateStream (zw st)
  /\ checkClosed (zw st1) = checkClosed (zw st)
  /\ digest (zw st1) = digest (zw st) /\ size (zw st1) = size (zw st).
Proof.
  intros Hwf He [[Hh ->] | [Hh [n Hp]]].
  - split; [exact Hwf|]. repeat split; auto.
  - apply (header_wf _ _ _ _ _ Hwf He Hp).
Qed.

Lemma Write_compress_state_wf p c st :
  wf st -> compressor (zw st) = Some c ->
  wf (Write_compress_state env p c st).
Proof.
  intros [Hlv Hcomp Hnd Hact Hsz Hdg] Hc. unfold Write_compress_state.
  constructor; fields.
  - exact Hlv.
  - intros _ _. congruence.
  - congruence.
  - reflexivity.
  - apply Z.mod_pos_bound. lia.
  - apply Update_range, Hdg.
Qed.

Lemma Write_case_wf p st r st' :
  wf st -> Write_case env p st r st' ->
  wf st' /\ snd r = err (zw st').
Proof.
  intros Hwf [e He | n e st1 He Hh Hp | st1 c He Hl Hc].
  - auto.
  - destruct (header_wf _ _ _ _ _ Hwf He Hp) as (Hwf1 & He1 & _). auto.
  - destruct (lazy_header_wf _ _ Hwf He Hl) as (Hwf1 & _).
    split; [apply Write_compress_state_wf; assumption|].
    rewrite snd_write_result. reflexivity.
Qed.

(** [Write] returns what it leaves in [z.err]. *)
Lemma Write_case_err p st r st' :
  Write_case env p st r st' -> snd r = err (zw st').
Proof.
  intros [e He | n e st1 He Hh Hp | st1 c He Hl Hc].
  - auto.
  - destruct (writeHeader_inv _ _ _ _ _ Hp) as (c' & tr & Hz & _).
    rewrite Hz. reflexivity.
  - rewrite snd_write_result. reflexivity.
Qed.

Lemma flushed_wf st1 st2 :
  wf st1 -> err (zw st1) = None -> flushed env st1 st2 ->
  wf st2 /\ err (zw st2) = None
  /\ checkActiveDeflateStream (zw st2) = false
  /\ uncommitted (log st2) = false
  /\ checkWroteHeader (zw st2) = checkWroteHeader (zw st1)
  /\ checkClosed (zw st2) = checkClosed (zw st1)
  /\ digest (zw st2) = digest (zw st1) /\ size (zw st2) = size (zw st1).
Proof.
  intros Hwf He [[Ha ->] | [Ha (c & Hc & Hr & ->)]].
  - split; [exact Hwf|]. repeat split; auto.
    destruct (uncommitted (log st1)) eqn:Hu; [|reflexivity].
    rewrite (wf_active _ Hwf He Hu) in Ha. discriminate.
  - destruct Hwf as [Hlv Hcomp Hnd Hact Hsz Hdg]. unfold flush_state.
    rewrite Hr. cbn [error_of].
    assert (Hu : uncommitted (log st1 ++ [(flate_Flush c, Done)]) = false)
      by (rewrite uncommitted_snoc; reflexivity).
    split; [constructor|]; fields; repeat split; congruence || lia.
Qed.

Lemma splice_case_wf n p st r st' :
  wf st -> err (zw st) = None -> splice_case env n p st r st' ->
  wf st'.
Proof.
  intros Hwf He [Hacc | content c tl d Hacc Hg Hck Hln Hcr Htr Hd].
  - exact Hwf.
  - destruct Hwf as [Hlv Hcomp Hnd Hact Hsz Hdg]. unfold splice_state.
    constructor; fields; rewrite ?uncommitted_snoc; cbn [uncommitted_step];
      auto.
    + apply Z.mod_pos_bound. lia.
    + eapply crc32Combine_range; [| |exact Hd]; assumption.
Qed.

Lemma WriteCompressed_case_wf p st r st' :
  wf st -> WriteCompressed_case env p st r st' -> wf st'.
Proof.
  intros Hwf [e He | n e st1 He Hp | n st1 c k e He Hp Ha Hc Hr
              | n st1 st2 r0 st0 He Hp Hf Hs].
  - exact Hwf.
  - apply (header_wf _ _ _ _ _ Hwf He Hp).
  - destruct (header_wf _ _ _ _ _ Hwf He Hp)
      as ([Hlv Hcomp Hnd Hact Hsz Hdg] & _).
    unfold flush_state. rewrite Hr. cbn [error_of].
    constructor; fields; congruence || assumption.
  - destruct (header_wf _ _ _ _ _ Hwf He Hp) as (Hwf1 & He1 & _).
    destruct (flushed_wf _ _ Hwf1 He1 Hf) as (Hwf2 & He2 & _).
    apply (splice_case_wf _ _ _ _ _ Hwf2 He2 Hs).
Qed.

(** *** Close *)

Lemma closing_wf st : wf st -> wf (closing st).
Proof.
  intros [Hlv Hcomp Hnd Hact Hsz Hdg]. unfold closing.
  constructor; fields; assumption.
Qed.

(** A [Write] that leaves no error has a compressor behind it. *)
Lemma Write_case_ready p st r st' :
  Write_case env p st r st' ->
  err (zw st) = None -> err (zw st') = None ->
  exists c, compressor (zw st') = Some c
            /\ checkWroteHeader (zw st') = true.
Proof.
  intros [e He | n e st1 He Hh Hp | st1 c He Hl Hc] He0 He'.
  - congruence.
  - destruct (writeHeader_inv _ _ _ _ _ Hp) as (c' & tr & Hz & _).
    rewrite Hz in He'. discriminate.
  - exists c. unfold Write_compress_state. fields.
    split; [exact Hc|].
    destruct Hl as [[Hh ->] | [Hh [n Hp]]]; [exact Hh|].
    destruct (writeHeader_inv _ _ _ _ _ Hp) as (c' & tr & Hz & _).
    rewrite Hz. fields. reflexivity.
Qed.

Lemma Close_outcome st :
  match Close env st with
  | Some (r, st') => Close_case st r st'
  | None => ~ wf st
  end.
Proof.
  destruct (err (zw st)) as [e|] eqn:He.
  { rewrite (Close_latched env st e He). constructor. exact He. }
  destruct (checkClosed (zw st)) eqn:Hcl.
  { rewrite (Close_closed env st He Hcl). constructor; assumption. }
  rewrite (Close_unfold env st He Hcl).
  destruct (checkWroteHeader (zw st)) eqn:Hh.
  - destruct (compressor (zw st)) as [c|] eqn:Hc.
    + assert (Hc' : compressor (zw (closing st)) = Some c) by exact Hc.
      rewrite (Close_finish_eq env _ c Hc').
      apply Close_finished; auto. left. auto.
    + assert (Hc' : compressor (zw (closing st)) = None) by exact Hc.
      rewrite (Close_finish_nil env _ Hc').
      intros Hwf. eapply wf_compressor; eauto.
  - pose proof (Write_outcome env [] (closing st)) as Ho.
    destruct (Write env [] (closing st)) as [[r0 st1]|] eqn:Hw.
    2: { intros Hwf. apply Ho, closing_wf, Hwf. }
    destruct (err (zw st1)) as [e|] eqn:He1.
    + eapply Close_header_failed; eauto.
    + destruct (Write_case_ready _ _ _ _ Ho He He1) as (c & Hc & _).
      rewrite (Close_finish_eq env _ c Hc).
      apply Close_finished; auto. right. eauto.
Qed.

Lemma Close_inv st r st' :
  Close env st = Some (r, st') -> Close_case st r st'.
Proof.
  intros H. pose proof (Close_outcome st) as Ho. rewrite H in Ho.
  exact Ho.
Qed.

Lemma Close_cases st :
  wf st -> exists r st', Close env st = Some (r, st')
                         /\ Close_case st r st'.
Proof.
  intros Hwf. pose proof (Close_outcome st) as Ho.
  destruct (Close env st) as [[r st']|]; [eauto | contradiction].
Qed.

Lemma close_ready_wf st st1 :
  wf st -> close_ready st st1 -> wf st1.
Proof.
  intros Hwf [[Hh ->] | [Hh (r0 & Hcase & _)]].
  - apply closing_wf, Hwf.
  - apply Write_inv in Hcase.
    apply (Write_case_wf _ _ _ _ (closing_wf _ Hwf) Hcase).
Qed.

Lemma Close_finish_state_wf c st :
  wf st -> compressor (zw st) = Some c ->
  wf (Close_finish_state env c st).
Proof.
  intros [Hlv Hcomp Hnd Hact Hsz Hdg] Hc. unfold Close_finish_state.
  destruct (env (log st) (flate_Close c)) as [|k e] eqn:Er;
    cbn [error_of]; cbv zeta; constructor; fields;
    rewrite ?uncommitted_snoc; cbn [uncommitted_step];
    congruence || assumption.
Qed.

Lemma Close_case_wf st r st' :
  wf st -> Close_case st r st' -> wf st' /\ r = err (zw st').
Proof.
  intros Hwf [e He | He Hcl | r0 st1 e He Hcl Hh Hcase He1
              | st1 c He Hcl Hr Hc].
  - auto.
  - auto.
  - split; [|auto]. apply Write_inv in Hcase.
    apply (Write_case_wf _ _ _ _ (closing_wf _ Hwf) Hcase).
  - split; [|reflexivity].
    apply Close_finish_state_wf; [|exact Hc].
    apply (close_ready_wf _ _ Hwf Hr).
Qed.

End Preservation.

Section Preservation_Flush.

Variable env : environment.

Local Abbreviation flush_ready := (flush_ready env).
Local Abbreviation Flush_case := (Flush_case env).

(** *** Flush *)

Lemma Flush_outcome st :
  match Flush env st with
  | Some (r, st') => Flush_case st r st'
  | None => ~ wf st
  end.
Proof.
  destruct (err (zw st)) as [e|] eqn:He.
  { rewrite (Flush_latched env st e He). constructor. exact He. }
  destruct (checkClosed (zw st)) eqn:Hcl.
  { rewrite (Flush_closed env st He Hcl). constructor; assumption. }
  rewrite (Flush_unfold env st He Hcl).
  destruct (checkWroteHeader (zw st)) eqn:Hh.
  - destruct (compressor (zw st)) as [c|] eqn:Hc.
    + rewrite (Flush_sync_eq env _ c Hc).
      apply Flush_synced; auto. left. auto.
    + rewrite (Flush_sync_nil env _ Hc).
      intros Hwf. eapply wf_compressor; eauto.
  - pose proof (Write_outcome env [] st) as Ho.
    destruct (Write env [] st) as [[[n e] st1]|] eqn:Hw; [|exact Ho].
    destruct e as [e|].
    + eapply Flush_header_failed; eauto.
    + assert (He1 : err (zw st1) = None)
        by (symmetry; apply (Write_case_err _ _ _ _ _ Ho)).
      destruct (Write_case_ready _ _ _ _ _ Ho He He1) as (c & Hc & _).
      rewrite (Flush_sync_eq env _ c Hc).
      apply Flush_synced; auto. right. eauto.
Qed.

Lemma Flush_inv st r st' :
  Flush env st = Some (r, st') -> Flush_case st r st'.
Proof.
  intros H. pose proof (Flush_outcome st) as Ho. rewrite H in Ho.
  exact Ho.
Qed.

Lemma Flush_cases st :
  wf st -> exists r st', Flush env st = Some (r, st')
                         /\ Flush_case st r st'.
Proof.
  intros Hwf. pose proof (Flush_outcome st) as Ho.
  destruct (Flush env st) as [[r st']|]; [eauto | contradiction].
Qed.

Lemma flush_ready_wf st st1 :
  wf st -> flush_ready st st1 -> wf st1.
Proof.
  intros Hwf [[Hh ->] | [Hh (n & Hcase)]].
  - exact Hwf.
  - apply Write_inv in Hcase.
    apply (Write_case_wf _ _ _ _ _ Hwf Hcase).
Qed.

Lemma Flush_sync_state_wf c st :
  wf st -> compressor (zw st) = Some c ->
  wf (Flush_sync_state env c st).
Proof.
  intros [Hlv Hcomp Hnd Hact Hsz Hdg] Hc. unfold Flush_sync_state.
  destruct (env (log st) (flate_Flush c)) as [|k e] eqn:Er;
    cbn [error_of]; cbv zeta; constructor; fields;
    rewrite ?uncommitted_snoc; cbn [uncommitted_step];
    congruence || assumption.
Qed.

Lemma Flush_case_wf st r st' :
  wf st -> Flush_case st r st' -> wf st' /\ r = err (zw st').
Proof.
  intros Hwf [e He | He Hcl | n e st1 He Hcl Hh Hcase
              | st1 c He Hcl Hr Hc].
  - auto.
  - auto.
  - split; [|reflexivity]. apply Write_inv in Hcase.
    apply (Write_case_wf _ _ _ _ _ Hwf Hcase).
  - split.
    + apply Flush_sync_state_wf; [|exact Hc].
      apply (flush_ready_wf _ _ Hwf Hr).
    + unfold Flush_sync_state. fields. reflexivity.
Qed.

(** [Flush] returns what it leaves in [z.err]. *)
Lemma Flush_case_done st r st' :
  Flush_case st r st' -> r = err (zw st').
Proof.
  intros [e He | He Hcl | n e st1 He Hcl Hh Hcase | st1 c He Hcl Hr Hc];
    auto.
Qed.

End Preservation_Flush.

(* ================================================================== *)
(** ** Reset, and the states a caller can reach *)

Lemma Reset_eq w0 st :
  Reset w0 st
  = Some (tt, {| zw := reset_writer w0 (zw st);
                 log := log st ++ reset_events w0 (zw st) |}).
Proof.
  unfold Reset, init, bind, get, modify, note, ret, reset_writer,
    reset_events.
  destruct (compressor (zw st)); cbn [zw log]; rewrite ?app_nil_r;
    reflexivity.
Qed.

Lemma Reset_wf w0 st st' :
  wf st -> Reset w0 st = Some (tt, st') -> wf st'.
Proof.
  intros [Hlv Hcomp Hnd Hact Hsz Hdg]. rewrite Reset_eq. intros [= <-].
  unfold reset_writer, reset_events.
  constructor; cbn [zw log level err compressor size digest].
  - exact Hlv.
  - discriminate.
  - destruct (compressor (zw st)); [discriminate|].
    rewrite app_nil_r. auto.
  - intros _. destruct (compressor (zw st)).
    + rewrite uncommitted_snoc. discriminate.
    + rewrite app_nil_r, Hnd by reflexivity. discriminate.
  - lia.
  - lia.
Qed.

Lemma fresh_inv w0 level0 st :
  fresh w0 level0 = Some st ->
  -2 <= level0 <= 9
  /\ st = {| zw := {| Header := {| Comment := []; Extra := None;
                                   ModTime := zeroTime; Name := [];
                                   OS := xff |};
                      w := w0; compressor := None; level := level0;
                      err := None; digest := 0; size := 0;
                      stateFlags := 0 |};
             log := [] |}.
Proof.
  unfold fresh, NewGzipStreamWriterLevel.
  destruct (level0 <? HuffmanOnly) eqn:E1; [discriminate|].
  destruct (BestCompression <? level0) eqn:E2; [discriminate|].
  cbn. intros [= <-].
  apply Z.ltb_ge in E1, E2. unfold HuffmanOnly, BestCompression in *.
  split; [lia | reflexivity].
Qed.

Lemma fresh_wf w0 level0 st : fresh w0 level0 = Some st -> wf st.
Proof.
  intros H. apply fresh_inv in H. destruct H as [Hlv ->].
  constructor; cbn [zw log level err compressor size digest];
    auto; try discriminate; lia.
Qed.

Section Reachable.

Variable env : environment.

Lemma invoke_wf m st st' :
  wf st -> invoke env m st = Some (tt, st') -> wf st'.
Proof.
  intros Hwf. destruct m as [p | p | | | w0 | h]; cbn [invoke].
  - destruct (Write_cases env p st Hwf) as (r & st1 & Hw & Hcase).
    unfold bind. rewrite Hw. intros [= <-].
    apply (Write_case_wf _ _ _ _ _ Hwf Hcase).
  - destruct (WriteCompressed_cases env p st Hwf)
      as (r & st1 & Hw & Hcase).
    unfold bind. rewrite Hw. intros [= <-].
    apply (WriteCompressed_case_wf _ _ _ _ _ Hwf Hcase).
  - destruct (Flush_cases env st Hwf) as (r & st1 & Hw & Hcase).
    unfold bind. rewrite Hw. intros [= <-].
    apply (Flush_case_wf _ _ _ _ Hwf Hcase).
  - destruct (Close_cases env st Hwf) as (r & st1 & Hw & Hcase).
    unfold bind. rewrite Hw. intros [= <-].
    apply (Close_case_wf _ _ _ _ Hwf Hcase).
  - apply Reset_wf, Hwf.
  - unfold modify. intros [= <-].
    destruct Hwf as [Hlv Hcomp Hnd Hact Hsz Hdg].
    constructor; fields; assumption.
Qed.

(** No method panics on a well-formed state. *)
Lemma invoke_total m st :
  wf st -> exists st', invoke env m st = Some (tt, st').
Proof.
  intros Hwf. destruct m as [p | p | | | w0 | h]; cbn [invoke].
  - destruct (Write_cases env p st Hwf) as (r & st1 & Hw & _).
    unfold bind, ret. rewrite Hw. eauto.
  - destruct (WriteCompressed_cases env p st Hwf) as (r & st1 & Hw & _).
    unfold bind, ret. rewrite Hw. eauto.
  - destruct (Flush_cases env st Hwf) as (r & st1 & Hw & _).
    unfold bind, ret. rewrite Hw. eauto.
  - destruct (Close_cases env st Hwf) as (r & st1 & Hw & _).
    unfold bind, ret. rewrite Hw. eauto.
  - rewrite Reset_eq. eauto.
  - unfold modify. eauto.
Qed.

Lemma reachable_wf st : reachable env st -> wf st.
Proof.
  induction 1 as [w0 level0 st Hf | st m st' _ IH Hi].
  - apply (fresh_wf _ _ _ Hf).
  - apply (invoke_wf _ _ _ IH Hi).
Qed.

End Reachable.

(* ================================================================== *)
(** ** Reset *)

Lemma fresh_st_fresh : fresh 1%nat DefaultCompression = Some st_fresh.
Proof. reflexivity. Qed.

Lemma reachable_st_fresh env : reachable env st_fresh.
Proof. apply (reachable_fresh env 1%nat DefaultCompression). reflexivity. Qed.

(** C8.  From every state, [Reset] onto a destination keeps the
    compression level and the cached compressor, which it resets onto the
    new destination when there is one, and clears everything else: the
    three flags are false, digest and size are 0, no error is latched,
    and the header fields are back at their defaults, with OS = 255. *)
Theorem Reset_keeps_level_and_clears (w0 : ioWriter) (st : state) :
  exists st',
    Reset w0 st = Some (tt, st')
    /\ level (zw st') = level (zw st)
    /\ compressor (zw st')
       = match compressor (zw st) with
         | Some c => Some {| fw_dst := w0; fw_level := fw_level c |}
         | None => None
         end
    /\ log st'
       = log st ++ match compressor (zw st) with
                   | Some c => [(flate_Reset c w0, Done)]
                   | None => []
                   end
    /\ w (zw st') = w0
    /\ checkWroteHeader (zw st') = false
    /\ checkClosed (zw st') = false
    /\ checkActiveDeflateStream (zw st') = false
    /\ digest (zw st') = 0 /\ size (zw st') = 0
    /\ err (zw st') = None
    /\ Header (zw st')
       = {| Comment := []; Extra := None; ModTime := zeroTime; Name := [];
            OS := xff |}.
Proof.
  eexists. split; [apply Reset_eq|].
  cbn [zw log]. repeat split.
Qed.

(* ================================================================== *)
(** ** Close, twice *)

Section Close_twice.

Variable env : environment.

(** [Write] leaves the closed flag and the destination alone. *)
Lemma Write_case_closed p st r st' :
  Write_case env p st r st' ->
  checkClosed (zw st') = checkClosed (zw st) /\ w (zw st') = w (zw st).
Proof.
  assert (Hhdr : forall n e st1,
             writeHeader env st = Some ((n, e), st1) ->
             checkClosed (zw st1) = checkClosed (zw st)
             /\ w (zw st1) = w (zw st)).
  { intros n e st1 Hp.
    destruct (writeHeader_inv _ _ _ _ _ Hp) as (c' & tr & Hz & _).
    rewrite Hz. fields. auto. }
  intros [e He | n e st1 He Hh Hp | st1 c He Hl Hc].
  - auto.
  - eapply Hhdr, Hp.
  - unfold Write_compress_state. fields.
    destruct Hl as [[Hh ->] | [Hh [n Hp]]]; [auto|].
    eapply Hhdr, Hp.
Qed.

Lemma close_ready_closed st st1 :
  close_ready env st st1 ->
  checkClosed (zw st1) = true /\ w (zw st1) = w (zw st).
Proof.
  intros [[Hh ->] | [Hh (r0 & Hcase & _)]].
  - unfold closing. fields. auto.
  - apply Write_inv in Hcase.
    destruct (Write_case_closed _ _ _ _ Hcase) as [-> ->].
    unfold closing. fields. auto.
Qed.

(** Whatever way [Close] went, the writer is closed or has an error, and
    [Close] returned that error. *)
Lemma Close_case_done st r st' :
  Close_case env st r st' ->
  r = err (zw st') /\ (r = None -> checkClosed (zw st') = true).
Proof.
  intros [e He | He Hcl | r0 st1 e He Hcl Hh Hcase He1
          | st1 c He Hcl Hr Hc].
  - split; [auto | discriminate].
  - auto.
  - split; [auto | discriminate].
  - split; [reflexivity|].
    destruct (close_ready_closed _ _ Hr) as [Hcl1 _].
    unfold Close_finish_state.
    destruct (env (log st1) (flate_Close c)); cbn [error_of]; cbv zeta;
      fields; [auto | discriminate].
Qed.

End Close_twice.

(** C6.  On every reachable writer [Close] returns, and calling it a
    second time returns what the first call returned -- the latched error
    if there is one, else nil -- and changes nothing: the writer and the
    trace of calls to the destination and the compressor are as the first
    call left them, so the destination holds the same bytes. *)
Theorem Close_idempotent (env : environment) (st : state) :
  reachable env st ->
  exists r st',
    Close env st = Some (r, st')
    /\ Close env st' = Some (r, st')
    /\ r = err (zw st')
    /\ bind (Close env) (fun _ => Close env) st = Some (r, st').
Proof.
  intros Hreach. pose proof (reachable_wf env st Hreach) as Hwf.
  destruct (Close_cases env st Hwf) as (r & st' & H & Hcase).
  destruct (Close_case_done _ _ _ _ Hcase) as [Hr Hcl].
  assert (H2 : Close env st' = Some (r, st')).
  { destruct r as [e|].
    - apply Close_latched. auto.
    - apply Close_closed; auto. }
  exists r, st'. split; [exact H|]. split; [exact H2|].
  split; [exact Hr|]. unfold bind. rewrite H. exact H2.
Qed.

Lemma Close_idempotent_witness :
  reachable reliable st_written
  /\ exists r st',
       Close reliable st_written = Some (r, st')
       /\ Close reliable st' = Some (r, st')
       /\ r = err (zw st')
       /\ bind (Close reliable) (fun _ => Close reliable) st_written
          = Some (r, st').
Proof.
  assert (H : reachable reliable st_written).
  { apply (reachable_invoke reliable st_fresh (CallWrite [x41]));
      [apply reachable_st_fresh | reflexivity]. }
  split; [exact H|].
  apply (Close_idempotent reliable st_written H).
Defined.

(* ================================================================== *)
(** ** Which errors are latched *)

Section Latching.

Variable env : environment.

Lemma flushed_err st1 st2 :
  err (zw st1) = None -> flushed env st1 st2 -> err (zw st2) = None.
Proof.
  intros He [[Ha ->] | [Ha (c & Hc & Hr & ->)]]; [exact He|].
  unfold flush_state. rewrite Hr. reflexivity.
Qed.

Lemma header_post_err st n e st1 :
  writeHeader env st = Some ((n, e), st1) -> err (zw st1) = e.
Proof.
  intros Hp. destruct (writeHeader_inv _ _ _ _ _ Hp) as (c' & tr & Hz & _).
  rewrite Hz. reflexivity.
Qed.

(** [WriteCompressed] returns what it leaves in [z.err], except for the
    [ErrBlob] of a rejected blob, which it leaves out of [z.err]. *)
Lemma WriteCompressed_case_err p st r st' :
  WriteCompressed_case env p st r st' ->
  snd r = err (zw st')
  \/ (snd r = Some ErrBlob /\ accepted p = false /\ err (zw st') = None).
Proof.
  intros [e He | n e st1 He Hp | n st1 c k e He Hp Ha Hc Hr
          | n st1 st2 r0 st0 He Hp Hf Hs].
  - left. auto.
  - left. symmetry. apply (header_post_err _ _ _ _ Hp).
  - left. unfold flush_state. rewrite Hr. reflexivity.
  - pose proof (flushed_err _ _ (header_post_err _ _ _ _ Hp) Hf) as He2.
    destruct Hs as [Hacc | content c tl d Hacc Hg Hck Hln Hcr Htr Hd].
    + right. auto.
    + left. rewrite snd_write_result. reflexivity.
Qed.

End Latching.

(** C4, as the code has it.  A latched error makes [Write],
    [WriteCompressed], [Flush] and [Close] return it and change nothing,
    in the writer or outside.  Every error that [Write], [Flush] or
    [Close] returns is latched, and so is every error that
    [WriteCompressed] returns, except [ErrBlob]: a rejected blob is
    reported to the caller and [z.err] stays nil.  [Reset] clears the
    latched error. *)
Theorem errors_latched_except_ErrBlob (env : environment) (st : state) :
  (forall e, err (zw st) = Some e ->
     (forall p, Write env p st = Some ((0, Some e), st))
     /\ (forall p, WriteCompressed env p st = Some ((0, Some e), st))
     /\ Flush env st = Some (Some e, st)
     /\ Close env st = Some (Some e, st))
  /\ (forall p r st', Write env p st = Some (r, st') ->
                      snd r = err (zw st'))
  /\ (forall r st', Flush env st = Some (r, st') -> r = err (zw st'))
  /\ (forall r st', Close env st = Some (r, st') -> r = err (zw st'))
  /\ (forall p r st', WriteCompressed env p st = Some (r, st') ->
        snd r = err (zw st')
        \/ (snd r = Some ErrBlob /\ accepted p = false
            /\ err (zw st') = None))
  /\ (forall w0, exists st', Reset w0 st = Some (tt, st')
                             /\ err (zw st') = None).
Proof.
  split; [|split; [|split; [|split; [|split]]]].
  - intros e He. repeat split; intros.
    + apply Write_latched, He.
    + apply WriteCompressed_latched, He.
    + apply Flush_latched, He.
    + apply Close_latched, He.
  - intros p r st' H. apply Write_inv in H.
    apply (Write_case_err _ _ _ _ _ H).
  - intros r st' H. apply Flush_inv in H.
    apply (Flush_case_done _ _ _ _ H).
  - intros r st' H. apply Close_inv in H.
    apply (Close_case_done _ _ _ _ H).
  - intros p r st' H. apply WriteCompressed_inv in H.
    apply (WriteCompressed_case_err _ _ _ _ _ H).
  - intros w0. eexists. split; [apply Reset_eq | reflexivity].
Qed.

(** C4, refuted as stated.  A fresh writer is handed the empty slice:
    [WriteCompressed] returns [ErrBlob], no error is latched, and the next
    [Write] compresses its byte and returns nil. *)
Lemma ErrBlob_is_not_latched :
  WriteCompressed reliable [] st_fresh = Some ((10, Some ErrBlob), st_rejected)
  /\ err (zw st_rejected) = None
  /\ option_map fst (Write reliable [x41] st_rejected) = Some (1, None).
Proof. repeat split. Qed.

(* ================================================================== *)
(** ** Write with an empty slice *)

Lemma Update_nil crc : crc32.Update crc crc32.IEEETable [] = crc.
Proof.
  unfold crc32.Update, crc32.simpleUpdate. cbn [fold_left].
  apply not32_involutive.
Qed.

Lemma uint32_small v : 0 <= v < 2 ^ 32 -> uint32 v = v.
Proof. intros H. unfold uint32. apply Z.mod_small, H. Qed.

Section Write_trace.

Variable env : environment.

(** What [Write] adds to the trace. *)
Lemma Write_case_log p st r st' :
  Write_case env p st r st' ->
  exists tr,
    log st' = log st ++ tr
    /\ count_flush tr = O
    /\ none_of is_payload tr /\ none_of is_flate_Close tr
    /\ (checkWroteHeader (zw st) = true -> none_of is_header tr)
    /\ (err (zw st) = None -> checkWroteHeader (zw st) = false ->
        starts_with_header (w (zw st)) tr).
Proof.
  intros [e He | n e st1 He Hh Hp | st1 c He Hl Hc].
  - exists []. rewrite app_nil_r.
    repeat split; auto; congruence.
  - destruct (writeHeader_inv _ _ _ _ _ Hp)
      as (c' & tr & Hz & Hlog & Hfirst & Hcf & Hnp & Hnc & _).
    exists tr. repeat split; auto; congruence.
  - unfold Write_compress_state. cbn [log].
    destruct Hl as [[Hh ->] | [Hh [n Hp]]].
    + eexists. split; [reflexivity|].
      repeat split; auto; congruence.
    + destruct (writeHeader_inv _ _ _ _ _ Hp)
        as (c' & tr & Hz & Hlog & Hfirst & Hcf & Hnp & Hnc & _).
      exists (tr ++ [(flate_Write c p, env (log st1) (flate_Write c p))]).
      rewrite Hlog, <- app_assoc.
      split; [reflexivity|].
      rewrite count_flush_app, Hcf, !none_of_app.
      repeat split; auto; try congruence.
      intros _ _. destruct Hfirst as (buf & resp & rest & -> & Hb).
      exists buf, resp. eexists. split; [reflexivity | exact Hb].
Qed.

(** What [Write] of the empty slice does to digest and size. *)
Lemma Write_case_empty st r st' :
  wf st -> err (zw st) = None -> Write_case env [] st r st' ->
  digest (zw st') = digest (zw st) /\ size (zw st') = size (zw st)
  /\ (r = (0, None) \/ (snd r <> None /\ snd r = err (zw st'))).
Proof.
  intros Hwf He0 [e He | n e st1 He Hh Hp | st1 c He Hl Hc].
  - congruence.
  - destruct (writeHeader_inv _ _ _ _ _ Hp) as (c' & tr & Hz & _).
    rewrite Hz. fields. repeat split. right. split; [discriminate|].
    reflexivity.
  - destruct (lazy_header_wf _ _ _ Hwf He Hl)
      as (Hwf1 & _ & _ & _ & _ & Hd & Hs).
    unfold Write_compress_state. fields.
    rewrite Update_nil. change (len (@nil byte)) with 0.
    rewrite (uint32_small 0), Z.add_0_r by lia.
    rewrite (uint32_small _ (wf_size _ Hwf1)).
    repeat split; auto.
    destruct (env (log st1) (flate_Write c [])) as [|k e];
      cbn [write_result error_of snd].
    + left. reflexivity.
    + right. split; [discriminate | reflexivity].
Qed.

End Write_trace.




(* ================================================================== *)
(** ** The blob-parsing path stays in bounds *)



(* ================================================================== *)
(** ** Close finishes the compressor, also after a splice *)

Section Close_trace.

Variable env : environment.

Lemma close_ready_log st st1 :
  close_ready env st st1 ->
  exists mid,
    log st1 = log st ++ mid
    /\ none_of is_flate_Close mid /\ none_of is_payload mid
    /\ count_flush mid = O
    /\ (checkWroteHeader (zw st) = true -> mid = []).
Proof.
  intros [[Hh ->] | [Hh (r0 & Hw & _)]].
  - exists []. cbn [closing log]. rewrite app_nil_r.
    repeat split; auto.
  - apply Write_inv in Hw.
    destruct (Write_case_log _ _ _ _ _ Hw)
      as (tr & Hlog & Hcf & Hnp & Hnc & _).
    exists tr. repeat split; auto. congruence.
Qed.

(** A [Close] that gets past its guards and returns nil. *)
Lemma Close_case_success st st' :
  err (zw st) = None -> checkClosed (zw st) = false ->
  Close_case env st None st' ->
  exists st1 c,
    close_ready env st st1
    /\ compressor (zw st1) = Some c
    /\ zw st' = with_err None (zw st1)
    /\ log st'
       = log st1
         ++ [(flate_Close c, Done);
             (io_Write (w (zw st1)) TrailerPart
                (binary.PutUint32 (digest (zw st1))
                 ++ binary.PutUint32 (size (zw st1))), Done)].
Proof.
  intros He Hcl H.
  inversion H as [e He' | He' Hcl' | r0 st1 e He' Hcl' Hh Hw He1
                  | st1 c He' Hcl' Hr Hc Hres Hst]; subst;
    try congruence.
  exists st1, c. split; [exact Hr|]. split; [exact Hc|].
  unfold Close_finish_state in *.
  destruct (env (log st1) (flate_Close c)) as [|k e] eqn:E1;
    cbn [error_of] in *; cbv zeta in *; [|discriminate].
  destruct (env (log st1 ++ [(flate_Close c, Done)])
              (io_Write (w (zw st1)) TrailerPart
                 (binary.PutUint32 (digest (zw st1))
                  ++ binary.PutUint32 (size (zw st1))))) as [|k e] eqn:E2;
    cbn [error_of zw err with_err] in *; [|discriminate].
  cbn [log]. rewrite <- app_assoc. split; reflexivity.
Qed.

End Close_trace.

(** C5, as the code has it.  Whenever [Close] gets past its guards (no
    latched error, not closed yet) and returns nil, its last two calls are
    the compressor's [Close] and the write of the eight trailer bytes,
    digest then size: the compressor is finished before the trailer in
    every case, whoever wrote to the destination last.  When the header
    was written before, these are its only calls. *)
Theorem Close_finishes_compressor (env : environment) (st st' : state) :
  err (zw st) = None -> checkClosed (zw st) = false ->
  Close env st = Some (None, st') ->
  exists mid c,
    log st'
    = log st ++ mid
      ++ [(flate_Close c, Done);
          (io_Write (w (zw st)) TrailerPart
             (binary.PutUint32 (digest (zw st'))
              ++ binary.PutUint32 (size (zw st'))), Done)]
    /\ compressor (zw st') = Some c
    /\ none_of is_flate_Close mid
    /\ (checkWroteHeader (zw st) = true -> mid = []).
Proof.
  intros He Hcl H. apply Close_inv in H.
  destruct (Close_case_success _ _ _ He Hcl H)
    as (st1 & c & Hr & Hc & Hz & Hl).
  destruct (close_ready_closed _ _ _ Hr) as [_ Hw0].
  destruct (close_ready_log _ _ _ Hr) as (mid & Hlog & Hnc & _ & _ & Hmid).
  exists mid, c. rewrite Hl, Hz, Hlog, Hw0, <- app_assoc.
  repeat split; auto.
Qed.

Lemma Close_finishes_compressor_witness :
  err (zw st_spliced) = None /\ checkClosed (zw st_spliced) = false
  /\ Close reliable st_spliced = Some (None, st_spliced_closed)
  /\ exists mid c,
       log st_spliced_closed
       = log st_spliced ++ mid
         ++ [(flate_Close c, Done);
             (io_Write (w (zw st_spliced)) TrailerPart
                (binary.PutUint32 (digest (zw st_spliced_closed))
                 ++ binary.PutUint32 (size (zw st_spliced_closed))), Done)]
       /\ compressor (zw st_spliced_closed) = Some c
       /\ none_of is_flate_Close mid
       /\ (checkWroteHeader (zw st_spliced) = true -> mid = []).
Proof.
  split; [reflexivity|]. split; [reflexivity|]. split; [reflexivity|].
  apply (Close_finishes_compressor reliable st_spliced st_spliced_closed);
    reflexivity.
Defined.

(** C5, refuted as stated.  The last call before [Close] wrote the spliced
    payload [03 00] to the destination; [Close] then calls the compressor's
    [Close] before it writes the trailer. *)
Lemma Close_after_splice_calls_compressor_Close :
  last (log st_spliced) (flate_NewWriter O 0, Done)
  = (io_Write 1%nat PayloadPart [x03; x00], Done)
  /\ Close reliable st_spliced = Some (None, st_spliced_closed)
  /\ log st_spliced_closed
     = log st_spliced
       ++ [(flate_Close {| fw_dst := 1%nat; fw_level := -1 |}, Done);
           (io_Write 1%nat TrailerPart
              [x00; x00; x00; x00; x00; x00; x00; x00], Done)].
Proof. repeat split. Qed.

(* ================================================================== *)
(** ** Where the sync-flushes are *)

Section Sync_flush.

Variable env : environment.

Lemma flushed_log st1 st2 :
  flushed env st1 st2 ->
  exists ftr,
    log st2 = log st1 ++ ftr
    /\ none_of is_payload ftr
    /\ count_flush ftr
       = (if checkActiveDeflateStream (zw st1) then 1%nat else O)
    /\ (checkActiveDeflateStream (zw st1) = true ->
        exists c, In (flate_Flush c, Done) ftr)
    /\ w (zw st2) = w (zw st1).
Proof.
  intros [[Ha ->] | [Ha (c & Hc & Hr & ->)]]; rewrite Ha.
  - exists []. rewrite app_nil_r. repeat split; auto. discriminate.
  - exists [(flate_Flush c, Done)]. unfold flush_state. rewrite Hr.
    cbn [log error_of zw]. fields. repeat split; auto.
    intros _. exists c. left. reflexivity.
Qed.

Lemma WriteCompressed_case_trace p st r st' :
  wf st -> WriteCompressed_case env p st r st' ->
  exists tr,
    log st' = log st ++ tr
    /\ (none_of is_payload tr \/ payload_last p st st' tr)
    /\ splice_flushes env st tr.
Proof.
  intros Hwf [e He | n e st1 He Hp | n st1 c k e He Hp Ha Hc Hr
              | n st1 st2 r0 st0 He Hp Hf Hs].
  - exists []. rewrite app_nil_r.
    split; [reflexivity|]. split; [left; reflexivity|].
    right. split; [reflexivity|]. left. congruence.
  - destruct (writeHeader_inv _ _ _ _ _ Hp)
      as (c' & tr & Hz & Hlog & _ & Hcf & Hnp & _).
    exists tr. split; [exact Hlog|]. split; [left; exact Hnp|].
    right. split; [exact Hcf|]. right. right. eauto.
  - destruct (writeHeader_inv _ _ _ _ _ Hp)
      as (c' & tr & Hz & Hlog & _ & Hcf & Hnp & _).
    exists (tr ++ [(flate_Flush c, Failed k e)]).
    unfold flush_state. rewrite Hr. cbn [log].
    rewrite Hlog, <- app_assoc. split; [reflexivity|]. split.
    + left. apply none_of_app. split; [exact Hnp | reflexivity].
    + left. rewrite count_flush_app, Hcf.
      rewrite Hz in Ha. fields.
      split; [reflexivity|]. split; [exact He|]. split; [exact Ha|].
      eauto.
  - destruct (writeHeader_inv _ _ _ _ _ Hp)
      as (c' & tr & Hz & Hlog & _ & Hcf & Hnp & _).
    destruct (header_wf _ _ _ _ _ Hwf He Hp)
      as (Hwf1 & He1 & _ & Ha1 & _).
    destruct (flushed_wf _ _ _ Hwf1 He1 Hf)
      as (Hwf2 & He2 & Ha2 & Hu2 & _).
    destruct (flushed_log _ _ Hf) as (ftr & Hl2 & Hnf & Hcnt & Hin & Hw2).
    assert (Hw1 : w (zw st1) = w (zw st)) by (rewrite Hz; reflexivity).
    assert (Hfl : splice_flushes env st (tr ++ ftr)).
    { unfold splice_flushes. rewrite count_flush_app, Hcf, Hcnt, Ha1.
      destruct (checkActiveDeflateStream (zw st)).
      - left. split; [reflexivity|]. split; [exact He|].
        split; [reflexivity|]. eauto.
      - right. split; auto. }
    destruct Hs as [Hacc | content c tl d Hacc Hg Hck Hln Hcr Htr Hd].
    + exists (tr ++ ftr). rewrite Hl2, Hlog, <- app_assoc.
      split; [reflexivity|]. split; [|exact Hfl].
      left. apply none_of_app. auto.
    + exists ((tr ++ ftr)
              ++ [(io_Write (w (zw st)) PayloadPart content,
                   env (log st2)
                       (io_Write (w (zw st2)) PayloadPart content))]).
      unfold splice_state. cbn [log]. fields.
      rewrite Hl2, Hlog, Hw2, Hw1, <- !app_assoc.
      split; [reflexivity|]. split.
      * right. eexists (tr ++ ftr), content, _.
        rewrite <- !app_assoc. split; [reflexivity|].
        split; [exact Hg|]. split; [apply none_of_app; auto|].
        rewrite app_assoc, <- Hlog, <- Hl2.
        split; [exact Hu2|]. split; [exact Ha2|].
        intros Ha. rewrite <- Ha1 in Ha.
        destruct (Hin Ha) as [c0 Hc0]. exists c0.
        apply in_or_app. auto.
      * destruct Hfl as [(H1 & H2) | (H1 & H2)]; [left | right];
          rewrite !app_assoc, count_flush_app, <- app_assoc, H1;
          split; auto.
Qed.

Lemma Flush_case_trace st r st' :
  Flush_case env st r st' ->
  exists tr,
    log st' = log st ++ tr
    /\ none_of is_payload tr
    /\ Flush_flushes env st st' tr.
Proof.
  intros [e He | He Hcl | n e st1 He Hcl Hh Hw | st1 c He Hcl Hr Hc].
  - exists []. rewrite app_nil_r.
    split; [reflexivity|]. split; [reflexivity|].
    right. split; [reflexivity|]. left. congruence.
  - exists []. rewrite app_nil_r.
    split; [reflexivity|]. split; [reflexivity|].
    right. split; [reflexivity|]. right. left. exact Hcl.
  - pose proof (Write_inv _ _ _ _ _ Hw) as Hcase.
    destruct (Write_case_log _ _ _ _ _ Hcase)
      as (tr & Hlog & Hcf & Hnp & _).
    exists tr. split; [exact Hlog|]. split; [exact Hnp|].
    right. split; [exact Hcf|]. right. right. eauto.
  - assert (Hpre : exists tr0, log st1 = log st ++ tr0
                               /\ none_of is_payload tr0
                               /\ count_flush tr0 = O).
    { destruct Hr as [[Hh ->] | [Hh (n & Hw)]].
      - exists []. rewrite app_nil_r. repeat split.
      - pose proof (Write_inv _ _ _ _ _ Hw) as Hcase.
        destruct (Write_case_log _ _ _ _ _ Hcase)
          as (tr & Hlog & Hcf & Hnp & _).
        exists tr. auto. }
    destruct Hpre as (tr0 & Hlog & Hnp & Hcf).
    exists (tr0 ++ [(flate_Flush c, env (log st1) (flate_Flush c))]).
    unfold Flush_sync_state. cbn [log zw]. fields.
    rewrite Hlog, <- app_assoc.
    split; [reflexivity|]. split.
    + apply none_of_app. split; [exact Hnp | reflexivity].
    + left. rewrite count_flush_app, Hcf.
      split; [reflexivity|]. split; [exact He|]. split; [exact Hcl|].
      split; [|cbn [zw]; apply active_setActive].
      destruct Hr as [[Hh _] | [_ [n Hw]]]; [left; exact Hh | right; eauto].
Qed.

Lemma Close_case_trace st r st' :
  Close_case env st r st' ->
  exists tr,
    log st' = log st ++ tr
    /\ none_of is_payload tr /\ count_flush tr = O.
Proof.
  intros [e He | He Hcl | r0 st1 e He Hcl Hh Hw He1 | st1 c He Hcl Hr Hc].
  - exists []. rewrite app_nil_r. repeat split.
  - exists []. rewrite app_nil_r. repeat split.
  - pose proof (Write_inv _ _ _ _ _ Hw) as Hcase.
    destruct (Write_case_log _ _ _ _ _ Hcase)
      as (tr & Hlog & Hcf & Hnp & _).
    exists tr. auto.
  - destruct (close_ready_log _ _ _ Hr) as (mid & Hlog & _ & Hnp & Hcf & _).
    unfold Close_finish_state.
    destruct (env (log st1) (flate_Close c)) as [|k e];
      cbn [error_of]; cbv zeta; cbn [log]; rewrite Hlog, <- !app_assoc;
      eexists; (split; [reflexivity|]);
      rewrite none_of_app, count_flush_app, Hcf; repeat split; auto.
Qed.

End Sync_flush.

(** C7, as the code has it.  On every reachable writer: when
    [WriteCompressed] writes a payload, that write is its last call, the
    compressor holds no uncommitted raw-write data at that moment, the
    flag deflate_active is clear afterwards, and if the flag was set
    before, a successful sync-flush precedes the payload.
    [WriteCompressed] sync-flushes once when it finds deflate_active set
    (no latched error, header written without error) and never
    otherwise; [Flush] sync-flushes once whenever it reaches the
    compressor (no latched error, not closed, header there or written
    without error), whether or not a raw write came before, and clears
    the flag; [Write], [Close] and [Reset] never sync-flush, and a
    [Write] that leaves no error sets the flag. *)
Theorem sync_flush_discipline (env : environment) (st : state) :
  reachable env st ->
  (forall p r st', WriteCompressed env p st = Some (r, st') ->
     exists tr, log st' = log st ++ tr
                /\ (none_of is_payload tr \/ payload_last p st st' tr)
                /\ splice_flushes env st tr)
  /\ (forall r st', Flush env st = Some (r, st') ->
        exists tr, log st' = log st ++ tr
                   /\ none_of is_payload tr
                   /\ Flush_flushes env st st' tr)
  /\ (forall p r st', Write env p st = Some (r, st') ->
        exists tr, log st' = log st ++ tr
                   /\ none_of is_payload tr /\ count_flush tr = O
                   /\ (err (zw st) = None -> err (zw st') = None ->
                       checkActiveDeflateStream (zw st') = true))
  /\ (forall r st', Close env st = Some (r, st') ->
        exists tr, log st' = log st ++ tr
                   /\ none_of is_payload tr /\ count_flush tr = O)
  /\ (forall w0 st', Reset w0 st = Some (tt, st') ->
        exists tr, log st' = log st ++ tr
                   /\ none_of is_payload tr /\ count_flush tr = O
                   /\ checkActiveDeflateStream (zw st') = false).
Proof.
  intros Hreach. pose proof (reachable_wf env st Hreach) as Hwf.
  split; [|split; [|split; [|split]]].
  - intros p r st' H. apply WriteCompressed_inv in H.
    apply (WriteCompressed_case_trace _ _ _ _ _ Hwf H).
  - intros r st' H. apply Flush_inv in H.
    apply (Flush_case_trace _ _ _ _ H).
  - intros p r st' H. apply Write_inv in H.
    destruct (Write_case_log _ _ _ _ _ H) as (tr & Hlog & Hcf & Hnp & _).
    exists tr. split; [exact Hlog|]. split; [exact Hnp|].
    split; [exact Hcf|]. intros He He'.
    destruct H as [e He0 | n e st1 He0 Hh Hp | st1 c He0 Hl Hc].
    + congruence.
    + rewrite (header_post_err _ _ _ _ _ Hp) in He'. discriminate.
    + unfold Write_compress_state. fields. reflexivity.
  - intros r st' H. apply Close_inv in H.
    apply (Close_case_trace _ _ _ _ H).
  - intros w0 st'. rewrite Reset_eq. intros [= <-].
    exists (reset_events w0 (zw st)). split; [reflexivity|].
    unfold reset_events. destruct (compressor (zw st)); repeat split.
Qed.

Lemma sync_flush_discipline_witness :
  reachable reliable st_written
  /\ ((forall p r st', WriteCompressed reliable p st_written = Some (r, st') ->
         exists tr, log st' = log st_written ++ tr
                    /\ (none_of is_payload tr
                        \/ payload_last p st_written st' tr)
                    /\ splice_flushes reliable st_written tr)
      /\ (forall r st', Flush reliable st_written = Some (r, st') ->
            exists tr, log st' = log st_written ++ tr
                       /\ none_of is_payload tr
                       /\ Flush_flushes reliable st_written st' tr)
      /\ (forall p r st', Write reliable p st_written = Some (r, st') ->
            exists tr, log st' = log st_written ++ tr
                       /\ none_of is_payload tr /\ count_flush tr = O
                       /\ (err (zw st_written) = None ->
                           err (zw st') = None ->
                           checkActiveDeflateStream (zw st') = true))
      /\ (forall r st', Close reliable st_written = Some (r, st') ->
            exists tr, log st' = log st_written ++ tr
                       /\ none_of is_payload tr /\ count_flush tr = O)
      /\ (forall w0 st', Reset w0 st_written = Some (tt, st') ->
            exists tr, log st' = log st_written ++ tr
                       /\ none_of is_payload tr /\ count_flush tr = O
                       /\ checkActiveDeflateStream (zw st') = false)).
Proof.
  assert (Hr : reachable reliable st_written).
  { apply (reachable_invoke reliable st_fresh (CallWrite [x41]) st_written).
    - apply (reachable_fresh reliable 1%nat DefaultCompression).
      reflexivity.
    - reflexivity. }
  split; [exact Hr|].
  apply (sync_flush_discipline reliable st_written Hr).
Defined.

(** C7, refuted as stated.  After one [Flush] of a fresh writer the flag
    deflate_active is clear and the compressor holds nothing uncommitted;
    a second [Flush] sync-flushes all the same: the trace then has a
    sync-flush with no compressor write since the previous one. *)
Lemma second_Flush_syncs_without_raw_write :
  checkActiveDeflateStream (zw st_flushed) = false
  /\ uncommitted (log st_flushed) = false
  /\ Flush reliable st_flushed = Some (None, st_flushed_twice)
  /\ log st_flushed_twice
     = log st_flushed
       ++ [(flate_Flush {| fw_dst := 1%nat; fw_level := -1 |}, Done)]
  /\ flush_follows_raw (log st_flushed) = true
  /\ flush_follows_raw (log st_flushed_twice) = false.
Proof. repeat split. Qed.

(* ================================================================== *)
(** ** Reading back a little-endian word *)

Lemma byte_at v k :
  0 <= k -> byte_to_Z (byte_of_Z (Z.shiftr v k)) = Z.shiftr v k mod 2 ^ 8.
Proof. intros _. apply byte_to_of_Z. Qed.

Lemma Uint32_four (b0 b1 b2 b3 : byte) :
  binary.Uint32 [b0; b1; b2; b3]
  = Some (Z.lor (Z.lor (Z.lor (byte_to_Z b0) (Z.shiftl (byte_to_Z b1) 8))
                       (Z.shiftl (byte_to_Z b2) 16))
                (Z.shiftl (byte_to_Z b3) 24)).
Proof. reflexivity. Qed.

Lemma Uint32_PutUint32 v :
  0 <= v < 2 ^ 32 -> binary.Uint32 (binary.PutUint32 v) = Some v.
Proof.
  intros Hv. unfold binary.PutUint32. rewrite Uint32_four. f_equal.
  rewrite <- (Z.shiftr_0_r v) at 1.
  rewrite !byte_at by lia.
  apply Z.bits_inj'. intros i Hi.
  rewrite !Z.lor_spec.
  rewrite !Z.shiftl_spec by lia.
  destruct (Z_lt_ge_dec i 8) as [H8 | H8];
    [|destruct (Z_lt_ge_dec i 16) as [H16 | H16];
      [|destruct (Z_lt_ge_dec i 24) as [H24 | H24];
        [|destruct (Z_lt_ge_dec i 32) as [H32 | H32]]]].
  all: rewrite ?(Z.testbit_neg_r _ (i - 8)) by lia;
       rewrite ?(Z.testbit_neg_r _ (i - 16)) by lia;
       rewrite ?(Z.testbit_neg_r _ (i - 24)) by lia.
  all: repeat match goal with
         | |- context [Z.testbit (?x mod 2 ^ 8) ?j] =>
             first [ rewrite (Z.mod_pow2_bits_low x 8 j) by lia
                   | rewrite (Z.mod_pow2_bits_high x 8 j) by lia ]
         end.
  all: rewrite ?Z.shiftr_spec by lia.
  all: rewrite ?orb_false_r, ?orb_false_l.
  - rewrite Z.add_0_r. reflexivity.
  - rewrite Z.sub_add. reflexivity.
  - rewrite Z.sub_add. reflexivity.
  - rewrite Z.sub_add. reflexivity.
  - symmetry. apply (Z.bits_above_log2 v i); [lia|].
    destruct (Z.eq_dec v 0) as [-> | Hne]; [cbn; lia|].
    assert (Hp : 2 ^ 32 <= 2 ^ i) by (apply Z.pow_le_mono_r; lia).
    apply Z.log2_lt_pow2; lia.
Qed.

(** The two trailer fields of a blob that ends with the trailer of its
    content. *)
Lemma trailer_fields (blob d : list byte) :
  18 <= len blob -> ends_with_trailer_of blob d ->
  trailerChecksum blob = Some (crc32.ChecksumIEEE d)
  /\ trailerLength blob = Some (uint32 (len d)).
Proof.
  intros Hlen Hend. unfold ends_with_trailer_of, gzip_trailer in Hend.
  unfold trailerChecksum, trailerLength, slice_from.
  rewrite !slice_Some by lia. cbn [obind].
  assert (H8 : Z.to_nat (len blob - 8) = (List.length blob - 8)%nat)
    by (unfold len in *; lia).
  assert (H4 : Z.to_nat (len blob - 4) = (4 + (List.length blob - 8))%nat)
    by (unfold len in *; lia).
  replace (Z.to_nat (len blob - 4 - (len blob - 8))) with 4%nat by lia.
  replace (Z.to_nat (len blob - (len blob - 4))) with 4%nat by lia.
  rewrite H8, H4, <- skipn_skipn, Hend.
  split.
  - change (firstn 4 (binary.PutUint32 (crc32.ChecksumIEEE d)
                      ++ binary.PutUint32 (uint32 (len d))))
      with (binary.PutUint32 (crc32.ChecksumIEEE d)).
    apply Uint32_PutUint32, ChecksumIEEE_range.
  - change (firstn 4 (skipn 4 (binary.PutUint32 (crc32.ChecksumIEEE d)
                               ++ binary.PutUint32 (uint32 (len d)))))
      with (binary.PutUint32 (uint32 (len d))).
    apply Uint32_PutUint32. apply Z.mod_pos_bound. lia.
Qed.

Lemma uint32_add_l a b : uint32 (uint32 a + b) = uint32 (a + b).
Proof. unfold uint32. apply Zplus_mod_idemp_l. Qed.

Lemma uint32_add_r a b : uint32 (a + uint32 b) = uint32 (a + b).
Proof. unfold uint32. apply Zplus_mod_idemp_r. Qed.

(* ================================================================== *)
(** ** Digest and size follow the content *)

Section Tally.

Variable env : environment.

Lemma lazy_header_frame st st1 :
  lazy_header env st st1 ->
  digest (zw st1) = digest (zw st) /\ size (zw st1) = size (zw st)
  /\ w (zw st1) = w (zw st)
  /\ checkClosed (zw st1) = checkClosed (zw st).
Proof.
  intros [[Hh ->] | [Hh [n Hp]]]; [auto|].
  destruct (writeHeader_inv _ _ _ _ _ Hp) as (c' & tr & Hz & _).
  rewrite Hz. fields. auto.
Qed.

Lemma flushed_frame st1 st2 :
  flushed env st1 st2 ->
  digest (zw st2) = digest (zw st1) /\ size (zw st2) = size (zw st1)
  /\ w (zw st2) = w (zw st1)
  /\ checkClosed (zw st2) = checkClosed (zw st1).
Proof.
  intros [[Ha ->] | [Ha (c & Hc & Hr & ->)]]; [auto|].
  unfold flush_state. rewrite Hr. cbn [error_of]. fields. auto.
Qed.

Lemma Write_tally w0 acc p st r st' :
  tally w0 acc st -> Write env p st = Some (r, st') ->
  tally w0 (acc ++ p) st'.
Proof.
  intros Ht H. apply Write_inv in H.
  destruct H as [e He | n e st1 He Hh Hp | st1 c He Hl Hc]; intros He'.
  - congruence.
  - rewrite (header_post_err _ _ _ _ _ Hp) in He'. discriminate.
  - destruct (Ht He) as (Hd & Hs & Hw).
    destruct (lazy_header_frame _ _ Hl) as (Hd1 & Hs1 & Hw1 & _).
    unfold Write_compress_state. fields.
    rewrite Hd1, Hs1, Hw1, Hd, Hs.
    split; [|split; [|exact Hw]].
    + unfold crc32.ChecksumIEEE. apply Update_app.
    + rewrite uint32_add_l, uint32_add_r, len_app. reflexivity.
Qed.

Lemma Write_still_open p st r st' :
  still_open st -> Write env p st = Some (r, st') -> still_open st'.
Proof.
  intros Ho H. apply Write_inv in H. intros He'.
  destruct (Write_case_closed _ _ _ _ _ H) as [-> _].
  apply Ho.
  destruct H as [e He | n e st1 He Hh Hp | st1 c He Hl Hc]; auto.
Qed.

Lemma WriteCompressed_tally w0 acc blob d st r st' :
  tally w0 acc st ->
  describes (CallWriteCompressed blob) d -> len d < 2 ^ 32 ->
  WriteCompressed env blob st = Some (r, st') ->
  tally w0 (acc ++ d) st'.
Proof.
  intros Ht Hdesc Hfit H. apply WriteCompressed_inv in H.
  destruct H as [e He | n e st1 He Hp | n st1 c k e He Hp Ha Hc Hr
                 | n st1 st2 r0 st0 He Hp Hf Hs]; intros He'.
  - congruence.
  - rewrite (header_post_err _ _ _ _ _ Hp) in He'. discriminate.
  - unfold flush_state in He'. rewrite Hr in He'. discriminate.
  - destruct (Ht He) as (Hd & Hs0 & Hw).
    destruct (writeHeader_inv _ _ _ _ _ Hp) as (c' & tr & Hz & _).
    destruct (flushed_frame _ _ Hf) as (Hd2 & Hs2 & Hw2 & _).
    rewrite Hz in Hd2, Hs2, Hw2. fields.
    destruct Hs as [Hacc | content c tl d' Hacc Hg Hck Hln Hcr Htr Hcomb].
    + inversion Hdesc as [| blob0 d0 Hacc0 Hend | blob0 Hacc0]; subst;
        [congruence|].
      rewrite app_nil_r, Hd2, Hs2, Hw2. auto.
    + inversion Hdesc as [| blob0 d0 Hacc0 Hend | blob0 Hacc0]; subst;
        [|congruence].
      apply accepted_true in Hacc. destruct Hacc as [Hlen _].
      destruct (trailer_fields _ _ Hlen Hend) as [Hck' Hln'].
      rewrite Hck' in Hck. rewrite Hln' in Hln.
      injection Hck as <-. injection Hln as <-.
      rewrite (uint32_small (len d)) in *
        by (pose proof (len_nonneg d); lia).
      unfold splice_state. fields.
      rewrite Hd2, Hd in Hcomb. unfold crc32.ChecksumIEEE at 1 in Hcomb.
      rewrite crc32Combine_Update in Hcomb.
      fold (crc32.ChecksumIEEE (acc ++ d)) in Hcomb.
      injection Hcomb as <-.
      rewrite Hs2, Hs0, Hw2, uint32_add_l, len_app. auto.
Qed.

Lemma WriteCompressed_still_open p st r st' :
  still_open st -> WriteCompressed env p st = Some (r, st') ->
  still_open st'.
Proof.
  intros Ho H. apply WriteCompressed_inv in H.
  destruct H as [e He | n e st1 He Hp | n st1 c k e He Hp Ha Hc Hr
                 | n st1 st2 r0 st0 He Hp Hf Hs]; intros He'.
  - congruence.
  - rewrite (header_post_err _ _ _ _ _ Hp) in He'. discriminate.
  - unfold flush_state in He'. rewrite Hr in He'. discriminate.
  - destruct (writeHeader_inv _ _ _ _ _ Hp) as (c' & tr & Hz & _).
    destruct (flushed_frame _ _ Hf) as (_ & _ & _ & Hc2).
    rewrite Hz in Hc2. fields.
    destruct Hs as [Hacc | content c tl d' Hacc Hg Hck Hln Hcr Htr Hcomb].
    + rewrite Hc2. auto.
    + unfold splice_state. fields. rewrite Hc2. auto.
Qed.

(** A run of writes and splices keeps the tally of what it describes. *)
Lemma run_tally w0 ops ds :
  Forall2 describes ops ds -> Forall2 splice_fits ops ds ->
  forall acc st st',
    tally w0 acc st -> still_open st ->
    run env ops st = Some (tt, st') ->
    tally w0 (acc ++ List.concat ds) st' /\ still_open st'.
Proof.
  induction 1 as [|m d ops ds Hm Hrest IH]; intros Hfit acc st st' Ht Ho.
  - cbn [run List.concat]. unfold ret. intros [= <-].
    rewrite app_nil_r. auto.
  - inversion Hfit as [|? ? ? ? Hfm Hfrest]; subst.
    cbn [run List.concat]. unfold bind.
    destruct (invoke env m st) as [[[] st1]|] eqn:Hi; [|discriminate].
    intros Hrun. rewrite app_assoc.
    apply (IH Hfrest (acc ++ d) st1 st'); [| |exact Hrun].
    + destruct Hm as [p | blob d Hacc Hend | blob Hacc];
        cbn [invoke] in Hi; unfold bind, ret in Hi.
      * destruct (Write env p st) as [[r s]|] eqn:Hw; [|discriminate].
        injection Hi as <-. apply (Write_tally _ _ _ _ _ _ Ht Hw).
      * destruct (WriteCompressed env blob st) as [[r s]|] eqn:Hw;
          [|discriminate].
        injection Hi as <-.
        refine (WriteCompressed_tally _ _ _ _ _ _ _ Ht _ Hfm Hw).
        constructor; assumption.
      * destruct (WriteCompressed env blob st) as [[r s]|] eqn:Hw;
          [|discriminate].
        injection Hi as <-.
        refine (WriteCompressed_tally _ _ _ _ _ _ _ Ht _ Hfm Hw).
        apply describes_rejected. assumption.
    + destruct Hm as [p | blob d Hacc Hend | blob Hacc];
        cbn [invoke] in Hi; unfold bind, ret in Hi.
      * destruct (Write env p st) as [[r s]|] eqn:Hw; [|discriminate].
        injection Hi as <-. apply (Write_still_open _ _ _ _ Ho Hw).
      * destruct (WriteCompressed env blob st) as [[r s]|] eqn:Hw;
          [|discriminate].
        injection Hi as <-.
        apply (WriteCompressed_still_open _ _ _ _ Ho Hw).
      * destruct (WriteCompressed env blob st) as [[r s]|] eqn:Hw;
          [|discriminate].
        injection Hi as <-.
        apply (WriteCompressed_still_open _ _ _ _ Ho Hw).
Qed.

End Tally.

(** C1, as the code has it.  Take any sequence of [Write] and
    [WriteCompressed] calls on a fresh writer, each with the content it
    adds to the stream: the payload for a [Write], the decompressed
    content for a blob that is spliced (nothing for a blob that is
    rejected), where a spliced blob ends with the gzip trailer of its
    content and that content is shorter than 2^32 bytes.  If the [Close]
    that follows returns nil, then digest is the CRC32 of the
    concatenated content, size is its length modulo 2^32, and the last
    call of [Close] wrote the eight trailer bytes to the destination:
    that CRC32, little endian, then that length, little endian. *)
Theorem Close_trailer_matches_content (env : environment) (w0 : ioWriter)
    (level0 : Z) (st0 : state) (ops : list method) (ds : list (list byte))
    (st' : state) :
  fresh w0 level0 = Some st0 ->
  Forall2 describes ops ds -> Forall2 splice_fits ops ds ->
  bind (run env ops) (fun _ => Close env) st0 = Some (None, st') ->
  digest (zw st') = crc32.ChecksumIEEE (List.concat ds)
  /\ size (zw st') = uint32 (len (List.concat ds))
  /\ exists pre,
       log st'
       = pre ++ [(io_Write w0 TrailerPart (gzip_trailer (List.concat ds)),
                  Done)].
Proof.
  intros Hfresh Hdesc Hfit. unfold bind.
  destruct (run env ops st0) as [[[] st]|] eqn:Hrun; [|discriminate].
  intros Hclose.
  apply fresh_inv in Hfresh. destruct Hfresh as [_ Hst0].
  assert (Ht0 : tally w0 [] st0) by (subst st0; intros _; repeat split).
  assert (Ho0 : still_open st0) by (subst st0; intros _; reflexivity).
  destruct (run_tally env w0 ops ds Hdesc Hfit [] st0 st Ht0 Ho0 Hrun)
    as [Ht Ho].
  cbn [app] in Ht.
  pose proof (Close_inv _ _ _ _ Hclose) as Hcase.
  destruct (Close_case_done _ _ _ _ Hcase) as [He' _].
  assert (He : err (zw st) = None).
  { destruct (err (zw st)) as [e|] eqn:E; [|reflexivity].
    rewrite (Close_latched env st e E) in Hclose. discriminate. }
  destruct (Close_case_success _ _ _ He (Ho He) Hcase)
    as (st1 & c & Hr & Hc & Hz & Hl).
  assert (Ht1 : tally w0 (List.concat ds) st1).
  { destruct Hr as [[Hh ->] | [Hh (r0 & Hw & He1)]].
    - exact Ht.
    - rewrite <- (app_nil_r (List.concat ds)).
      refine (Write_tally env _ _ _ (closing st) _ _ _ Hw).
      unfold tally, closing. fields. exact Ht. }
  assert (He1 : err (zw st1) = None).
  { destruct Hr as [[Hh ->] | [Hh (r0 & Hw & He1)]]; auto. }
  destruct (Ht1 He1) as (Hd & Hs & Hw).
  rewrite Hz, Hl. cbn [digest size with_err].
  split; [exact Hd|]. split; [exact Hs|].
  exists (log st1 ++ [(flate_Close c, Done)]).
  rewrite <- app_assoc, Hd, Hs, Hw. reflexivity.
Qed.

Lemma Close_trailer_matches_content_witness :
  fresh 1%nat DefaultCompression = Some st_fresh
  /\ Forall2 describes foo_bar [[x66; x6f; x6f]; [x62; x61; x72]]
  /\ Forall2 splice_fits foo_bar [[x66; x6f; x6f]; [x62; x61; x72]]
  /\ bind (run reliable foo_bar) (fun _ => Close reliable) st_fresh
     = Some (None, st_foo_bar_closed)
  /\ digest (zw st_foo_bar_closed)
     = crc32.ChecksumIEEE
         (List.concat [[x66; x6f; x6f]; [x62; x61; x72]])
  /\ size (zw st_foo_bar_closed)
     = uint32 (len (List.concat [[x66; x6f; x6f]; [x62; x61; x72]]))
  /\ exists pre,
       log st_foo_bar_closed
       = pre ++ [(io_Write 1%nat TrailerPart
                    (gzip_trailer
                       (List.concat [[x66; x6f; x6f]; [x62; x61; x72]])),
                  Done)].
Proof.
  assert (Hd : Forall2 describes foo_bar [[x66; x6f; x6f]; [x62; x61; x72]]).
  { constructor; [apply describes_raw|].
    constructor; [|constructor].
    apply describes_spliced; reflexivity. }
  assert (Hf : Forall2 splice_fits foo_bar
                 [[x66; x6f; x6f]; [x62; x61; x72]]).
  { constructor; [exact I|]. constructor; [|constructor].
    unfold splice_fits, len. cbn [List.length Z.of_nat]. lia. }
  split; [reflexivity|]. split; [exact Hd|]. split; [exact Hf|].
  split; [reflexivity|].
  apply (Close_trailer_matches_content reliable 1%nat DefaultCompression
           st_fresh foo_bar [[x66; x6f; x6f]; [x62; x61; x72]]
           st_foo_bar_closed);
    [reflexivity | exact Hd | exact Hf | reflexivity].
Defined.

(* ================================================================== *)
(** ** CRC32 over a run of zero bytes, by repeated squaring *)

Lemma shift0_linear : linear32 shift0.
Proof.
  constructor.
  - reflexivity.
  - intros a b. apply update_byte_lxor.
  - intros c Hc. apply update_byte_range. exact Hc.
Qed.

Lemma iter_linear f n : linear32 f -> linear32 (fun c => Nat.iter n f c).
Proof.
  intros Hf. induction n as [|n IH].
  - constructor; auto.
  - destruct IH as [I0 Ix Ir]. destruct Hf as [F0 Fx Fr].
    constructor; cbv beta in *.
    + rewrite Nat.iter_succ, I0. exact F0.
    + intros a b. rewrite !Nat.iter_succ, Ix. apply Fx.
    + intros c Hc. rewrite Nat.iter_succ. apply Fr, Ir, Hc.
Qed.

(** A register is its lowest bit next to the rest, one place up. *)
Lemma shiftl_low_bit c k :
  0 <= k ->
  Z.shiftl c k
  = Z.lxor (if Z.odd c then 2 ^ k else 0)
           (Z.shiftl (Z.shiftr c 1) (k + 1)).
Proof.
  intros Hk. apply Z.bits_inj'. intros j Hj.
  rewrite Z.lxor_spec, !Z.shiftl_spec by lia.
  destruct (Z.lt_trichotomy j k) as [Hlt | [-> | Hgt]].
  - rewrite (Z.testbit_neg_r c (j - k)) by lia.
    rewrite (Z.testbit_neg_r _ (j - (k + 1))) by lia.
    destruct (Z.odd c); [rewrite Z.pow2_bits_false by lia|
                         rewrite Z.testbit_0_l]; reflexivity.
  - rewrite Z.sub_diag, Z.bit0_odd.
    rewrite (Z.testbit_neg_r _ (k - (k + 1))) by lia.
    destruct (Z.odd c); [rewrite Z.pow2_bits_true by lia|
                         rewrite Z.testbit_0_l]; reflexivity.
  - rewrite Z.shiftr_spec by lia.
    replace (j - (k + 1) + 1) with (j - k) by lia.
    destruct (Z.odd c); [rewrite Z.pow2_bits_false by lia|
                         rewrite Z.testbit_0_l]; reflexivity.
Qed.

Lemma apply_cols_from f :
  f 0 = 0 -> (forall a b, f (Z.lxor a b) = Z.lxor (f a) (f b)) ->
  forall n k c,
    0 <= c < 2 ^ Z.of_nat n ->
    apply_cols (map (fun i => f (2 ^ Z.of_nat i)) (seq k n)) c
    = f (Z.shiftl c (Z.of_nat k)).
Proof.
  intros F0 Fx. induction n as [|n IH]; intros k c Hc.
  - cbn [seq map apply_cols]. change (2 ^ Z.of_nat 0) with 1 in Hc.
    assert (c = 0) as -> by lia. rewrite Z.shiftl_0_l. auto.
  - cbn [seq map apply_cols].
    rewrite IH.
    + rewrite (shiftl_low_bit c (Z.of_nat k)) by lia.
      rewrite Fx. f_equal.
      * destruct (Z.odd c); auto.
      * f_equal. f_equal. lia.
    + rewrite Z.shiftr_div_pow2 by lia. change (2 ^ 1) with 2.
      rewrite Nat2Z.inj_succ, Z.pow_succ_r in Hc by lia.
      split; [apply Z.div_pos; lia|].
      apply Z.div_lt_upper_bound; lia.
Qed.

(** The column form of a linear map computes the map. *)
Lemma apply_cols_of f c :
  linear32 f -> 0 <= c < 2 ^ 32 -> apply_cols (cols_of f) c = f c.
Proof.
  intros [F0 Fx _] Hc. unfold cols_of.
  rewrite (apply_cols_from f F0 Fx 32 0 c) by exact Hc.
  rewrite Z.shiftl_0_r. reflexivity.
Qed.

Lemma square_cols_of f :
  linear32 f -> square_cols (cols_of f) = cols_of (fun c => f (f c)).
Proof.
  intros Hf. unfold square_cols, cols_of at 2 3.
  rewrite map_map. apply map_ext_in. intros i Hi.
  apply apply_cols_of; [exact Hf|].
  apply (lin_range f Hf). apply in_seq in Hi.
  split; [apply Z.pow_nonneg; lia|].
  apply Z.pow_lt_mono_r; lia.
Qed.

Lemma cols_of_ext f g : (forall c, f c = g c) -> cols_of f = cols_of g.
Proof.
  intros H. unfold cols_of. apply map_ext. intros i. apply H.
Qed.

Lemma iter_double {A} (f : A -> A) n x :
  Nat.iter (n + n) f x = Nat.iter n f (Nat.iter n f x).
Proof.
  induction n as [|n IH]; [reflexivity|].
  rewrite Nat.add_succ_r, Nat.add_succ_l, !Nat.iter_succ, IH.
  rewrite <- Nat.iter_succ, Nat.iter_succ_r. reflexivity.
Qed.

Lemma pow2_cols_iter k :
  pow2_cols k = cols_of (fun c => Nat.iter (2 ^ k) shift0 c).
Proof.
  induction k as [|k IH].
  - reflexivity.
  - unfold pow2_cols in *. rewrite Nat.iter_succ, IH.
    rewrite square_cols_of by (apply iter_linear, shift0_linear).
    apply cols_of_ext. intros c.
    rewrite <- iter_double. f_equal.
    rewrite Nat.pow_succ_r'. lia.
Qed.

(** [2^k] zero bytes through the loop of [simpleUpdate]. *)
Lemma zero_run_pow2 k c :
  0 <= c < 2 ^ 32 ->
  fold_left (crc32.update_byte crc32.IEEETable) (repeat x00 (2 ^ k)) c
  = apply_cols (pow2_cols k) c.
Proof.
  intros Hc. rewrite pow2_cols_iter.
  rewrite apply_cols_of by
    (auto; apply (iter_linear shift0 (2 ^ k)), shift0_linear).
  generalize (2 ^ k)%nat. intros n. revert c Hc.
  induction n as [|n IH]; intros c Hc; [reflexivity|].
  cbn [repeat fold_left]. rewrite Nat.iter_succ_r.
  apply IH. apply update_byte_range. exact Hc.
Qed.

(* ================================================================== *)
(** ** Members with a plain header *)

Lemma index_app_l {A} (p q : list A) i :
  0 <= i < len p -> index (p ++ q) i = index p i.
Proof.
  intros Hi. unfold index. rewrite len_app.
  pose proof (len_nonneg q).
  destruct (0 <=? i) eqn:E1; [|apply Z.leb_gt in E1; lia].
  destruct (i <? len p) eqn:E2; [|apply Z.ltb_ge in E2; lia].
  destruct (i <? len p + len q) eqn:E3; [|apply Z.ltb_ge in E3; lia].
  cbn [andb]. apply nth_error_app1. unfold len in Hi. lia.
Qed.

Lemma skipn_app_all {A} (p q : list A) n :
  n = List.length p -> skipn n (p ++ q) = q.
Proof.
  intros ->. rewrite skipn_app, skipn_all, Nat.sub_diag. reflexivity.
Qed.

Lemma firstn_app_all {A} (p q : list A) n :
  n = List.length p -> firstn n (p ++ q) = p.
Proof.
  intros ->. rewrite firstn_app, firstn_all, Nat.sub_diag.
  cbn [firstn]. apply app_nil_r.
Qed.

Section Plain_member.

Variables body trailer : list byte.
Hypothesis trailer_length : List.length trailer = 8%nat.

Lemma len_plain_member : len (plain_member body trailer) = len body + 18.
Proof.
  unfold plain_member. rewrite !len_app. unfold len at 1 3.
  rewrite trailer_length. cbn [plain_header List.length]. lia.
Qed.

Lemma plain_header_length :
  getHeaderLength (plain_member body trailer) = Some 10.
Proof.
  pose proof (len_nonneg body) as Hb.
  unfold getHeaderLength. cbv zeta. rewrite len_plain_member.
  destruct (len body + 18 <? 10) eqn:E; [apply Z.ltb_lt in E; lia|].
  unfold plain_member.
  rewrite !index_app_l by (change (len plain_header) with 10; lia).
  reflexivity.
Qed.

Lemma plain_deflate_slice :
  getDeflateSlice (plain_member body trailer) = Some (body, true).
Proof.
  pose proof (len_nonneg body) as Hb.
  unfold getDeflateSlice. rewrite plain_header_length. cbn [obind].
  change (10 <? 0) with false. cbv iota.
  rewrite len_plain_member.
  destruct (len body + 18 <? 10 + 8) eqn:E; [apply Z.ltb_lt in E; lia|].
  rewrite slice_Some by (rewrite ?len_plain_member; lia).
  cbn [obind]. unfold plain_member.
  rewrite skipn_app_all by reflexivity.
  rewrite firstn_app_all by (unfold len; lia).
  reflexivity.
Qed.

Lemma plain_trailerChecksum :
  trailerChecksum (plain_member body trailer)
  = binary.Uint32 (firstn 4 trailer).
Proof.
  pose proof (len_nonneg body) as Hb.
  unfold trailerChecksum. rewrite len_plain_member.
  rewrite slice_Some by (rewrite ?len_plain_member; lia).
  cbn [obind]. unfold plain_member. rewrite app_assoc.
  rewrite skipn_app_all
    by (rewrite length_app; cbn [plain_header List.length];
        unfold len; lia).
  replace (Z.to_nat (len body + 18 - 4 - (len body + 18 - 8)))
    with 4%nat by lia.
  reflexivity.
Qed.

Lemma plain_trailerLength :
  trailerLength (plain_member body trailer)
  = binary.Uint32 (skipn 4 trailer).
Proof.
  pose proof (len_nonneg body) as Hb.
  unfold trailerLength, slice_from. rewrite len_plain_member.
  rewrite slice_Some by (rewrite ?len_plain_member; lia).
  cbn [obind]. unfold plain_member. rewrite app_assoc.
  replace (Z.to_nat (len body + 18 - 4))
    with (4 + List.length (plain_header ++ body))%nat
    by (rewrite length_app; cbn [plain_header List.length];
        unfold len; lia).
  rewrite <- skipn_skipn, skipn_app_all by reflexivity.
  rewrite firstn_all2; [reflexivity|].
  rewrite length_skipn, trailer_length. lia.
Qed.

Lemma plain_accepted : accepted (plain_member body trailer) = true.
Proof.
  pose proof (len_nonneg body) as Hb.
  unfold accepted. rewrite plain_deflate_slice, len_plain_member.
  destruct (18 <=? len body + 18) eqn:E; [reflexivity|].
  apply Z.leb_gt in E. lia.
Qed.

Lemma plain_ends_with content :
  trailer = gzip_trailer content ->
  ends_with_trailer_of (plain_member body trailer) content.
Proof.
  intros Ht. unfold ends_with_trailer_of, plain_member.
  rewrite <- Ht, app_assoc. apply skipn_app_all.
  rewrite !length_app, trailer_length. lia.
Qed.

End Plain_member.

(* ================================================================== *)
(** ** Splicing a member whose ISIZE field has wrapped around *)

Section Wrapped_member.

Variable body : list byte.

Local Abbreviation st_wrapped := (st_wrapped body).
Local Abbreviation st_wrapped_closed := (st_wrapped_closed body).

Lemma WriteCompressed_wrapped :
  WriteCompressed reliable (plain_member body trailer_4GiB) st_written
  = Some ((len body, None), st_wrapped).
Proof.
  rewrite (WriteCompressed_unfold reliable _ st_written 10 None
             st_written_header) by reflexivity.
  change (WriteCompressed_flush reliable st_written_header)
    with (Some (@None error, st_written_synced)).
  cbv iota.
  rewrite (splice_accepted reliable 10 _ st_written_synced body
             3523407757 0 31158534).
  - reflexivity.
  - rewrite len_plain_member by reflexivity.
    pose proof (len_nonneg body). lia.
  - apply plain_deflate_slice. reflexivity.
  - rewrite plain_trailerChecksum by reflexivity. reflexivity.
  - rewrite plain_trailerLength by reflexivity. reflexivity.
  - lia.
  - reflexivity.
Qed.

Lemma Close_wrapped :
  Close reliable st_wrapped = Some (None, st_wrapped_closed).
Proof.
  rewrite Close_unfold by reflexivity.
  change (checkWroteHeader (zw st_wrapped)) with true. cbv iota.
  rewrite (Close_finish_eq reliable _
             {| fw_dst := 1%nat; fw_level := -1 |}) by reflexivity.
  reflexivity.
Qed.

Lemma run_wrapped :
  bind (run reliable
          [CallWrite [x41];
           CallWriteCompressed (plain_member body trailer_4GiB)])
       (fun _ => Close reliable) st_fresh
  = Some (None, st_wrapped_closed).
Proof.
  cbn [run invoke]. unfold bind at 1 2 3.
  change (Write reliable [x41] st_fresh)
    with (Some ((1, @None error), st_written)).
  cbv iota beta. unfold ret at 1. cbv iota beta.
  unfold bind at 1 2. rewrite WriteCompressed_wrapped.
  cbv iota beta. unfold ret. cbv iota beta.
  apply Close_wrapped.
Qed.

Lemma wrapped_digest : digest (zw st_wrapped_closed) = 31158534.
Proof. reflexivity. Qed.

Lemma wrapped_trailer :
  log st_wrapped_closed
  = log st_wrapped
    ++ [(flate_Close {| fw_dst := 1%nat; fw_level := -1 |}, Done);
        (io_Write 1%nat TrailerPart
           [x06; x71; xdb; x01; x01; x00; x00; x00], Done)].
Proof.
  unfold st_wrapped_closed, Close_finish_state.
  change (error_of (reliable (log (closing st_wrapped))
                      (flate_Close {| fw_dst := 1%nat; fw_level := -1 |})))
    with (@None error).
  cbv iota zeta. cbn [log]. rewrite <- app_assoc. reflexivity.
Qed.

End Wrapped_member.

(** The CRC32 of 2^32 zero bytes, and of "A" followed by them. *)
Lemma ChecksumIEEE_zeros_4GiB : crc32.ChecksumIEEE zeros_4GiB = 3523407757.
Proof.
  unfold crc32.ChecksumIEEE, crc32.Update, crc32.simpleUpdate, zeros_4GiB.
  cbv zeta. rewrite zero_run_pow2 by (vm_compute; split; congruence).
  vm_compute. reflexivity.
Qed.

Lemma ChecksumIEEE_cons x p :
  crc32.ChecksumIEEE (x :: p)
  = not32 (fold_left (crc32.update_byte crc32.IEEETable) p
             (crc32.update_byte crc32.IEEETable (not32 0) x)).
Proof. reflexivity. Qed.

Lemma ChecksumIEEE_A_zeros_4GiB :
  crc32.ChecksumIEEE (x41 :: zeros_4GiB) = 2830855355.
Proof.
  rewrite ChecksumIEEE_cons. unfold zeros_4GiB.
  rewrite zero_run_pow2
    by (apply update_byte_range; vm_compute; split; congruence).
  vm_compute. reflexivity.
Qed.

Lemma len_zeros_4GiB : len zeros_4GiB = 2 ^ 32.
Proof.
  unfold zeros_4GiB. rewrite len_repeat, Nat2Z.inj_pow. reflexivity.
Qed.

Lemma concat_cons_pair {A} (x : A) (q : list A) :
  List.concat [[x]; q] = x :: q.
Proof. cbn [List.concat app]. rewrite app_nil_r. reflexivity. Qed.

Lemma len_cons {A} (x : A) (p : list A) : len (x :: p) = 1 + len p.
Proof. unfold len. cbn [List.length]. lia. Qed.

(** C1 as stated fails on a member of 2^32 bytes or more.  Write "A" to a
    fresh writer, splice the gzip member of 2^32 zero bytes (its ISIZE
    field is 2^32 mod 2^32 = 0, so [crc32Combine] is called with length 0
    and leaves the front checksum as it is), and close.  [Close] returns
    nil and writes the trailer 06 71 db 01 01 00 00 00: digest is
    31158534, while the CRC32 of the content is 2830855355. *)
Lemma Close_trailer_wrong_for_wrapped_ISIZE :
  fresh 1%nat DefaultCompression = Some st_fresh
  /\ Forall2 describes write_then_4GiB [[x41]; zeros_4GiB]
  /\ len zeros_4GiB = 2 ^ 32
  /\ bind (run reliable write_then_4GiB) (fun _ => Close reliable) st_fresh
     = Some (None, st_wrapped_closed deflate_4GiB)
  /\ digest (zw (st_wrapped_closed deflate_4GiB)) = 31158534
  /\ crc32.ChecksumIEEE (List.concat [[x41]; zeros_4GiB]) = 2830855355
  /\ (exists pre,
        log (st_wrapped_closed deflate_4GiB)
        = pre ++ [(io_Write 1%nat TrailerPart
                     [x06; x71; xdb; x01; x01; x00; x00; x00], Done)])
  /\ gzip_trailer (List.concat [[x41]; zeros_4GiB])
     = [xbb; x6c; xbb; xa8; x01; x00; x00; x00]
  /\ digest (zw (st_wrapped_closed deflate_4GiB))
     <> crc32.ChecksumIEEE (List.concat [[x41]; zeros_4GiB]).
Proof.
  split; [reflexivity|].
  split.
  { constructor; [apply describes_raw|].
    constructor; [|constructor].
    apply describes_spliced.
    - apply plain_accepted. reflexivity.
    - apply plain_ends_with; [reflexivity|].
      unfold gzip_trailer.
      rewrite ChecksumIEEE_zeros_4GiB, len_zeros_4GiB. reflexivity. }
  split; [apply len_zeros_4GiB|].
  split; [apply run_wrapped|].
  split; [apply wrapped_digest|].
  rewrite concat_cons_pair.
  split; [apply ChecksumIEEE_A_zeros_4GiB|].
  split.
  { rewrite wrapped_trailer.
    exists (log (st_wrapped deflate_4GiB)
            ++ [(flate_Close {| fw_dst := 1%nat; fw_level := -1 |}, Done)]).
    rewrite <- app_assoc. reflexivity. }
  split.
  { unfold gzip_trailer.
    rewrite ChecksumIEEE_A_zeros_4GiB.
    rewrite len_cons, len_zeros_4GiB. vm_compute. reflexivity. }
  rewrite wrapped_digest, ChecksumIEEE_A_zeros_4GiB. discriminate.
Qed.

(** The condition on the trailer of a spliced blob is needed as well.  The
    blob of two gzip members, of "a" and of "b", decompresses to "ab".
    [WriteCompressed] accepts it, since the parser looks at the first
    header only, and reads the last eight bytes, the trailer of "b":
    after the splice into a fresh writer [Close] returns nil and writes
    the trailer f9 ef be 71 01 00 00 00, digest 1908338681 = CRC32("b")
    and size 1, where the content "ab" has the CRC32 2659403885 and the
    length 2. *)
Lemma Close_trailer_of_two_member_blob :
  accepted blob_two_members = true
  /\ ends_with_trailer_of blob_two_members [x62]
  /\ ~ ends_with_trailer_of blob_two_members [x61; x62]
  /\ bind (run reliable [CallWriteCompressed blob_two_members])
          (fun _ => Close reliable) st_fresh
     = Some (None, st_two_members_closed)
  /\ digest (zw st_two_members_closed) = 1908338681
  /\ crc32.ChecksumIEEE [x62] = 1908338681
  /\ size (zw st_two_members_closed) = 1
  /\ crc32.ChecksumIEEE [x61; x62] = 2659403885
  /\ log st_two_members_closed
     = removelast (log st_two_members_closed)
       ++ [(io_Write 1%nat TrailerPart
              [xf9; xef; xbe; x71; x01; x00; x00; x00], Done)].
Proof.
  split; [reflexivity|]. split; [reflexivity|].
  split; [unfold ends_with_trailer_of; vm_compute; discriminate|].
  repeat split.
Qed.

(* ================================================================== *)
(** * Further properties of the package *)

(* ================================================================== *)
(** ** The constructors *)

(** X1.  [NewGzipStreamWriterLevel] accepts exactly the levels from
    [HuffmanOnly] (-2) to [BestCompression] (9).  For those it returns a
    writer on the given destination with that level, OS = 255, the other
    header fields empty, no compressor, no error, digest and size 0 and
    the three flags clear, and a nil error; for every other level it
    returns nil and an error that wraps [ErrInvalidCompressionLevel].  It
    calls neither the destination nor the compressor.
    [NewGzipStreamWriter] is the constructor at [DefaultCompression] and
    never returns nil. *)
Theorem NewGzipStreamWriterLevel_checks_level (w0 : ioWriter) (level0 : Z)
    (tr : list event) :
  (-2 <= level0 <= 9 ->
   exists z,
     NewGzipStreamWriterLevel w0 level0 tr = Some ((Some z, None), tr)
     /\ w z = w0 /\ level z = level0
     /\ Header z = {| Comment := []; Extra := None; ModTime := zeroTime;
                      Name := []; OS := xff |}
     /\ compressor z = None /\ err z = None
     /\ digest z = 0 /\ size z = 0
     /\ checkWroteHeader z = false /\ checkClosed z = false
     /\ checkActiveDeflateStream z = false)
  /\ (level0 < -2 \/ 9 < level0 ->
      NewGzipStreamWriterLevel w0 level0 tr
      = Some ((None,
               Some (Errorf "%w: %d"%string ErrInvalidCompressionLevel)),
              tr))
  /\ (exists z,
        NewGzipStreamWriter w0 tr = Some (Some z, tr)
        /\ NewGzipStreamWriterLevel w0 DefaultCompression tr
           = Some ((Some z, None), tr)).
Proof.
  assert (Hok : forall l, -2 <= l <= 9 ->
            NewGzipStreamWriterLevel w0 l tr
            = Some ((Some {| Header := {| Comment := []; Extra := None;
                                          ModTime := zeroTime; Name := [];
                                          OS := xff |};
                             w := w0; compressor := None; level := l;
                             err := None; digest := 0; size := 0;
                             stateFlags := 0 |}, None), tr)).
  { intros l Hl. unfold NewGzipStreamWriterLevel, HuffmanOnly, BestCompression.
    destruct (l <? -2) eqn:E1; [apply Z.ltb_lt in E1; lia|].
    destruct (9 <? l) eqn:E2; [apply Z.ltb_lt in E2; lia|].
    reflexivity. }
  split; [|split].
  - intros Hl. eexists. split; [apply Hok, Hl|]. repeat split.
  - intros Hl. unfold NewGzipStreamWriterLevel, HuffmanOnly, BestCompression.
    destruct Hl as [Hl | Hl].
    + apply Z.ltb_lt in Hl. rewrite Hl. reflexivity.
    + apply Z.ltb_lt in Hl. rewrite Hl, orb_true_r. reflexivity.
  - eexists. unfold NewGzipStreamWriter.
    rewrite (Hok DefaultCompression) by (unfold DefaultCompression; lia).
    split; reflexivity.
Qed.

(* ================================================================== *)
(** ** The state flags *)

Lemma land_range n a b :
  0 <= n -> 0 <= a < 2 ^ n -> 0 <= b -> 0 <= Z.land a b < 2 ^ n.
Proof.
  intros Hn Ha Hb.
  assert (Hnn : 0 <= Z.land a b) by (apply Z.land_nonneg; lia).
  split; [exact Hnn|].
  assert (Hs : Z.shiftr (Z.land a b) n = 0).
  { rewrite Z.shiftr_land, (Z.shiftr_div_pow2 a) by lia.
    rewrite Z.div_small by lia. apply Z.land_0_l. }
  rewrite Z.shiftr_div_pow2 in Hs by lia.
  apply Z.div_small_iff in Hs; lia.
Qed.

(** X2.  The three flags share [stateFlags] without touching each other:
    each setter makes its own check return the value set and leaves the
    other two checks as they were, whatever the field held before; and a
    field that is a [uint32] stays one. *)
Theorem state_flags_are_independent (z : GzipStreamWriter) (v : bool) :
  (checkWroteHeader (setWroteHeader v z) = v
   /\ checkClosed (setWroteHeader v z) = checkClosed z
   /\ checkActiveDeflateStream (setWroteHeader v z)
      = checkActiveDeflateStream z)
  /\ (checkWroteHeader (setClosed v z) = checkWroteHeader z
      /\ checkClosed (setClosed v z) = v
      /\ checkActiveDeflateStream (setClosed v z)
         = checkActiveDeflateStream z)
  /\ (checkWroteHeader (setActiveDeflateStream v z) = checkWroteHeader z
      /\ checkClosed (setActiveDeflateStream v z) = checkClosed z
      /\ checkActiveDeflateStream (setActiveDeflateStream v z) = v)
  /\ (0 <= stateFlags z < 2 ^ 32 ->
      0 <= stateFlags (setWroteHeader v z) < 2 ^ 32
      /\ 0 <= stateFlags (setClosed v z) < 2 ^ 32
      /\ 0 <= stateFlags (setActiveDeflateStream v z) < 2 ^ 32).
Proof.
  split; [|split; [|split]].
  - split; [apply wroteHeader_setWroteHeader|].
    split; [apply closed_setWroteHeader | apply active_setWroteHeader].
  - split; [apply wroteHeader_setClosed|].
    split; [apply closed_setClosed | apply active_setClosed].
  - split; [apply wroteHeader_setActive|].
    split; [apply closed_setActive | apply active_setActive].
  - intros Hz.
    unfold setWroteHeader, setClosed, setActiveDeflateStream.
    cbn [stateFlags with_stateFlags].
    split; [|split]; apply (lor_range 32); try lia;
      try (apply land_range; [lia | exact Hz | unfold not32; cbn; lia]);
      destruct v; cbn; lia.
Qed.

(* ================================================================== *)
(** ** The algebra of [crc32Combine] *)

Lemma zero_run_iter n c :
  fold_left (crc32.update_byte crc32.IEEETable) (repeat x00 n) c
  = Nat.iter n shift0 c.
Proof.
  revert c. induction n as [|n IH]; intros c; [reflexivity|].
  cbn [repeat fold_left]. rewrite Nat.iter_succ_r. apply IH.
Qed.

(** In closed form: the front checksum moved across [n] zero bytes, xor
    the back checksum. *)
Lemma crc32Combine_shift front back n :
  0 <= n ->
  crc32Combine front back n
  = Some (Z.lxor (Nat.iter (Z.to_nat n) shift0 front) back).
Proof.
  intros Hn. rewrite <- (Z2Nat.id n) at 1 by exact Hn.
  rewrite crc32Combine_eq, zero_run_iter. reflexivity.
Qed.

Lemma iter_shift0_lxor n a b :
  Nat.iter n shift0 (Z.lxor a b)
  = Z.lxor (Nat.iter n shift0 a) (Nat.iter n shift0 b).
Proof.
  apply (lin_lxor _ (iter_linear shift0 n shift0_linear)).
Qed.

(** X3.  [crc32Combine] is associative: combining three checksums from the
    left gives what combining them from the right gives, the front then
    moved across both lengths.  This holds for all 32-bit words, not only
    for checksums of actual strings, and for all lengths whose sum is
    below 2^32: these are lengths that [make] serves where [int] has 64
    bits (given the memory), so that both sides return. *)
Theorem crc32Combine_assoc (a b c n m : Z) :
  0 <= n -> 0 <= m -> n + m < 2 ^ 32 ->
  (ab <- crc32Combine a b n ;; crc32Combine ab c m)%panic
  = (bc <- crc32Combine b c m ;; crc32Combine a bc (n + m))%panic
  /\ exists d, (ab <- crc32Combine a b n ;; crc32Combine ab c m)%panic
               = Some d.
Proof.
  intros Hn Hm _.
  rewrite (crc32Combine_shift a b n Hn), (crc32Combine_shift b c m Hm).
  cbn [obind].
  rewrite !crc32Combine_shift by lia.
  split; [|eauto].
  f_equal. rewrite iter_shift0_lxor, Z2Nat.inj_add by lia.
  rewrite (Nat.add_comm (Z.to_nat n)), Nat.iter_add.
  apply Z.lxor_assoc.
Qed.

Lemma crc32Combine_assoc_witness :
  0 <= 3 /\ 0 <= 5 /\ 3 + 5 < 2 ^ 32
  /\ (ab <- crc32Combine 0xd3d99e8b 0x76ff8caa 3 ;;
      crc32Combine ab 0x3610a686 5)%panic
     = (bc <- crc32Combine 0x76ff8caa 0x3610a686 5 ;;
        crc32Combine 0xd3d99e8b bc (3 + 5))%panic.
Proof.
  assert (H3 : 0 <= 3) by lia. assert (H5 : 0 <= 5) by lia.
  assert (H8 : 3 + 5 < 2 ^ 32) by lia.
  split; [exact H3|]. split; [exact H5|]. split; [exact H8|].
  exact (proj1 (crc32Combine_assoc 0xd3d99e8b 0x76ff8caa 0x3610a686 3 5
                  H3 H5 H8)).
Defined.

(** X4.  The edges of [crc32Combine].  With length 0 it is the exclusive
    or of its arguments, so 0, the CRC32 of the empty string, is a right
    unit; 0 is a left unit at every length from 0 to 2^32 - 1, the
    lengths that [make] serves where [int] has 64 bits (given the
    memory); and a negative length panics in [make]. *)
Theorem crc32Combine_units (a b n : Z) :
  crc32Combine a b 0 = Some (Z.lxor a b)
  /\ crc32.ChecksumIEEE [] = 0
  /\ crc32Combine a (crc32.ChecksumIEEE []) 0 = Some a
  /\ (0 <= n < 2 ^ 32 ->
      crc32Combine (crc32.ChecksumIEEE []) b n = Some b)
  /\ (n < 0 -> crc32Combine a b n = None).
Proof.
  split; [|split; [|split; [|split]]].
  - rewrite crc32Combine_shift by lia. reflexivity.
  - reflexivity.
  - rewrite crc32Combine_shift by lia.
    change (crc32.ChecksumIEEE []) with 0. cbn [Z.to_nat Nat.iter nat_rect].
    rewrite Z.lxor_0_r. reflexivity.
  - intros [Hn _]. rewrite crc32Combine_shift by lia.
    change (crc32.ChecksumIEEE []) with 0.
    rewrite (lin_zero _ (iter_linear shift0 (Z.to_nat n) shift0_linear)).
    reflexivity.
  - intros Hn. unfold crc32Combine, make_bytes.
    apply Z.ltb_lt in Hn. rewrite Hn. reflexivity.
Qed.

(* ================================================================== *)
(** ** The header that [writeHeader] sends *)

Lemma len_fixed_header z : len (fixed_header z) = 10.
Proof.
  unfold fixed_header, len. rewrite !length_app.
  destruct (afterEpoch _); reflexivity.
Qed.

Lemma sent_app dst what tr1 tr2 :
  sent dst what (tr1 ++ tr2) = sent dst what tr1 ++ sent dst what tr2.
Proof.
  induction tr1 as [|[c r] tr1 IH]; [reflexivity|].
  cbn [app sent]. destruct c; try exact IH.
  destruct r; [|exact IH].
  destruct (_ && _); [|exact IH].
  rewrite IH, app_assoc. reflexivity.
Qed.

Lemma sent_one dst what p :
  sent dst what [(io_Write dst what p, Done)] = p.
Proof.
  cbn [sent]. rewrite Nat.eqb_refl.
  destruct what; cbn [part_eqb andb]; apply app_nil_r.
Qed.

Section Header_exact.

Variable env : environment.

(** What a field writer sends when it returns nil, and when it sends
    nothing. *)
Lemma writeHeaderBytes_sent b st :
  post (writeHeaderBytes env b) st (fun e st' =>
    zw st' = zw st
    /\ exists tr,
         log st' = log st ++ tr /\ header_only tr
         /\ (e = None ->
             len b <= 0xffff
             /\ sent (w (zw st)) HeaderPart tr = extra_field b)
         /\ (0xffff < len b ->
             e = Some ErrHdrExtaDataTooLarge /\ tr = [])).
Proof.
  unfold writeHeaderBytes.
  destruct (0xffff <? len b) eqn:E.
  { mstep. split; [reflexivity|]. exists []. rewrite app_nil_r.
    repeat split; auto; discriminate. }
  apply Z.ltb_ge in E.
  mstep. apply post_w_Write.
  destruct (env (log st) (io_Write (w (zw st)) HeaderPart _)) as [|n1 e1]
    eqn:R1; cbn [write_result].
  2: { mstep. split; [reflexivity|]. eexists. split; [reflexivity|].
       split; [reflexivity|]. split; [discriminate | lia]. }
  mstep. apply post_w_Write. cbn [zw log].
  match goal with
  | |- context [write_result b ?r] => destruct r as [|n2 e2] eqn:R2
  end; cbn [write_result]; mstep; cbn [zw log];
    (split; [reflexivity|]);
    (eexists; split; [rewrite <- app_assoc; reflexivity|]);
    (split; [reflexivity|]); (split; [|lia]).
  - intros _. split; [exact E|].
    rewrite sent_app, !sent_one. reflexivity.
  - discriminate.
Qed.

Lemma writeHeaderString_sent s st :
  post (writeHeaderString env s) st (fun e st' =>
    zw st' = zw st
    /\ exists tr,
         log st' = log st ++ tr /\ header_only tr
         /\ (e = None ->
             existsb not_latin1 s = false
             /\ sent (w (zw st)) HeaderPart tr = string_field s)
         /\ (existsb not_latin1 s = true ->
             e = Some ErrHdrNonLatin1 /\ tr = [])).
Proof.
  unfold writeHeaderString. fold not_latin1.
  change (fun v : Z => (v =? 0) || (255 <? v)) with not_latin1.
  destruct (existsb not_latin1 s) eqn:E.
  { mstep. split; [reflexivity|]. exists []. rewrite app_nil_r.
    repeat split; auto; discriminate. }
  cbv zeta.
  assert (Hsame : forall (c : bool) (m : M (Z * option error)),
            (if c then m else m) = m) by (intros [|]; reflexivity).
  rewrite Hsame.
  mstep. apply post_w_Write.
  destruct (env (log st) (io_Write (w (zw st)) HeaderPart _)) as [|n1 e1]
    eqn:R1; cbn [write_result].
  2: { mstep. split; [reflexivity|]. eexists. split; [reflexivity|].
       split; [reflexivity|]. split; discriminate. }
  mstep. apply post_w_Write. cbn [zw log].
  match goal with
  | |- context [write_result [x00] ?r] => destruct r as [|n2 e2] eqn:R2
  end; cbn [write_result]; mstep; cbn [zw log];
    (split; [reflexivity|]);
    (eexists; split; [rewrite <- app_assoc; reflexivity|]);
    (split; [reflexivity|]); (split; [|discriminate]).
  - intros _. split; [reflexivity|].
    rewrite sent_app, !sent_one. reflexivity.
  - discriminate.
Qed.

(** One optional field of the header, and the early return behind it. *)
Lemma header_stage_exact st s acc fb (blk : M (option error))
    (K : M (Z * option error)) (n : Z) :
  header_sofar env st acc s -> n = 10 ->
  (blk = ret None /\ fb = []
   \/ exists fw,
        blk = (e <- fw ;; modify (with_err e) ;; ret e)%writer
        /\ forall s0,
             post fw s0 (fun e s' =>
               zw s' = zw s0
               /\ exists tr,
                    log s' = log s0 ++ tr
                    /\ (e = None ->
                        sent (w (zw s0)) HeaderPart tr = fb))) ->
  (forall s2, header_sofar env st (acc ++ fb) s2 ->
              post K s2 (header_exact env st)) ->
  post (e <- blk ;;
        match e with
        | Some _ => ret (n, e)
        | None => K
        end)%writer s (header_exact env st).
Proof.
  intros (Hr & Hz & rest & Hl & Hs) -> [[-> ->] | (fw & -> & Hfw)] HK.
  - msteps. apply HK. rewrite app_nil_r.
    split; [exact Hr|]. split; [exact Hz|]. eauto.
  - mstep. mstep. eapply post_weaken; [apply Hfw|].
    cbv beta. intros e s' (Hz' & tr & Hl' & Hsent). msteps.
    destruct e as [e|].
    + mstep. exists (rest ++ tr). cbn [zw log].
      rewrite Hl', Hl, Hr, <- app_assoc. cbn [app fst snd].
      split; [reflexivity|]. split; [reflexivity | discriminate].
    + apply HK. split; [exact Hr|]. cbn [zw log]. split.
      { rewrite Hz', Hz. reflexivity. }
      exists (rest ++ tr). rewrite Hl', Hl, <- app_assoc.
      split; [reflexivity|].
      rewrite sent_app, Hs. f_equal.
      rewrite <- (Hsent eq_refl), Hz. reflexivity.
Qed.

Lemma header_finish_exact st s n :
  header_sofar env st (optional_fields (Header (zw st))) s -> n = 10 ->
  post (z <- get ;;
        match compressor z with
        | None =>
            note (flate_NewWriter (w z) (level z)) ;;
            modify (with_compressor
                      (if (level z <? -2) || (9 <? level z) then None
                       else Some {| fw_dst := w z; fw_level := level z |}))
        | Some _ => ret tt
        end ;;
        z <- get ;;
        ret (n, err z))%writer s (header_exact env st).
Proof.
  intros (Hr & Hz & rest & Hl & Hs) ->.
  msteps. rewrite Hz.
  destruct (compressor (with_err None (setWroteHeader true (zw st))));
    msteps; cbn [zw log]; rewrite ?Hz.
  - exists rest. rewrite Hl, Hr. cbn [fst snd].
    split; [reflexivity|]. split; [reflexivity|]. intros _. exact Hs.
  - eexists. rewrite Hl, Hr, <- app_assoc. cbn [app fst snd].
    split; [reflexivity|]. split; [reflexivity|]. intros _.
    rewrite sent_app, Hs. apply app_nil_r.
Qed.

Lemma writeHeader_exact st :
  post (writeHeader env) st (header_exact env st).
Proof.
  unfold writeHeader.
  msteps. cbv zeta. msteps. apply post_w_Write.
  cbn [zw log setWroteHeader with_stateFlags Header w level].
  change (io_Write (w (zw st)) HeaderPart _) with (first_write st).
  destruct (env (log st) (first_write st)) as [|n e] eqn:R;
    cbn [write_result]; do 2 mstep; cbn [zw log].
  2: { mstep. exists []. cbn [zw log]. rewrite R. auto. }
  assert (Hp : header_sofar env st []
                 {| zw := with_err None (setWroteHeader true (zw st));
                    log := log st ++ [(first_write st, Done)] |}).
  { split; [exact R|]. split; [reflexivity|]. exists []. auto. }
  assert (Hn : len (fixed_header (zw st)) = 10) by apply len_fixed_header.
  unfold optional_fields in *.
  refine (header_stage_exact st _ _
            (match Extra (Header (zw st)) with
             | Some b => extra_field b
             | None => []
             end) _ _ _ Hp Hn _ _).
  { destruct (Extra (Header (zw st))) as [b|]; [right | left; auto].
    eexists. split; [reflexivity|]. intros s0.
    eapply post_weaken; [apply writeHeaderBytes_sent|].
    cbv beta. intros e s' (Hz & tr & Hl & _ & Hs & _).
    split; [exact Hz|]. exists tr. split; [exact Hl|].
    intros He. apply Hs, He. }
  intros s2 Hp2.
  refine (header_stage_exact st _ _
            (match Name (Header (zw st)) with
             | [] => []
             | _ :: _ => string_field (Name (Header (zw st)))
             end) _ _ _ Hp2 Hn _ _).
  { destruct (Name (Header (zw st))) as [|v s] eqn:E;
      [left; auto | right].
    eexists. split; [reflexivity|]. intros s0.
    eapply post_weaken; [apply writeHeaderString_sent|].
    cbv beta. intros e s' (Hz & tr & Hl & _ & Hs & _).
    split; [exact Hz|]. exists tr. split; [exact Hl|].
    intros He. apply Hs, He. }
  intros s3 Hp3.
  refine (header_stage_exact st _ _
            (match Comment (Header (zw st)) with
             | [] => []
             | _ :: _ => string_field (Comment (Header (zw st)))
             end) _ _ _ Hp3 Hn _ _).
  { destruct (Comment (Header (zw st))) as [|v s] eqn:E;
      [left; auto | right].
    eexists. split; [reflexivity|]. intros s0.
    eapply post_weaken; [apply writeHeaderString_sent|].
    cbv beta. intros e s' (Hz & tr & Hl & _ & Hs & _).
    split; [exact Hz|]. exists tr. split; [exact Hl|].
    intros He. apply Hs, He. }
  intros s4 Hp4.
  apply header_finish_exact; [|exact Hn].
  unfold optional_fields. cbn [app] in Hp4.
  rewrite <- app_assoc in Hp4. exact Hp4.
Qed.

(** *** Header fields that cannot be encoded *)

Lemma post_eq {A} (m : M A) st a st' :
  post m st (fun a0 s0 => a0 = a /\ s0 = st') -> m st = Some (a, st').
Proof. intros (a0 & s0 & H & -> & ->). exact H. Qed.

Lemma writeHeader_extra_too_large st b :
  Extra (Header (zw st)) = Some b -> 0xffff < len b ->
  env (log st) (first_write st) = Done ->
  writeHeader env st
  = Some ((10, Some ErrHdrExtaDataTooLarge),
          header_refused st ErrHdrExtaDataTooLarge).
Proof.
  intros HE Hb R. apply post_eq. unfold writeHeader.
  msteps. cbv zeta. msteps. apply post_w_Write.
  cbn [zw log setWroteHeader with_stateFlags Header w level].
  change (io_Write (w (zw st)) HeaderPart _) with (first_write st).
  rewrite R. cbn [write_result].
  change (len (_ ++ _)) with (len (fixed_header (zw st))).
  rewrite len_fixed_header. do 2 mstep. cbn [zw log].
  rewrite HE. do 2 mstep.
  eapply post_weaken; [apply writeHeaderBytes_sent|].
  cbv beta. intros e s' (Hz & tr & Hl & _ & _ & Hbig).
  destruct (Hbig Hb) as [-> ->]. msteps.
  split; [reflexivity|].
  unfold header_refused. cbn [zw log] in *.
  rewrite Hz, Hl, app_nil_r. reflexivity.
Qed.

Lemma writeHeader_name_not_latin1 st :
  Extra (Header (zw st)) = None ->
  existsb not_latin1 (Name (Header (zw st))) = true ->
  env (log st) (first_write st) = Done ->
  writeHeader env st
  = Some ((10, Some ErrHdrNonLatin1), header_refused st ErrHdrNonLatin1).
Proof.
  intros HE Hbad R. apply post_eq. unfold writeHeader.
  msteps. cbv zeta. msteps. apply post_w_Write.
  cbn [zw log setWroteHeader with_stateFlags Header w level].
  change (io_Write (w (zw st)) HeaderPart _) with (first_write st).
  rewrite R. cbn [write_result].
  change (len (_ ++ _)) with (len (fixed_header (zw st))).
  rewrite len_fixed_header. do 2 mstep. cbn [zw log].
  rewrite HE. do 2 mstep.
  destruct (Name (Header (zw st))) as [|v s] eqn:EN; [discriminate|].
  do 2 mstep.
  eapply post_weaken; [apply writeHeaderString_sent|].
  cbv beta. intros e s' (Hz & tr & Hl & _ & _ & Hno).
  destruct (Hno Hbad) as [-> ->]. msteps.
  split; [reflexivity|].
  unfold header_refused. cbn [zw log] in *.
  rewrite Hz, Hl, app_nil_r. reflexivity.
Qed.

End Header_exact.

(* ================================================================== *)
(** ** The parser on headers of the writer's own making *)

Lemma Uint16_PutUint16 v :
  0 <= v < 2 ^ 16 -> binary.Uint16 (binary.PutUint16 v) = Some v.
Proof.
  intros Hv. unfold binary.PutUint16.
  change (binary.Uint16 [?a; ?b])
    with (Some (Z.lor (byte_to_Z a) (Z.shiftl (byte_to_Z b) 8))).
  f_equal. rewrite !byte_to_of_Z.
  apply Z.bits_inj'. intros i Hi.
  rewrite Z.lor_spec, Z.shiftl_spec by lia.
  change 256 with (2 ^ 8).
  destruct (Z_lt_ge_dec i 8) as [H8 | H8].
  - rewrite (Z.testbit_neg_r _ (i - 8)) by lia.
    rewrite Z.mod_pow2_bits_low by lia. apply orb_false_r.
  - rewrite (Z.mod_pow2_bits_high v 8 i) by lia. cbn [orb].
    destruct (Z_lt_ge_dec i 16) as [H16 | H16].
    + rewrite Z.mod_pow2_bits_low, Z.shiftr_spec by lia.
      f_equal. lia.
    + rewrite Z.mod_pow2_bits_high by lia.
      symmetry. apply (Z.bits_above_log2 v i); [lia|].
      destruct (Z.eq_dec v 0) as [-> | Hne]; [cbn; lia|].
      assert (Hp : 2 ^ 16 <= 2 ^ i) by (apply Z.pow_le_mono_r; lia).
      apply Z.log2_lt_pow2; lia.
Qed.

(** The fixed bytes, one by one. *)
Lemma fixed_header_shape z :
  exists m0 m1 m2 m3 xfl,
    fixed_header z
    = [x1f; x8b; x08; byte_of_Z (header_flags (Header z));
       m0; m1; m2; m3; xfl; OS (Header z)].
Proof.
  unfold fixed_header, binary.PutUint32.
  destruct (afterEpoch _); cbn [app]; eauto 10.
Qed.

Lemma index_cons_head {A} (l rest : list A) i :
  0 <= i < len l -> index (l ++ rest) i = nth_error l (Z.to_nat i).
Proof.
  intros Hi. rewrite index_app_l by exact Hi. unfold index.
  destruct (0 <=? i) eqn:E1; [|apply Z.leb_gt in E1; lia].
  destruct (i <? len l) eqn:E2; [|apply Z.ltb_ge in E2; lia].
  reflexivity.
Qed.

(** A header without optional fields is ten bytes long. *)
Lemma getHeaderLength_no_fields m0 m1 m2 m3 xfl os rest :
  getHeaderLength ([x1f; x8b; x08; x00; m0; m1; m2; m3; xfl; os] ++ rest)
  = Some 10.
Proof.
  pose proof (len_nonneg rest) as Hr.
  set (fh := [x1f; x8b; x08; x00; m0; m1; m2; m3; xfl; os]).
  assert (Hfh : len fh = 10) by reflexivity.
  unfold getHeaderLength. cbv zeta. rewrite len_app, Hfh.
  destruct (10 + len rest <? 10) eqn:E; [apply Z.ltb_lt in E; lia|].
  rewrite !index_cons_head by lia. reflexivity.
Qed.

(** With an extra field only, it ends behind that field. *)
Lemma getHeaderLength_extra_only m0 m1 m2 m3 xfl os b rest :
  len b <= 0xffff ->
  getHeaderLength ([x1f; x8b; x08; x04; m0; m1; m2; m3; xfl; os]
                   ++ extra_field b ++ rest)
  = Some (12 + len b).
Proof.
  intros Hb. pose proof (len_nonneg rest) as Hr.
  pose proof (len_nonneg b) as Hb0.
  set (fh := [x1f; x8b; x08; x04; m0; m1; m2; m3; xfl; os]).
  assert (Hfh : len fh = 10) by reflexivity.
  assert (Hlen : len (fh ++ extra_field b ++ rest) = 12 + len b + len rest).
  { unfold extra_field. rewrite !len_app, Hfh.
    change (len (binary.PutUint16 _)) with 2. lia. }
  unfold getHeaderLength. cbv zeta. rewrite Hlen.
  destruct (12 + len b + len rest <? 10) eqn:E; [apply Z.ltb_lt in E; lia|].
  rewrite !index_cons_head by lia.
  change (nth_error fh (Z.to_nat 0)) with (Some x1f).
  change (nth_error fh (Z.to_nat 1)) with (Some x8b).
  change (nth_error fh (Z.to_nat 2)) with (Some x08).
  change (nth_error fh (Z.to_nat 3)) with (Some x04).
  cbn [obind].
  change (negb (byte_to_Z x1f =? gzipID1) || negb (byte_to_Z x8b =? gzipID2)
          || negb (byte_to_Z x08 =? gzipDeflate)) with false.
  cbv iota.
  unfold scanExtra, scanName, scanComment, scanHdrCrc.
  change (negb (Z.land (byte_to_Z x04) flagExtra =? 0)) with true.
  change (negb (Z.land (byte_to_Z x04) flagName =? 0)) with false.
  change (negb (Z.land (byte_to_Z x04) flagComment =? 0)) with false.
  change (negb (Z.land (byte_to_Z x04) flagHdrCrc =? 0)) with false.
  cbv iota zeta. rewrite Hlen.
  destruct (12 + len b + len rest <? 10 + 2) eqn:E2;
    [apply Z.ltb_lt in E2; lia|].
  rewrite slice_Some by (rewrite ?Hlen; lia). cbn [obind].
  rewrite skipn_app_all by reflexivity.
  unfold extra_field at 1.
  change (firstn (Z.to_nat (12 - 10))
            ((binary.PutUint16 (len b mod 2 ^ 16) ++ b) ++ rest))
    with (binary.PutUint16 (len b mod 2 ^ 16)).
  rewrite Uint16_PutUint16 by (apply Z.mod_pos_bound; lia).
  cbn [obind]. rewrite Z.mod_small by lia.
  destruct (12 + len b + len rest <? 10 + 2 + len b) eqn:E3;
    [apply Z.ltb_lt in E3; lia|].
  apply f_equal. lia.
Qed.

Lemma sent_first dst p rest :
  sent dst HeaderPart ((io_Write dst HeaderPart p, Done) :: rest)
  = p ++ sent dst HeaderPart rest.
Proof. cbn [sent]. rewrite Nat.eqb_refl. reflexivity. Qed.

(** The parser on the header of a writer without name and comment. *)
Lemma getHeaderLength_header_bytes z more :
  Name (Header z) = [] -> Comment (Header z) = [] ->
  (forall b, Extra (Header z) = Some b -> len b <= 0xffff) ->
  getHeaderLength (header_bytes z ++ more) = Some (len (header_bytes z)).
Proof.
  intros HN HC HE. unfold header_bytes, optional_fields.
  destruct (fixed_header_shape z) as (m0 & m1 & m2 & m3 & xfl & Hfh).
  rewrite Hfh. unfold header_flags. rewrite HN, HC.
  destruct (Extra (Header z)) as [b|] eqn:EE; cbv zeta.
  - change (byte_of_Z (Z.lor 0 4)) with x04.
    rewrite app_nil_r, <- !app_assoc.
    rewrite getHeaderLength_extra_only by (apply HE; reflexivity).
    f_equal. rewrite len_app. unfold extra_field. rewrite len_app.
    change (len (binary.PutUint16 _)) with 2.
    change (len [_; _; _; _; _; _; _; _; _; _]) with 10. lia.
  - change (byte_of_Z 0) with x00. cbn [app].
    change (x1f :: x8b :: x08 :: x00 :: m0 :: m1 :: m2 :: m3 :: xfl
              :: OS (Header z) :: more)
      with ([x1f; x8b; x08; x00; m0; m1; m2; m3; xfl; OS (Header z)]
              ++ more).
    apply getHeaderLength_no_fields.
Qed.

(** X5.  [writeHeader] returns from every state, and its first call hands
    the destination the ten fixed bytes of the gzip header; if that write
    fails, its count and error are returned and nothing else is called,
    and if not, the count returned is 10 whatever follows.  The ten
    bytes are 1f 8b 08; the flag byte, with FEXTRA, FNAME and FCOMMENT set
    exactly for a non-nil [Extra], a non-empty [Name] and a non-empty
    [Comment], and FHCRC and FTEXT never set; MTIME, the seconds of
    [ModTime] as a [uint32] when it lies after the epoch and 0 otherwise;
    XFL, 2 at [BestCompression], 4 at [BestSpeed] and 0 otherwise; and
    [OS]. *)
Theorem writeHeader_sends_fixed_header (env : environment) (st : state) :
  (exists r st' rest,
     writeHeader env st = Some (r, st')
     /\ log st'
        = log st
          ++ (first_write st, env (log st) (first_write st)) :: rest
     /\ (forall n e, env (log st) (first_write st) = Failed n e ->
                     r = (n, Some e) /\ rest = [])
     /\ (env (log st) (first_write st) = Done -> fst r = 10))
  /\ first_write st = io_Write (w (zw st)) HeaderPart (fixed_header (zw st))
  /\ len (fixed_header (zw st)) = 10
  /\ firstn 3 (fixed_header (zw st)) = [x1f; x8b; x08]
  /\ ((Z.land (byte_to_Z (nth 3 (fixed_header (zw st)) x00)) flagExtra <> 0
       <-> Extra (Header (zw st)) <> None)
      /\ (Z.land (byte_to_Z (nth 3 (fixed_header (zw st)) x00)) flagName <> 0
          <-> Name (Header (zw st)) <> [])
      /\ (Z.land (byte_to_Z (nth 3 (fixed_header (zw st)) x00)) flagComment
          <> 0
          <-> Comment (Header (zw st)) <> [])
      /\ Z.land (byte_to_Z (nth 3 (fixed_header (zw st)) x00)) flagHdrCrc = 0
      /\ Z.land (byte_to_Z (nth 3 (fixed_header (zw st)) x00)) flagText = 0)
  /\ binary.Uint32 (firstn 4 (skipn 4 (fixed_header (zw st))))
     = Some (if afterEpoch (ModTime (Header (zw st)))
             then uint32 (unix_sec (ModTime (Header (zw st))))
             else 0)
  /\ byte_to_Z (nth 8 (fixed_header (zw st)) x00)
     = (if level (zw st) =? BestCompression then 2
        else if level (zw st) =? BestSpeed then 4
        else 0)
  /\ nth 9 (fixed_header (zw st)) x00 = OS (Header (zw st)).
Proof.
  split.
  { destruct (writeHeader_exact env st) as (r & st' & Hw & rest & Hl & Hm).
    exists r, st', rest. split; [exact Hw|]. split; [exact Hl|].
    destruct (env (log st) (first_write st)) as [|n e].
    - split; [discriminate|]. intros _. apply Hm.
    - split; [|discriminate]. intros n0 e0 [= <- <-]. exact Hm. }
  split; [reflexivity|]. split; [apply len_fixed_header|].
  split; [reflexivity|].
  split.
  { unfold fixed_header. cbn [app nth]. unfold header_flags.
    destruct (Extra (Header (zw st))) as [b|];
      destruct (Name (Header (zw st))) as [|v s];
      destruct (Comment (Header (zw st))) as [|v' s'];
      cbv zeta; vm_compute;
      repeat split; intros; congruence. }
  split.
  { unfold fixed_header. cbn [app skipn].
    destruct (afterEpoch (ModTime (Header (zw st)))).
    - change (firstn 4 (binary.PutUint32 ?v ++ ?l))
        with (binary.PutUint32 v).
      apply Uint32_PutUint32. unfold uint32. apply Z.mod_pos_bound. lia.
    - reflexivity. }
  split.
  { unfold fixed_header. destruct (afterEpoch _); cbn [app nth];
      destruct (level (zw st) =? BestCompression);
      try destruct (level (zw st) =? BestSpeed); reflexivity. }
  unfold fixed_header. destruct (afterEpoch _); reflexivity.
Qed.

(** X6.  The parser measures the writer's own header.  When the header has
    no name and no comment and [writeHeader] returns without error, the
    bytes the destination has accepted are the fixed bytes and, for a
    non-nil [Extra], its length as two bytes, little endian, and the
    field; [getHeaderLength] returns their number on every blob that
    starts with them, and [getDeflateSlice] cuts a member that consists of
    them, a DEFLATE stream and eight trailer bytes down to that stream. *)
Theorem parser_measures_own_header (env : environment) (st : state)
    (n : Z) (st' : state) :
  Name (Header (zw st)) = [] -> Comment (Header (zw st)) = [] ->
  writeHeader env st = Some ((n, None), st') ->
  n = 10
  /\ (exists rest,
        log st' = log st ++ (first_write st, Done) :: rest
        /\ sent (w (zw st)) HeaderPart ((first_write st, Done) :: rest)
           = header_bytes (zw st))
  /\ header_bytes (zw st)
     = fixed_header (zw st)
       ++ match Extra (Header (zw st)) with
          | Some b => binary.PutUint16 (len b) ++ b
          | None => []
          end
  /\ (forall more,
        getHeaderLength (header_bytes (zw st) ++ more)
        = Some (len (header_bytes (zw st))))
  /\ (forall body trailer,
        List.length trailer = 8%nat ->
        getDeflateSlice (header_bytes (zw st) ++ body ++ trailer)
        = Some (body, true)).
Proof.
  intros HN HC Hw.
  pose proof (post_elim _ _ _ _ _ (writeHeader_exact env st) Hw)
    as (rest & Hl & Hm).
  destruct (env (log st) (first_write st)) as [|n0 e0] eqn:R;
    [|destruct Hm as [[=] _]].
  destruct Hm as [Hn Hs]. cbn [fst snd] in Hn, Hs.
  assert (HE : forall b, Extra (Header (zw st)) = Some b -> len b <= 0xffff).
  { intros b Hb. destruct (Z_le_gt_dec (len b) 0xffff) as [H | H];
      [exact H|].
    rewrite (writeHeader_extra_too_large env st b Hb) in Hw by (auto; lia).
    discriminate. }
  assert (Hparse : forall more,
            getHeaderLength (header_bytes (zw st) ++ more)
            = Some (len (header_bytes (zw st))))
    by (intros more; apply getHeaderLength_header_bytes; assumption).
  split; [exact Hn|]. split.
  { exists rest. split; [exact Hl|].
    unfold first_write at 1. rewrite sent_first, (Hs eq_refl).
    reflexivity. }
  split.
  { unfold header_bytes, optional_fields. rewrite HN, HC, !app_nil_r.
    destruct (Extra (Header (zw st))) as [b|] eqn:EE; [|reflexivity].
    unfold extra_field. rewrite Z.mod_small; [reflexivity|].
    pose proof (len_nonneg b). specialize (HE b eq_refl). lia. }
  split; [exact Hparse|].
  intros body trailer Ht.
  pose proof (len_nonneg (header_bytes (zw st))) as Hh0.
  pose proof (len_nonneg body) as Hb0.
  assert (Hlen : len (header_bytes (zw st) ++ body ++ trailer)
                 = len (header_bytes (zw st)) + len body + 8).
  { rewrite !len_app. unfold len at 3. rewrite Ht. lia. }
  unfold getDeflateSlice. rewrite Hparse. cbn [obind]. rewrite Hlen.
  destruct (len (header_bytes (zw st)) <? 0) eqn:E1;
    [apply Z.ltb_lt in E1; lia|].
  destruct (len (header_bytes (zw st)) + len body + 8
            <? len (header_bytes (zw st)) + 8) eqn:E2;
    [apply Z.ltb_lt in E2; lia|].
  rewrite slice_Some by (rewrite ?Hlen; lia). cbn [obind].
  rewrite skipn_app_all by (unfold len; lia).
  rewrite firstn_app_all by (unfold len; lia).
  reflexivity.
Qed.

Lemma parser_measures_own_header_witness :
  Name (Header (zw st_small_extra)) = []
  /\ Comment (Header (zw st_small_extra)) = []
  /\ writeHeader reliable st_small_extra
     = Some ((10, None), st_small_extra_header)
  /\ header_bytes (zw st_small_extra)
     = [x1f; x8b; x08; x04; x00; x00; x00; x00; x00; xff;
        x03; x00; x01; x02; x03]
  /\ (forall more,
        getHeaderLength (header_bytes (zw st_small_extra) ++ more)
        = Some (len (header_bytes (zw st_small_extra)))).
Proof.
  split; [reflexivity|]. split; [reflexivity|]. split; [reflexivity|].
  split; [reflexivity|].
  apply (parser_measures_own_header reliable st_small_extra 10
           st_small_extra_header); reflexivity.
Defined.

(* ================================================================== *)
(** ** Headers that cannot be encoded *)

(** X7.  An extra field longer than 0xffff bytes is refused after the
    fixed bytes have gone out.  On a writer with no latched error and no
    header yet, whose destination accepts the fixed bytes, [Write] and
    [WriteCompressed] both return 10 and [ErrHdrExtaDataTooLarge]; the
    write of the fixed bytes, with FEXTRA set, is their only call; the
    error is latched and the header counts as written; no compressor is
    made, and digest and size are as before: the data is not counted. *)
Theorem Write_refuses_large_extra (env : environment) (st : state)
    (p b : list byte) :
  err (zw st) = None -> checkWroteHeader (zw st) = false ->
  Extra (Header (zw st)) = Some b -> 0xffff < len b ->
  env (log st) (first_write st) = Done ->
  Write env p st
  = Some ((10, Some ErrHdrExtaDataTooLarge),
          header_refused st ErrHdrExtaDataTooLarge)
  /\ WriteCompressed env p st
     = Some ((10, Some ErrHdrExtaDataTooLarge),
             header_refused st ErrHdrExtaDataTooLarge)
  /\ log (header_refused st ErrHdrExtaDataTooLarge)
     = log st
       ++ [(io_Write (w (zw st)) HeaderPart (fixed_header (zw st)), Done)]
  /\ Z.land (byte_to_Z (nth 3 (fixed_header (zw st)) x00)) flagExtra <> 0
  /\ err (zw (header_refused st ErrHdrExtaDataTooLarge))
     = Some ErrHdrExtaDataTooLarge
  /\ checkWroteHeader (zw (header_refused st ErrHdrExtaDataTooLarge)) = true
  /\ compressor (zw (header_refused st ErrHdrExtaDataTooLarge))
     = compressor (zw st)
  /\ digest (zw (header_refused st ErrHdrExtaDataTooLarge)) = digest (zw st)
  /\ size (zw (header_refused st ErrHdrExtaDataTooLarge)) = size (zw st).
Proof.
  intros He Hh HE Hb R.
  pose proof (writeHeader_extra_too_large env st b HE Hb R) as Hw.
  split; [rewrite (Write_lazy env p st _ _ _ He Hh Hw); reflexivity|].
  split; [rewrite (WriteCompressed_unfold env p st _ _ _ He Hw);
          reflexivity|].
  split; [reflexivity|].
  split.
  { unfold fixed_header. cbn [app nth]. unfold header_flags. rewrite HE.
    destruct (Name (Header (zw st))); destruct (Comment (Header (zw st)));
      vm_compute; discriminate. }
  unfold header_refused. fields. repeat split.
Qed.

Lemma Write_refuses_large_extra_witness :
  err (zw st_big_extra) = None
  /\ checkWroteHeader (zw st_big_extra) = false
  /\ Extra (Header (zw st_big_extra)) = Some (repeat x00 (Z.to_nat 65536))
  /\ 0xffff < len (repeat x00 (Z.to_nat 65536))
  /\ reliable (log st_big_extra) (first_write st_big_extra) = Done
  /\ Write reliable [x41] st_big_extra
     = Some ((10, Some ErrHdrExtaDataTooLarge),
             header_refused st_big_extra ErrHdrExtaDataTooLarge).
Proof.
  assert (Hb : 0xffff < len (repeat x00 (Z.to_nat 65536)))
    by (rewrite len_repeat, Z2Nat.id; lia).
  split; [reflexivity|]. split; [reflexivity|]. split; [reflexivity|].
  split; [exact Hb|]. split; [reflexivity|].
  exact (proj1 (Write_refuses_large_extra reliable st_big_extra [x41]
                  (repeat x00 (Z.to_nat 65536))
                  eq_refl eq_refl eq_refl Hb eq_refl)).
Defined.

(** X8.  A name with a rune that Latin-1 does not have, or with NUL, is
    refused in the same way.  On a writer with no latched error, no
    header yet and a nil [Extra], whose destination accepts the fixed
    bytes, [Write] and [WriteCompressed] both return 10 and
    [ErrHdrNonLatin1]; the write of the fixed bytes, with FNAME set, is
    their only call, and no byte of the name follows; the error is
    latched, no compressor is made, and digest and size are as before. *)
Theorem Write_refuses_name_outside_latin1 (env : environment) (st : state)
    (p : list byte) :
  err (zw st) = None -> checkWroteHeader (zw st) = false ->
  Extra (Header (zw st)) = None ->
  existsb not_latin1 (Name (Header (zw st))) = true ->
  env (log st) (first_write st) = Done ->
  Write env p st
  = Some ((10, Some ErrHdrNonLatin1), header_refused st ErrHdrNonLatin1)
  /\ WriteCompressed env p st
     = Some ((10, Some ErrHdrNonLatin1), header_refused st ErrHdrNonLatin1)
  /\ log (header_refused st ErrHdrNonLatin1)
     = log st
       ++ [(io_Write (w (zw st)) HeaderPart (fixed_header (zw st)), Done)]
  /\ Z.land (byte_to_Z (nth 3 (fixed_header (zw st)) x00)) flagName <> 0
  /\ err (zw (header_refused st ErrHdrNonLatin1)) = Some ErrHdrNonLatin1
  /\ checkWroteHeader (zw (header_refused st ErrHdrNonLatin1)) = true
  /\ compressor (zw (header_refused st ErrHdrNonLatin1))
     = compressor (zw st)
  /\ digest (zw (header_refused st ErrHdrNonLatin1)) = digest (zw st)
  /\ size (zw (header_refused st ErrHdrNonLatin1)) = size (zw st).
Proof.
  intros He Hh HE Hbad R.
  pose proof (writeHeader_name_not_latin1 env st HE Hbad R) as Hw.
  split; [rewrite (Write_lazy env p st _ _ _ He Hh Hw); reflexivity|].
  split; [rewrite (WriteCompressed_unfold env p st _ _ _ He Hw);
          reflexivity|].
  split; [reflexivity|].
  split.
  { unfold fixed_header. cbn [app nth]. unfold header_flags. rewrite HE.
    destruct (Name (Header (zw st))); [discriminate|].
    destruct (Comment (Header (zw st))); vm_compute; discriminate. }
  unfold header_refused. fields. repeat split.
Qed.

Lemma Write_refuses_name_outside_latin1_witness :
  err (zw st_bad_name) = None
  /\ checkWroteHeader (zw st_bad_name) = false
  /\ Extra (Header (zw st_bad_name)) = None
  /\ existsb not_latin1 (Name (Header (zw st_bad_name))) = true
  /\ reliable (log st_bad_name) (first_write st_bad_name) = Done
  /\ Write reliable [x41] st_bad_name
     = Some ((10, Some ErrHdrNonLatin1),
             header_refused st_bad_name ErrHdrNonLatin1).
Proof.
  split; [reflexivity|]. split; [reflexivity|]. split; [reflexivity|].
  split; [reflexivity|]. split; [reflexivity|].
  exact (proj1 (Write_refuses_name_outside_latin1 reliable st_bad_name [x41]
                  eq_refl eq_refl eq_refl eq_refl eq_refl)).
Defined.

(* ================================================================== *)
(** ** What the methods leave alone *)

Lemma count_NewWriter_app tr1 tr2 :
  count_NewWriter (tr1 ++ tr2)
  = (count_NewWriter tr1 + count_NewWriter tr2)%nat.
Proof.
  unfold count_NewWriter. rewrite filter_app, length_app. reflexivity.
Qed.

Lemma count_NewWriter_header_only tr :
  header_only tr -> count_NewWriter tr = O.
Proof.
  unfold header_only, count_NewWriter.
  induction tr as [|[c r] tr IH]; [reflexivity|].
  cbn [forallb filter]. intros H. apply andb_prop in H. destruct H as [H1 H2].
  destruct c as [d q p| | | | |]; try discriminate.
  cbn [is_NewWriter]. apply IH, H2.
Qed.

Lemma compressor_step_refl st : compressor_step st st.
Proof.
  repeat split. exists []. rewrite app_nil_r. split; [reflexivity|].
  left. split; reflexivity.
Qed.

Lemma compressor_step_trans st1 st2 st3 :
  compressor_step st1 st2 -> compressor_step st2 st3 ->
  compressor_step st1 st3.
Proof.
  intros (Hh1 & Hl1 & Hw1 & tr1 & Hlog1 & Hc1)
         (Hh2 & Hl2 & Hw2 & tr2 & Hlog2 & Hc2).
  split; [congruence|]. split; [congruence|]. split; [congruence|].
  exists (tr1 ++ tr2). rewrite Hlog2, Hlog1, app_assoc.
  split; [reflexivity|]. rewrite count_NewWriter_app.
  destruct Hc1 as [[Hc1 Hn1] | (Hc1 & Hc1' & Hn1)];
    destruct Hc2 as [[Hc2 Hn2] | (Hc2 & Hc2' & Hn2)]; rewrite Hn1, Hn2.
  - left. split; [congruence | reflexivity].
  - right. split; [congruence|]. split; [|reflexivity].
    rewrite Hc2', Hw1, Hl1. reflexivity.
  - right. split; [exact Hc1|]. split; [congruence | reflexivity].
  - congruence.
Qed.

(** A step that makes calls other than [flate.NewWriter] and keeps the
    configuration. *)
Lemma quiet_step st st' tr :
  Header (zw st') = Header (zw st) -> level (zw st') = level (zw st) ->
  w (zw st') = w (zw st) -> compressor (zw st') = compressor (zw st) ->
  log st' = log st ++ tr -> count_NewWriter tr = O ->
  compressor_step st st'.
Proof.
  intros Hh Hl Hw Hc Hlog Hn. split; [exact Hh|]. split; [exact Hl|].
  split; [exact Hw|]. exists tr. split; [exact Hlog|]. left. auto.
Qed.

Section Steps.

Variable env : environment.

Lemma writeHeader_step st n e st1 :
  -2 <= level (zw st) <= 9 ->
  writeHeader env st = Some ((n, e), st1) -> compressor_step st st1.
Proof.
  intros Hlev Hw.
  pose proof (post_elim _ _ _ _ _ (writeHeader_spec env st) Hw)
    as (c' & buf & resp & hdr & nw & Hz & Hl & _ & Hho & Hca).
  cbn [snd] in Hz, Hca.
  unfold compressor_step. rewrite Hz. fields.
  split; [reflexivity|]. split; [reflexivity|]. split; [reflexivity|].
  exists ((io_Write (w (zw st)) HeaderPart buf, resp) :: hdr ++ nw).
  split; [exact Hl|].
  assert (Hcount : count_NewWriter
                     ((io_Write (w (zw st)) HeaderPart buf, resp)
                        :: hdr ++ nw)
                   = count_NewWriter nw).
  { change (count_NewWriter (?a :: ?l)) with (count_NewWriter l).
    rewrite count_NewWriter_app, count_NewWriter_header_only by exact Hho.
    reflexivity. }
  rewrite Hcount. unfold compressor_after in Hca.
  destruct (compressor (zw st)) as [c|] eqn:Ec.
  - destruct Hca as [-> ->]. left. auto.
  - destruct e as [e|].
    + destruct Hca as [-> ->]. left. auto.
    + destruct Hca as [-> ->]. right.
      destruct (level (zw st) <? -2) eqn:E1; [apply Z.ltb_lt in E1; lia|].
      destruct (9 <? level (zw st)) eqn:E2; [apply Z.ltb_lt in E2; lia|].
      auto.
Qed.

Lemma lazy_header_step st st1 :
  -2 <= level (zw st) <= 9 -> lazy_header env st st1 ->
  compressor_step st st1.
Proof.
  intros Hlev [[Hh ->] | [Hh [n Hp]]]; [apply compressor_step_refl|].
  apply (writeHeader_step _ _ _ _ Hlev Hp).
Qed.

Lemma Write_step p st r st' :
  -2 <= level (zw st) <= 9 -> Write env p st = Some (r, st') ->
  compressor_step st st'.
Proof.
  intros Hlev H. apply Write_inv in H.
  destruct H as [e He | n e st1 He Hh Hp | st1 c He Hl Hc].
  - apply compressor_step_refl.
  - apply (writeHeader_step _ _ _ _ Hlev Hp).
  - apply (compressor_step_trans _ st1); [apply lazy_header_step; auto|].
    unfold Write_compress_state.
    eapply quiet_step; cbn [zw log]; fields; reflexivity.
Qed.

Lemma flushed_step st1 st2 : flushed env st1 st2 -> compressor_step st1 st2.
Proof.
  intros [[Ha ->] | [Ha (c & Hc & Hr & ->)]];
    [apply compressor_step_refl|].
  unfold flush_state. rewrite Hr. cbn [error_of].
  eapply quiet_step; cbn [zw log]; fields; reflexivity.
Qed.

Lemma splice_step n p st r st' :
  splice_case env n p st r st' -> compressor_step st st'.
Proof.
  intros [Hacc | content c tl d Hacc Hg Hc Htl Hcr Htlr Hd];
    [apply compressor_step_refl|].
  unfold splice_state.
  eapply quiet_step; cbn [zw log]; fields; reflexivity.
Qed.

Lemma WriteCompressed_step p st r st' :
  -2 <= level (zw st) <= 9 -> WriteCompressed env p st = Some (r, st') ->
  compressor_step st st'.
Proof.
  intros Hlev H. apply WriteCompressed_inv in H.
  destruct H as [e He | n e st1 He Hp | n st1 c k e He Hp Ha Hc Hr
                 | n st1 st2 r0 st0 He Hp Hf Hs].
  - apply compressor_step_refl.
  - apply (writeHeader_step _ _ _ _ Hlev Hp).
  - apply (compressor_step_trans _ st1);
      [apply (writeHeader_step _ _ _ _ Hlev Hp)|].
    unfold flush_state. rewrite Hr. cbn [error_of].
    eapply quiet_step; cbn [zw log]; fields; reflexivity.
  - apply (compressor_step_trans _ st1);
      [apply (writeHeader_step _ _ _ _ Hlev Hp)|].
    apply (compressor_step_trans _ st2); [apply flushed_step, Hf|].
    apply (splice_step _ _ _ _ _ Hs).
Qed.

Lemma closing_step st : compressor_step st (closing st).
Proof.
  unfold closing. eapply (quiet_step _ _ []); cbn [zw log]; fields;
    rewrite ?app_nil_r; reflexivity.
Qed.

Lemma close_ready_step st st1 :
  -2 <= level (zw st) <= 9 -> close_ready env st st1 ->
  compressor_step st st1.
Proof.
  intros Hlev [[Hh ->] | [Hh (r0 & Hw & _)]]; [apply closing_step|].
  apply (compressor_step_trans _ (closing st)); [apply closing_step|].
  eapply Write_step; [|exact Hw]. exact Hlev.
Qed.

Lemma Close_step st r st' :
  -2 <= level (zw st) <= 9 -> Close env st = Some (r, st') ->
  compressor_step st st'.
Proof.
  intros Hlev H. apply Close_inv in H.
  destruct H as [e He | He Hcl | r0 st1 e He Hcl Hh Hw He1
                 | st1 c He Hcl Hr Hc].
  - apply compressor_step_refl.
  - apply compressor_step_refl.
  - apply (compressor_step_trans _ (closing st)); [apply closing_step|].
    eapply Write_step; [|exact Hw]. exact Hlev.
  - apply (compressor_step_trans _ st1);
      [apply (close_ready_step _ _ Hlev Hr)|].
    unfold Close_finish_state.
    destruct (env (log st1) (flate_Close c)) as [|k e]; cbn [error_of];
      cbv zeta.
    + eapply quiet_step; cbn [zw log]; fields;
        rewrite <- ?app_assoc; reflexivity.
    + eapply quiet_step; cbn [zw log]; fields; reflexivity.
Qed.

Lemma Flush_step st r st' :
  -2 <= level (zw st) <= 9 -> Flush env st = Some (r, st') ->
  compressor_step st st'.
Proof.
  intros Hlev H. apply Flush_inv in H.
  destruct H as [e He | He Hcl | n e st1 He Hcl Hh Hw
                 | st1 c He Hcl Hr Hc].
  - apply compressor_step_refl.
  - apply compressor_step_refl.
  - apply (Write_step _ _ _ _ Hlev Hw).
  - apply (compressor_step_trans _ st1).
    + destruct Hr as [[Hh ->] | [Hh (n & Hw)]];
        [apply compressor_step_refl|].
      apply (Write_step _ _ _ _ Hlev Hw).
    + unfold Flush_sync_state.
      eapply quiet_step; cbn [zw log]; fields; reflexivity.
Qed.

End Steps.

Section Life.

Variable env : environment.

(** What one call does to level, compressor and the count of
    [flate.NewWriter]. *)
Lemma invoke_compressor m st st' :
  wf st -> invoke env m st = Some (tt, st') ->
  level (zw st') = level (zw st)
  /\ (bound (zw st) -> bound (zw st'))
  /\ (count_NewWriter (log st)
      = match compressor (zw st) with Some _ => 1%nat | None => O end ->
      count_NewWriter (log st')
      = match compressor (zw st') with Some _ => 1%nat | None => O end).
Proof.
  intros Hwf.
  assert (Hstep : compressor_step st st' ->
            level (zw st') = level (zw st)
            /\ (bound (zw st) -> bound (zw st'))
            /\ (count_NewWriter (log st)
                = match compressor (zw st) with
                  | Some _ => 1%nat
                  | None => O
                  end ->
                count_NewWriter (log st')
                = match compressor (zw st') with
                  | Some _ => 1%nat
                  | None => O
                  end)).
  { intros (Hh & Hl & Hw & tr & Hlog & Hc). split; [exact Hl|].
    destruct Hc as [[Hc Hn] | (Hc & Hc' & Hn)].
    - split.
      + intros Hb c Ec. rewrite Hc in Ec. rewrite Hl, Hw. apply Hb, Ec.
      + intros Hcount.
        rewrite Hlog, count_NewWriter_app, Hn, Hc, Hcount. lia.
    - split.
      + intros _ c Ec. rewrite Hc' in Ec. injection Ec as <-.
        cbn [fw_dst fw_level]. auto.
      + intros Hcount.
        rewrite Hlog, count_NewWriter_app, Hn, Hc', Hcount, Hc.
        reflexivity. }
  pose proof (wf_level st Hwf) as Hlev.
  destruct m as [p | p | | | w0 | h]; cbn [invoke]; unfold bind, ret.
  - destruct (Write env p st) as [[r s]|] eqn:E; [|discriminate].
    intros [= <-]. apply Hstep, (Write_step _ _ _ _ _ Hlev E).
  - destruct (WriteCompressed env p st) as [[r s]|] eqn:E;
      [|discriminate].
    intros [= <-]. apply Hstep, (WriteCompressed_step _ _ _ _ _ Hlev E).
  - destruct (Flush env st) as [[r s]|] eqn:E; [|discriminate].
    intros [= <-]. apply Hstep, (Flush_step _ _ _ _ Hlev E).
  - destruct (Close env st) as [[r s]|] eqn:E; [|discriminate].
    intros [= <-]. apply Hstep, (Close_step _ _ _ _ Hlev E).
  - rewrite Reset_eq. intros [= <-]. cbn [zw log].
    unfold reset_writer, reset_events, bound.
    cbn [level compressor w].
    split; [reflexivity|]. split.
    + intros Hb c Ec.
      destruct (compressor (zw st)) as [c0|]; [|discriminate].
      injection Ec as <-. cbn [fw_dst fw_level].
      split; [reflexivity|]. apply (Hb c0 eq_refl).
    + intros Hcount. rewrite count_NewWriter_app, Hcount.
      destruct (compressor (zw st)); reflexivity.
  - unfold modify. intros [= <-]. cbn [zw log]. unfold bound. fields. auto.
Qed.

Lemma reachable_compressor st :
  reachable env st ->
  bound (zw st)
  /\ count_NewWriter (log st)
     = match compressor (zw st) with Some _ => 1%nat | None => O end.
Proof.
  induction 1 as [w0 level0 st Hf | st m st' Hr IH Hi].
  - apply fresh_inv in Hf. destruct Hf as [_ ->]. cbn [zw log compressor].
    split; [intros c; discriminate | reflexivity].
  - destruct IH as [Hb Hc].
    destruct (invoke_compressor m st st' (reachable_wf env st Hr) Hi)
      as (_ & Hb' & Hc').
    auto.
Qed.

(** A sequence of calls on a reachable writer returns. *)
Lemma run_reachable ops : forall st,
  reachable env st ->
  exists st', run env ops st = Some (tt, st')
              /\ reachable env st'
              /\ level (zw st') = level (zw st).
Proof.
  induction ops as [|m ops IH]; intros st Hr.
  - exists st. auto.
  - pose proof (reachable_wf env st Hr) as Hwf.
    destruct (invoke_total env m st Hwf) as (s1 & Hi).
    destruct (invoke_compressor m st s1 Hwf Hi) as (Hl & _).
    destruct (IH s1 (reachable_invoke env st m s1 Hr Hi))
      as (st' & Hrun & Hr' & Hl').
    exists st'. cbn [run]. unfold bind. rewrite Hi.
    split; [exact Hrun|]. split; [exact Hr' | congruence].
Qed.

End Life.

(** X12.  No sequence of method calls makes a writer from the constructor
    panic, where [int] has 64 bits, as the model has it: whatever the
    caller does ([Write], [WriteCompressed], [Flush], [Close], [Reset],
    assignments to the header) and however the destination and the
    compressor answer, every call returns.  The nil compressor is never
    dereferenced, the parser never indexes out of range, and the length
    that [make] gets, [int] of a trailer word, lies from 0 to 2^32 - 1
    (where [int] has 32 bits it is negative from 2^31 up and [make]
    panics).  Afterwards the level is the one the constructor was given,
    size and digest are [uint32] values, and a writer that has written
    its header without error has a compressor. *)
Theorem calls_never_panic (env : environment) (w0 : ioWriter) (level0 : Z)
    (st0 : state) (ops : list method) :
  fresh w0 level0 = Some st0 ->
  exists st',
    run env ops st0 = Some (tt, st')
    /\ reachable env st'
    /\ level (zw st') = level0 /\ -2 <= level0 <= 9
    /\ 0 <= size (zw st') < 2 ^ 32 /\ 0 <= digest (zw st') < 2 ^ 32
    /\ (checkWroteHeader (zw st') = true -> err (zw st') = None ->
        compressor (zw st') <> None).
Proof.
  intros Hf.
  destruct (run_reachable env ops st0 (reachable_fresh env w0 level0 st0 Hf))
    as (st' & Hrun & Hr & Hl).
  exists st'. pose proof (reachable_wf env st' Hr) as Hwf.
  apply fresh_inv in Hf. destruct Hf as [Hlev ->]. cbn [zw level] in Hl.
  split; [exact Hrun|]. split; [exact Hr|]. split; [exact Hl|].
  split; [exact Hlev|].
  split; [apply (wf_size st' Hwf)|]. split; [apply (wf_digest st' Hwf)|].
  apply (wf_compressor st' Hwf).
Qed.

Lemma calls_never_panic_witness :
  fresh 1%nat DefaultCompression = Some st_fresh
  /\ run reliable calls_sample st_fresh = Some (tt, st_calls_sample)
  /\ In (flate_NewWriter 1%nat DefaultCompression, Done)
        (log st_calls_sample)
  /\ In (io_Write 1%nat PayloadPart [x4b; x4a; x2c; x02; x00], Done)
        (log st_calls_sample)
  /\ err (zw st_calls_sample) = Some ErrHdrNonLatin1
  /\ reachable reliable st_calls_sample
  /\ level (zw st_calls_sample) = DefaultCompression.
Proof.
  assert (E : run reliable calls_sample st_fresh
              = Some (tt, st_calls_sample)) by reflexivity.
  split; [reflexivity|]. split; [exact E|].
  split; [cbn; tauto|]. split; [cbn; tauto|]. split; [reflexivity|].
  destruct (calls_never_panic reliable 1%nat DefaultCompression st_fresh
              calls_sample eq_refl) as (st' & H1 & H2 & H3 & _).
  rewrite E in H1. injection H1 as <-. split; [exact H2 | exact H3].
Defined.

(** X13.  [Write], [WriteCompressed], [Flush] and [Close] leave the
    configuration of a reachable writer alone: the header fields, the
    level and the destination are afterwards what they were, and so is
    the compressor, unless there was none and the call made it, for the
    writer's destination and level, with the one call of
    [flate.NewWriter] in what the call added to the trace. *)
Theorem methods_keep_configuration (env : environment) (st : state) :
  reachable env st ->
  (forall p r st', Write env p st = Some (r, st') -> compressor_step st st')
  /\ (forall p r st', WriteCompressed env p st = Some (r, st') ->
                      compressor_step st st')
  /\ (forall r st', Flush env st = Some (r, st') -> compressor_step st st')
  /\ (forall r st', Close env st = Some (r, st') -> compressor_step st st').
Proof.
  intros Hr.
  pose proof (wf_level st (reachable_wf env st Hr)) as Hlev.
  split; [|split; [|split]].
  - intros p r st'. apply Write_step, Hlev.
  - intros p r st'. apply WriteCompressed_step, Hlev.
  - intros r st'. apply Flush_step, Hlev.
  - intros r st'. apply Close_step, Hlev.
Qed.

Lemma methods_keep_configuration_witness :
  reachable reliable st_fresh
  /\ (forall p r st', Write reliable p st_fresh = Some (r, st') ->
                      compressor_step st_fresh st').
Proof.
  split; [apply reachable_st_fresh|].
  apply (methods_keep_configuration reliable st_fresh
           (reachable_st_fresh reliable)).
Defined.

(** X17.  A writer allocates its compressor at most once.  In the trace of
    every reachable writer [flate.NewWriter] has been called once if the
    writer has a compressor and never if it has none, however often the
    writer has been reset in between: [Reset] rebinds the compressor with
    [flate.Writer.Reset] and never drops it. *)
Theorem compressor_is_made_once (env : environment) (st : state) :
  reachable env st ->
  count_NewWriter (log st)
  = match compressor (zw st) with Some _ => 1%nat | None => O end
  /\ (forall w0 st', Reset w0 st = Some (tt, st') ->
        count_NewWriter (log st') = count_NewWriter (log st)
        /\ (compressor (zw st) <> None -> compressor (zw st') <> None)).
Proof.
  intros Hr. split; [apply (reachable_compressor env st Hr)|].
  intros w0 st'. rewrite Reset_eq. intros [= <-]. cbn [zw log].
  unfold reset_events, reset_writer. cbn [compressor].
  rewrite count_NewWriter_app.
  destruct (compressor (zw st)); split;
    try (cbn; lia); congruence.
Qed.

Lemma compressor_is_made_once_witness :
  reachable reliable st_foo_bar_closed
  /\ count_NewWriter (log st_foo_bar_closed) = 1%nat.
Proof.
  assert (H : reachable reliable st_foo_bar_closed).
  { destruct (run_reachable reliable (foo_bar ++ [CallClose]) st_fresh
                (reachable_st_fresh reliable)) as (st' & Hrun & Hr' & _).
    assert (E : run reliable (foo_bar ++ [CallClose]) st_fresh
                = Some (tt, st_foo_bar_closed)) by reflexivity.
    rewrite E in Hrun. injection Hrun as <-. exact Hr'. }
  split; [exact H|].
  apply (compressor_is_made_once reliable st_foo_bar_closed H).
Defined.

(** X18.  The compressor of a reachable writer always writes to the
    writer's current destination, at the writer's level: [writeHeader]
    makes it for them, and [Reset] rebinds it to the new destination
    before anything else is written. *)
Theorem compressor_follows_destination (env : environment) (st : state) :
  reachable env st ->
  forall c, compressor (zw st) = Some c ->
            fw_dst c = w (zw st) /\ fw_level c = level (zw st).
Proof.
  intros Hr. apply (reachable_compressor env st Hr).
Qed.

Lemma compressor_follows_destination_witness :
  reachable reliable st_written
  /\ forall c, compressor (zw st_written) = Some c ->
               fw_dst c = w (zw st_written)
               /\ fw_level c = level (zw st_written).
Proof.
  assert (H : reachable reliable st_written).
  { apply (reachable_invoke reliable st_fresh (CallWrite [x41]));
      [apply reachable_st_fresh | reflexivity]. }
  split; [exact H|].
  apply (compressor_follows_destination reliable st_written H).
Defined.

(* ================================================================== *)
(** ** The parts of an accepted blob *)

Lemma byte_bit_high b i : 8 <= i -> Z.testbit (byte_to_Z b) i = false.
Proof.
  intros Hi. pose proof (byte_to_Z_range b) as Hb.
  rewrite <- (Z.mod_small (byte_to_Z b) (2 ^ 8))
    by (change (2 ^ 8) with 256; lia).
  apply Z.mod_pow2_bits_high. lia.
Qed.

Lemma byte_of_Z_mod v : byte_of_Z (v mod 2 ^ 8) = byte_of_Z v.
Proof.
  unfold byte_of_Z. change (2 ^ 8) with 256.
  rewrite Z.mod_mod by lia. reflexivity.
Qed.

(** A byte of a word is the byte whose bits it has. *)
Lemma byte_of_shiftr v k b :
  0 <= k ->
  (forall i, 0 <= i < 8 -> Z.testbit v (i + k) = Z.testbit (byte_to_Z b) i) ->
  byte_of_Z (Z.shiftr v k) = b.
Proof.
  intros Hk Hbits.
  rewrite <- (byte_of_to_Z b), <- (byte_of_Z_mod (Z.shiftr v k)).
  f_equal. apply Z.bits_inj'. intros i Hi.
  destruct (Z_lt_ge_dec i 8) as [H8 | H8].
  - rewrite Z.mod_pow2_bits_low by lia.
    rewrite Z.shiftr_spec by lia. apply Hbits. lia.
  - rewrite Z.mod_pow2_bits_high by lia.
    symmetry. apply byte_bit_high. lia.
Qed.

(** Writing back the word read from four bytes gives the four bytes. *)
Lemma PutUint32_Uint32 (b0 b1 b2 b3 : byte) v :
  binary.Uint32 [b0; b1; b2; b3] = Some v ->
  binary.PutUint32 v = [b0; b1; b2; b3].
Proof.
  rewrite Uint32_four. set (x := Z.lor _ _). intros [= Hv].
  unfold binary.PutUint32.
  assert (Hbit : forall j,
             0 <= j ->
             Z.testbit v j
             = Z.testbit (byte_to_Z b0) j
               || Z.testbit (byte_to_Z b1) (j - 8)
               || Z.testbit (byte_to_Z b2) (j - 16)
               || Z.testbit (byte_to_Z b3) (j - 24)).
  { intros j Hj. rewrite <- Hv. unfold x.
    rewrite !Z.lor_spec, !Z.shiftl_spec by lia. reflexivity. }
  clearbody x.
  assert (E0 : byte_of_Z v = b0).
  { rewrite <- (Z.shiftr_0_r v). apply byte_of_shiftr; [lia|].
    intros i Hi. rewrite Hbit, Z.add_0_r by lia.
    rewrite (Z.testbit_neg_r _ (i - 8)), (Z.testbit_neg_r _ (i - 16)),
      (Z.testbit_neg_r _ (i - 24)) by lia.
    rewrite !orb_false_r. reflexivity. }
  assert (E1 : byte_of_Z (Z.shiftr v 8) = b1).
  { apply byte_of_shiftr; [lia|].
    intros i Hi. rewrite Hbit by lia.
    rewrite (byte_bit_high b0), (Z.testbit_neg_r _ (i + 8 - 16)),
      (Z.testbit_neg_r _ (i + 8 - 24)) by lia.
    rewrite !orb_false_r. cbn [orb]. f_equal. lia. }
  assert (E2 : byte_of_Z (Z.shiftr v 16) = b2).
  { apply byte_of_shiftr; [lia|].
    intros i Hi. rewrite Hbit by lia.
    rewrite (byte_bit_high b0), (byte_bit_high b1),
      (Z.testbit_neg_r _ (i + 16 - 24)) by lia.
    rewrite !orb_false_r. cbn [orb]. f_equal. lia. }
  assert (E3 : byte_of_Z (Z.shiftr v 24) = b3).
  { apply byte_of_shiftr; [lia|].
    intros i Hi. rewrite Hbit by lia.
    rewrite (byte_bit_high b0), (byte_bit_high b1), (byte_bit_high b2)
      by lia.
    cbn [orb]. f_equal. lia. }
  rewrite E0, E1, E2, E3. reflexivity.
Qed.

Lemma four_bytes (s : list byte) :
  List.length s = 4%nat -> exists b0 b1 b2 b3, s = [b0; b1; b2; b3].
Proof.
  destruct s as [|b0 [|b1 [|b2 [|b3 [|b4 s]]]]]; try discriminate.
  intros _. eauto.
Qed.

Lemma PutUint32_read (s : list byte) v :
  List.length s = 4%nat -> binary.Uint32 s = Some v ->
  binary.PutUint32 v = s.
Proof.
  intros Hs Hv. destruct (four_bytes s Hs) as (b0 & b1 & b2 & b3 & ->).
  apply PutUint32_Uint32, Hv.
Qed.

(** A blob that [WriteCompressed] accepts is the header the parser has
    measured, the payload, and the two trailer fields as read. *)
Lemma accepted_parts p :
  accepted p = true ->
  exists h content c tl,
    getHeaderLength p = Some h /\ 10 <= h <= len p - 8
    /\ getDeflateSlice p = Some (content, true)
    /\ trailerChecksum p = Some c /\ trailerLength p = Some tl
    /\ len content = len p - h - 8
    /\ p = firstn (Z.to_nat h) p ++ content
           ++ binary.PutUint32 c ++ binary.PutUint32 tl.
Proof.
  intros Hacc. apply accepted_true in Hacc.
  destruct Hacc as (Hlen & content & Hg).
  destruct (getDeflateSlice_total p) as (content' & ok & Hg' & _ & Hok).
  rewrite Hg in Hg'. injection Hg' as <- <-.
  destruct (Hok eq_refl) as (h & Hh & Hr & Hc).
  destruct (trailer_reads_in_bounds p Hlen)
    as (s1 & c & s2 & tl & H1 & Hc1 & _ & H2 & Hc2 & _).
  exists h, content, c, tl.
  unfold trailerChecksum, trailerLength. rewrite H1, H2. cbn [obind].
  split; [exact Hh|]. split; [exact Hr|]. split; [exact Hg|].
  split; [exact Hc1|]. split; [exact Hc2|].
  unfold slice_from in H2.
  apply slice_inv in H1. destruct H1 as (_ & _ & H1).
  apply slice_inv in H2. destruct H2 as (_ & _ & H2).
  assert (HL : (8 <= List.length p)%nat) by (unfold len in Hlen; lia).
  assert (HH : (Z.to_nat h <= List.length p - 8)%nat)
    by (unfold len in Hr; lia).
  replace (Z.to_nat (len p - 4 - (len p - 8))) with 4%nat in H1 by lia.
  replace (Z.to_nat (len p - 8)) with (List.length p - 8)%nat in H1
    by (unfold len; lia).
  replace (Z.to_nat (len p - (len p - 4))) with 4%nat in H2 by lia.
  replace (Z.to_nat (len p - 4)) with (4 + (List.length p - 8))%nat in H2
    by (unfold len; lia).
  replace (Z.to_nat (len p - 8 - h))
    with (List.length p - 8 - Z.to_nat h)%nat in Hc by (unfold len; lia).
  assert (L1 : List.length s1 = 4%nat).
  { rewrite H1, length_firstn, length_skipn. lia. }
  assert (L2 : List.length s2 = 4%nat).
  { rewrite H2, length_firstn, length_skipn. lia. }
  rewrite (PutUint32_read s1 c L1 Hc1), (PutUint32_read s2 tl L2 Hc2).
  split.
  - rewrite Hc. unfold len in *. rewrite length_firstn, length_skipn. lia.
  - rewrite <- skipn_skipn in H2.
    rewrite firstn_all2 in H2 by (rewrite !length_skipn; lia).
    rewrite H1, H2, (firstn_skipn 4 (skipn (List.length p - 8) p)).
    replace (skipn (List.length p - 8) p)
      with (skipn (List.length p - 8 - Z.to_nat h) (skipn (Z.to_nat h) p)).
    2: { rewrite skipn_skipn. f_equal. lia. }
    rewrite Hc, firstn_skipn, firstn_skipn. reflexivity.
Qed.

(* ================================================================== *)
(** ** The header over the calls of a writer *)

Lemma sent_none dst tr : none_of is_header tr -> sent dst HeaderPart tr = [].
Proof.
  unfold none_of. induction tr as [|[c r] tr IH]; [reflexivity|].
  cbn [forallb sent]. intros H. apply andb_true_iff in H.
  destruct H as [H1 H2].
  destruct c as [d q p | | | | |]; try (apply IH, H2).
  destruct q; try discriminate;
    destruct r; try (apply IH, H2);
    rewrite andb_false_r; apply IH, H2.
Qed.

Lemma header_bytes_flags f z :
  header_bytes (with_stateFlags f z) = header_bytes z.
Proof. reflexivity. Qed.

Section Header_once.

Variable env : environment.

(** [writeHeader] without error: ten bytes counted, the whole header
    accepted. *)
Lemma writeHeader_sent st n st1 :
  writeHeader env st = Some ((n, None), st1) ->
  n = 10
  /\ env (log st) (first_write st) = Done
  /\ exists rest,
       log st1 = log st ++ (first_write st, Done) :: rest
       /\ sent (w (zw st)) HeaderPart ((first_write st, Done) :: rest)
          = header_bytes (zw st).
Proof.
  intros H.
  destruct (post_elim _ _ _ _ _ (writeHeader_exact env st) H)
    as (rest & Hl & Hm).
  destruct (env (log st) (first_write st)) as [|k e].
  - destruct Hm as [Hn Hs]. cbn [fst snd] in *.
    split; [exact Hn|]. split; [reflexivity|].
    exists rest. split; [exact Hl|].
    unfold first_write. rewrite sent_first, (Hs eq_refl). reflexivity.
  - destruct Hm as [Hr _]. discriminate.
Qed.

Lemma writeHeader_first st r st1 :
  writeHeader env st = Some (r, st1) ->
  exists rest,
    log st1
    = log st ++ (first_write st, env (log st) (first_write st)) :: rest.
Proof.
  intros H.
  destruct (post_elim _ _ _ _ _ (writeHeader_exact env st) H)
    as (rest & Hl & _).
  eauto.
Qed.

Lemma Write_header_once p st r st' :
  err (zw st) = None -> Write_case env p st r st' -> header_once st st'.
Proof.
  intros He0 H.
  destruct (Write_case_log _ _ _ _ _ H) as (tr & Hlog & _ & _ & _ & Hno & _).
  exists tr. split; [exact Hlog|]. split; [exact Hno|].
  intros Hh0 He'.
  destruct (Write_case_ready _ _ _ _ _ H He0 He') as (c0 & _ & Hh').
  split; [|exact Hh'].
  destruct H as [e He | n e st1 He Hh Hp | st1 c He Hl Hc].
  - congruence.
  - rewrite (writeHeader_err _ _ _ _ _ Hp) in He'. discriminate.
  - destruct Hl as [[Hh _] | [_ [n Hp]]]; [congruence|].
    destruct (writeHeader_sent _ _ _ Hp) as (_ & _ & rest & Hl1 & Hs).
    unfold Write_compress_state in Hlog. cbn [log] in Hlog.
    rewrite Hl1, <- app_assoc in Hlog. apply app_inv_head in Hlog.
    rewrite <- Hlog, sent_app, Hs. apply app_nil_r.
Qed.

(** The flush block and the splice of [WriteCompressed] write no header
    bytes and leave the flag alone. *)
Lemma flushed_header st1 st2 :
  flushed env st1 st2 ->
  checkWroteHeader (zw st2) = checkWroteHeader (zw st1)
  /\ exists ftr, log st2 = log st1 ++ ftr /\ none_of is_header ftr.
Proof.
  intros [[Ha ->] | [Ha (c & Hc & Hr & ->)]].
  - split; [reflexivity|]. exists []. rewrite app_nil_r. split; reflexivity.
  - unfold flush_state. rewrite Hr. cbn [error_of log zw]. fields.
    split; [reflexivity|]. eexists. split; reflexivity.
Qed.

Lemma splice_header n p st r st' :
  splice_case env n p st r st' ->
  checkWroteHeader (zw st') = checkWroteHeader (zw st)
  /\ exists str, log st' = log st ++ str /\ none_of is_header str.
Proof.
  intros [Hacc | content c tl d Hacc Hg Hck Hln Hcr Htr Hd].
  - split; [reflexivity|]. exists []. rewrite app_nil_r. split; reflexivity.
  - unfold splice_state. cbn [log zw]. fields.
    split; [reflexivity|]. eexists. split; reflexivity.
Qed.

(** [WriteCompressed] past its guard: [writeHeader] has run, and what
    follows writes no header bytes. *)
Lemma WriteCompressed_header p st r st' :
  err (zw st) = None -> WriteCompressed_case env p st r st' ->
  exists n e st1 more,
    writeHeader env st = Some ((n, e), st1)
    /\ log st' = log st1 ++ more /\ none_of is_header more
    /\ (err (zw st') = None ->
        e = None /\ checkWroteHeader (zw st') = true).
Proof.
  intros He0 [e He | n e st1 He Hp | n st1 c k e He Hp Ha Hc Hr
              | n st1 st2 r0 st0 He Hp Hf Hs].
  - congruence.
  - exists n, (Some e), st1, []. rewrite app_nil_r.
    split; [exact Hp|]. split; [reflexivity|]. split; [reflexivity|].
    rewrite (writeHeader_err _ _ _ _ _ Hp). discriminate.
  - exists n, None, st1, [(flate_Flush c, Failed k e)].
    unfold flush_state. rewrite Hr. cbn [log zw error_of]. fields.
    split; [exact Hp|]. split; [reflexivity|]. split; [reflexivity|].
    discriminate.
  - destruct (writeHeader_inv _ _ _ _ _ Hp) as (c' & tr & Hz & _).
    destruct (flushed_header _ _ Hf) as (Hh2 & ftr & Hl2 & Hn2).
    destruct (splice_header _ _ _ _ _ Hs) as (Hh3 & str & Hl3 & Hn3).
    exists n, None, st1, (ftr ++ str).
    split; [exact Hp|]. rewrite Hl3, Hl2, <- app_assoc.
    split; [reflexivity|]. split; [apply none_of_app; auto|].
    intros _. split; [reflexivity|].
    rewrite Hh3, Hh2, Hz. fields. reflexivity.
Qed.

(** A closed writer without error has written its header. *)
Lemma invoke_closed m st st' :
  invoke env m st = Some (tt, st') ->
  (checkClosed (zw st) = true -> err (zw st) = None ->
   checkWroteHeader (zw st) = true) ->
  checkClosed (zw st') = true -> err (zw st') = None ->
  checkWroteHeader (zw st') = true.
Proof.
  destruct m as [p | p | | | w0 | h]; cbn [invoke]; unfold bind, ret.
  - destruct (Write env p st) as [[r s]|] eqn:E; [|discriminate].
    intros [= <-] IH Hcl He'.
    destruct (err (zw st)) as [e|] eqn:He.
    + rewrite (Write_latched env p st e He) in E. injection E as <- <-.
      apply IH; [exact Hcl | congruence].
    + apply Write_inv in E.
      destruct (Write_case_ready _ _ _ _ _ E He He') as (c & _ & H).
      exact H.
  - destruct (WriteCompressed env p st) as [[r s]|] eqn:E;
      [|discriminate].
    intros [= <-] IH Hcl He'.
    destruct (err (zw st)) as [e|] eqn:He.
    + rewrite (WriteCompressed_latched env p st e He) in E.
      injection E as <- <-. apply IH; [exact Hcl | congruence].
    + apply WriteCompressed_inv in E.
      destruct (WriteCompressed_header _ _ _ _ He E)
        as (n & e & st1 & more & _ & _ & _ & H).
      apply (H He').
  - destruct (Flush env st) as [[r s]|] eqn:E; [|discriminate].
    intros [= <-] IH Hcl He'. apply Flush_inv in E.
    destruct E as [e He | He Hcl0 | n e st1 He Hcl0 Hh Hcase
                   | st1 c He Hcl0 Hr Hc].
    + congruence.
    + auto.
    + apply Write_inv, Write_case_err in Hcase. cbn [snd] in Hcase.
      congruence.
    + unfold Flush_sync_state in *. cbn [zw] in *. fields.
      destruct Hr as [[Hh ->] | [Hh (n & Hw)]]; [exact Hh|].
      apply Write_inv in Hw.
      pose proof (Write_case_err _ _ _ _ _ Hw) as He1. cbn [snd] in He1.
      destruct (Write_case_ready _ _ _ _ _ Hw He (eq_sym He1))
        as (c1 & _ & H).
      exact H.
  - destruct (Close env st) as [[r s]|] eqn:E; [|discriminate].
    intros [= <-] IH Hcl He'. apply Close_inv in E.
    destruct E as [e He | He Hcl0 | r0 st1 e He Hcl0 Hh Hcase He1
                   | st1 c He Hcl0 Hr Hc].
    + congruence.
    + auto.
    + congruence.
    + assert (Hflag : checkWroteHeader (zw (Close_finish_state env c st1))
                      = checkWroteHeader (zw st1)).
      { unfold Close_finish_state.
        destruct (env (log st1) (flate_Close c)); cbn [error_of];
          cbv zeta; fields; reflexivity. }
      rewrite Hflag.
      destruct Hr as [[Hh ->] | [Hh (r0 & Hw & He1)]].
      * unfold closing. fields. exact Hh.
      * apply Write_inv in Hw.
        assert (Hec : err (zw (closing st)) = None)
          by (unfold closing; fields; exact He).
        destruct (Write_case_ready _ _ _ _ _ Hw Hec He1) as (c1 & _ & H).
        exact H.
  - rewrite Reset_eq. intros [= <-] _. cbn [zw]. discriminate.
  - unfold modify. intros [= <-]. cbn [zw]. fields. auto.
Qed.

Lemma reachable_closed st :
  reachable env st ->
  checkClosed (zw st) = true -> err (zw st) = None ->
  checkWroteHeader (zw st) = true.
Proof.
  induction 1 as [w0 level0 st Hf | st m st' Hr IH Hi].
  - apply fresh_inv in Hf. destruct Hf as [_ ->]. discriminate.
  - apply (invoke_closed m st st' Hi IH).
Qed.

End Header_once.

Lemma header_bytes_setClosed v z :
  header_bytes (setClosed v z) = header_bytes z.
Proof. reflexivity. Qed.

Lemma run_reaches env ops : forall st st',
  reachable env st -> run env ops st = Some (tt, st') -> reachable env st'.
Proof.
  induction ops as [|m ops IH]; intros st st' Hr H.
  - injection H as <-. exact Hr.
  - cbn [run] in H. unfold bind in H.
    destruct (invoke env m st) as [[[] s1]|] eqn:E; [|discriminate].
    apply (IH s1 st' (reachable_invoke env st m s1 Hr E) H).
Qed.

Lemma reachable_st_foo_bar_closed : reachable reliable st_foo_bar_closed.
Proof.
  apply (run_reaches reliable (foo_bar ++ [CallClose]) st_fresh);
    [apply reachable_st_fresh | reflexivity].
Qed.

Lemma reachable_st_written : reachable reliable st_written.
Proof.
  apply (run_reaches reliable [CallWrite [x41]] st_fresh);
    [apply reachable_st_fresh | reflexivity].
Qed.

Section Calls.

Variable env : environment.

(** The end of [Close] writes no header bytes and leaves the flag and
    the tally alone. *)
Lemma Close_finish_header c st1 :
  checkWroteHeader (zw (Close_finish_state env c st1))
  = checkWroteHeader (zw st1)
  /\ digest (zw (Close_finish_state env c st1)) = digest (zw st1)
  /\ size (zw (Close_finish_state env c st1)) = size (zw st1)
  /\ exists cl, log (Close_finish_state env c st1) = log st1 ++ cl
                /\ none_of is_header cl.
Proof.
  unfold Close_finish_state.
  destruct (env (log st1) (flate_Close c)); cbn [error_of]; cbv zeta;
    cbn [log zw]; fields; rewrite <- ?app_assoc;
    (split; [reflexivity|]); (split; [reflexivity|]);
    (split; [reflexivity|]); eexists; split; reflexivity.
Qed.

(** The first call of a [WriteCompressed] that gets past its guard. *)
Lemma WriteCompressed_first_call p st r st' :
  err (zw st) = None -> WriteCompressed_case env p st r st' ->
  exists rest,
    log st'
    = log st ++ (first_write st, env (log st) (first_write st)) :: rest
    /\ (err (zw st') = None ->
        sent (w (zw st)) HeaderPart
          ((first_write st, env (log st) (first_write st)) :: rest)
        = header_bytes (zw st)
        /\ checkWroteHeader (zw st') = true).
Proof.
  intros He H.
  destruct (WriteCompressed_header env _ _ _ _ He H)
    as (n & e & st1 & more & Hp & Hl & Hn & Hok).
  destruct (writeHeader_first env _ _ _ Hp) as (rest0 & Hl0).
  exists (rest0 ++ more). rewrite Hl, Hl0, <- app_assoc.
  split; [reflexivity|].
  intros He'. destruct (Hok He') as [-> Hh]. split; [|exact Hh].
  destruct (writeHeader_sent env _ _ _ Hp) as (_ & Hd & rest1 & Hl1 & Hs).
  rewrite Hd in *. rewrite Hl1 in Hl0. apply app_inv_head in Hl0.
  injection Hl0 as ->.
  change ((first_write st, Done) :: rest0 ++ more)
    with (((first_write st, Done) :: rest0) ++ more).
  rewrite sent_app, Hs, (sent_none _ _ Hn). apply app_nil_r.
Qed.

Lemma header_once_closing st st1 :
  header_once (closing st) st1 -> header_once st st1.
Proof.
  intros (tr & Hl & H1 & H2). exists tr. unfold closing in *.
  cbn [zw log] in *. rewrite header_bytes_setClosed in H2.
  autorewrite with flags in *. auto.
Qed.

Lemma header_once_snoc st st1 st' tl :
  header_once st st1 ->
  log st' = log st1 ++ tl -> none_of is_header tl ->
  checkWroteHeader (zw st') = checkWroteHeader (zw st1) ->
  (err (zw st') = None -> err (zw st1) = None) ->
  header_once st st'.
Proof.
  intros (tr & Hl & H1 & H2) Hl' Hn Hh He.
  exists (tr ++ tl). rewrite Hl', Hl, <- app_assoc.
  split; [reflexivity|]. split.
  - intros Hh0. apply none_of_app. auto.
  - intros Hh0 He'. destruct (H2 Hh0 (He He')) as [Hs Hh1].
    rewrite sent_app, Hs, (sent_none _ _ Hn), app_nil_r, Hh. auto.
Qed.

Lemma header_once_refl st :
  checkWroteHeader (zw st) = true -> header_once st st.
Proof.
  intros Hh. exists []. rewrite app_nil_r. split; [reflexivity|].
  split; [reflexivity | congruence].
Qed.

Lemma Flush_header_once st r st' :
  reachable env st -> err (zw st) = None ->
  Flush_case env st r st' -> header_once st st'.
Proof.
  intros Hreach He0 [e He | He Hcl | n e st1 He Hcl Hh Hcase
                     | st1 c He Hcl Hr Hc].
  - congruence.
  - apply header_once_refl, (reachable_closed env st Hreach Hcl He).
  - apply (Write_header_once env [] _ _ _ He0 (Write_inv _ _ _ _ _ Hcase)).
  - assert (H1 : header_once st st1 /\ err (zw st1) = None).
    { destruct Hr as [[Hh ->] | [Hh (n & Hw)]].
      - split; [apply header_once_refl, Hh | exact He].
      - apply Write_inv in Hw. split.
        + apply (Write_header_once env [] _ _ _ He0 Hw).
        + symmetry. apply (Write_case_err _ _ _ _ _ Hw). }
    destruct H1 as [H1 He1].
    apply (header_once_snoc st st1 _
             [(flate_Flush c, env (log st1) (flate_Flush c))] H1);
      unfold Flush_sync_state; cbn [log zw]; fields; auto.
    reflexivity.
Qed.

Lemma Close_header_once st r st' :
  reachable env st -> err (zw st) = None ->
  Close_case env st r st' -> header_once st st'.
Proof.
  intros Hreach He0.
  assert (Hec : err (zw (closing st)) = None)
    by (unfold closing; fields; exact He0).
  intros [e He | He Hcl | r0 st1 e He Hcl Hh Hcase He1
          | st1 c He Hcl Hr Hc].
  - congruence.
  - apply header_once_refl, (reachable_closed env st Hreach Hcl He).
  - apply header_once_closing.
    apply (Write_header_once env [] _ _ _ Hec (Write_inv _ _ _ _ _ Hcase)).
  - assert (H1 : header_once st st1 /\ err (zw st1) = None).
    { destruct Hr as [[Hh ->] | [Hh (r0 & Hw & He1)]].
      - split; [|exact He]. apply header_once_closing, header_once_refl.
        unfold closing. fields. exact Hh.
      - split; [|exact He1]. apply header_once_closing.
        apply (Write_header_once env [] _ _ _ Hec
                 (Write_inv _ _ _ _ _ Hw)). }
    destruct H1 as [H1 He1].
    destruct (Close_finish_header c st1) as (Hh & _ & _ & cl & Hl & Hn).
    apply (header_once_snoc st st1 _ cl H1 Hl Hn Hh). auto.
Qed.

(** [Flush] and [Close] leave digest and size alone. *)
Lemma Flush_case_tally st r st' :
  wf st -> Flush_case env st r st' ->
  digest (zw st') = digest (zw st) /\ size (zw st') = size (zw st).
Proof.
  intros Hwf [e He | He Hcl | n e st1 He Hcl Hh Hcase
              | st1 c He Hcl Hr Hc].
  - auto.
  - auto.
  - apply Write_inv in Hcase.
    destruct (Write_case_empty _ _ _ _ Hwf He Hcase) as (Hd & Hs & _).
    auto.
  - unfold Flush_sync_state. fields.
    destruct Hr as [[Hh ->] | [Hh (n & Hw)]]; [auto|].
    apply Write_inv in Hw.
    destruct (Write_case_empty _ _ _ _ Hwf He Hw) as (Hd & Hs & _).
    auto.
Qed.

Lemma close_ready_tally st st1 :
  wf st -> err (zw st) = None -> close_ready env st st1 ->
  digest (zw st1) = digest (zw st) /\ size (zw st1) = size (zw st).
Proof.
  intros Hwf He [[Hh ->] | [Hh (r0 & Hw & He1)]].
  - unfold closing. fields. auto.
  - apply Write_inv in Hw.
    destruct (Write_case_empty _ _ _ _ (closing_wf _ Hwf) He Hw)
      as (Hd & Hs & _).
    unfold closing in Hd, Hs. fields. auto.
Qed.

Lemma Close_case_tally st r st' :
  wf st -> Close_case env st r st' ->
  digest (zw st') = digest (zw st) /\ size (zw st') = size (zw st).
Proof.
  intros Hwf [e He | He Hcl | r0 st1 e He Hcl Hh Hcase He1
              | st1 c He Hcl Hr Hc].
  - auto.
  - auto.
  - apply Write_inv in Hcase.
    destruct (Write_case_empty _ _ _ _ (closing_wf _ Hwf) He Hcase)
      as (Hd & Hs & _).
    unfold closing in Hd, Hs. fields. auto.
  - destruct (Close_finish_header c st1) as (_ & -> & -> & _).
    apply (close_ready_tally _ _ Hwf He Hr).
Qed.

End Calls.

(* ================================================================== *)
(** ** A closed writer *)

(** X9.  Closing does not seal the writer against writes.  On a reachable
    writer that is closed and has no latched error, the header has been
    written and there is a compressor; [Flush] returns nil and does
    nothing; but [Write] does not look at the closed flag: it adds its
    bytes to digest and size and hands them to the compressor, whose
    answer it returns, and the writer stays closed.  [WriteCompressed]
    does not look at the flag either and starts, as always, by writing
    the fixed header bytes. *)
Theorem closed_writer_takes_writes (env : environment) (st : state) :
  reachable env st -> checkClosed (zw st) = true -> err (zw st) = None ->
  Flush env st = Some (None, st)
  /\ checkWroteHeader (zw st) = true
  /\ exists c,
       compressor (zw st) = Some c
       /\ (forall p, exists r st',
             Write env p st = Some (r, st')
             /\ r = write_result p (env (log st) (flate_Write c p))
             /\ log st'
                = log st ++ [(flate_Write c p,
                              env (log st) (flate_Write c p))]
             /\ digest (zw st')
                = crc32.Update (digest (zw st)) crc32.IEEETable p
             /\ size (zw st') = uint32 (size (zw st) + len p)
             /\ checkClosed (zw st') = true)
       /\ (forall p, exists r st' rest,
             WriteCompressed env p st = Some (r, st')
             /\ log st'
                = log st
                  ++ (first_write st, env (log st) (first_write st))
                       :: rest).
Proof.
  intros Hreach Hcl He.
  pose proof (reachable_wf env st Hreach) as Hwf.
  pose proof (reachable_closed env st Hreach Hcl He) as Hh.
  split; [apply Flush_closed; assumption|]. split; [exact Hh|].
  destruct (compressor (zw st)) as [c|] eqn:Hc;
    [|destruct (wf_compressor st Hwf Hh He Hc)].
  exists c. split; [reflexivity|]. split.
  - intros p. eexists _, _.
    rewrite (Write_written env p st He Hh), (Write_compress_eq env p st c Hc).
    split; [reflexivity|]. split; [reflexivity|].
    unfold Write_compress_state. fields.
    split; [reflexivity|]. split; [reflexivity|].
    split; [apply uint32_add_r | exact Hcl].
  - intros p.
    destruct (WriteCompressed_cases env p st Hwf) as (r & st' & Hw & Hcase).
    destruct (WriteCompressed_first_call env _ _ _ _ He Hcase)
      as (rest & Hl & _).
    exists r, st', rest. auto.
Qed.

Lemma closed_writer_takes_writes_witness :
  reachable reliable st_foo_bar_closed
  /\ checkClosed (zw st_foo_bar_closed) = true
  /\ err (zw st_foo_bar_closed) = None
  /\ Flush reliable st_foo_bar_closed = Some (None, st_foo_bar_closed).
Proof.
  split; [apply reachable_st_foo_bar_closed|].
  split; [reflexivity|]. split; [reflexivity|].
  apply (closed_writer_takes_writes reliable st_foo_bar_closed
           reachable_st_foo_bar_closed eq_refl eq_refl).
Defined.

(* ================================================================== *)
(** ** What a splice does with its blob *)

(** X10.  A blob that [WriteCompressed] rejects does not touch the
    tally, but the call is not without effect.  On a reachable writer
    without latched error the call returns an error, digest and size are
    what they were and no payload write is made; when no error is latched
    afterwards, the call has returned 10 and [ErrBlob], the destination
    has accepted a whole gzip header from it, and the flag deflate_active
    is clear. *)
Theorem rejected_blob_leaves_tally (env : environment) (st : state)
    (p : list byte) :
  reachable env st -> err (zw st) = None -> accepted p = false ->
  exists r st' tr,
    WriteCompressed env p st = Some (r, st')
    /\ snd r <> None
    /\ digest (zw st') = digest (zw st) /\ size (zw st') = size (zw st)
    /\ log st' = log st ++ tr /\ none_of is_payload tr
    /\ (err (zw st') = None ->
        r = (10, Some ErrBlob)
        /\ checkActiveDeflateStream (zw st') = false
        /\ sent (w (zw st)) HeaderPart tr = header_bytes (zw st)).
Proof.
  intros Hreach He0 Hacc.
  pose proof (reachable_wf env st Hreach) as Hwf.
  destruct (WriteCompressed_cases env p st Hwf) as (r & st' & Hw & Hcase).
  exists r, st'.
  destruct Hcase as [e He | n e st1 He Hp | n st1 c k e He Hp Ha Hc Hr
                     | n st1 st2 r0 st0 He Hp Hf Hs].
  - congruence.
  - destruct (writeHeader_inv _ _ _ _ _ Hp)
      as (c' & tr & Hz & Hlog & _ & _ & Hnp & _).
    exists tr. split; [exact Hw|]. split; [discriminate|].
    rewrite Hz. fields.
    split; [reflexivity|]. split; [reflexivity|]. split; [exact Hlog|].
    split; [exact Hnp | discriminate].
  - destruct (writeHeader_inv _ _ _ _ _ Hp)
      as (c' & tr & Hz & Hlog & _ & _ & Hnp & _).
    exists (tr ++ [(flate_Flush c, Failed k e)]).
    split; [exact Hw|]. split; [discriminate|].
    unfold flush_state. rewrite Hr. cbn [error_of log zw]. fields.
    rewrite Hz, Hlog, <- app_assoc. fields.
    split; [reflexivity|]. split; [reflexivity|]. split; [reflexivity|].
    split; [|discriminate].
    apply none_of_app. split; [exact Hnp | reflexivity].
  - destruct Hs as [_ | content c tl d Hacc' _ _ _ _ _ _]; [|congruence].
    destruct (writeHeader_inv _ _ _ _ _ Hp)
      as (c' & tr & Hz & Hlog & _ & _ & Hnp & _).
    destruct (header_wf _ _ _ _ _ Hwf He Hp)
      as (Hwf1 & He1 & _ & _ & _ & Hd1 & Hs1).
    destruct (flushed_wf _ _ _ Hwf1 He1 Hf)
      as (_ & He2 & Ha2 & _ & _ & _ & Hd2 & Hs2).
    destruct (flushed_log _ _ _ Hf) as (ftr & Hl2 & Hnf & _).
    destruct (flushed_header _ _ _ Hf) as (_ & ftr' & Hl2' & Hnh).
    assert (ftr' = ftr) as ->
      by (rewrite Hl2 in Hl2'; apply app_inv_head in Hl2'; auto).
    destruct (writeHeader_sent _ _ _ _ Hp) as (Hn & _ & rest & Hl1 & Hsent).
    assert (tr = (first_write st, Done) :: rest) as Htr
      by (rewrite Hlog in Hl1; apply app_inv_head in Hl1; exact Hl1).
    exists (tr ++ ftr). split; [exact Hw|]. split; [discriminate|].
    rewrite Hd2, Hs2, Hd1, Hs1, Hl2, Hlog, <- app_assoc.
    split; [reflexivity|]. split; [reflexivity|]. split; [reflexivity|].
    split; [apply none_of_app; auto|].
    intros _. split; [rewrite Hn; reflexivity|]. split; [exact Ha2|].
    rewrite sent_app, Htr, Hsent, (sent_none _ _ Hnh). apply app_nil_r.
Qed.

Lemma rejected_blob_leaves_tally_witness :
  reachable reliable st_written /\ err (zw st_written) = None
  /\ accepted [x41] = false
  /\ exists r st' tr,
       WriteCompressed reliable [x41] st_written = Some (r, st')
       /\ snd r <> None
       /\ digest (zw st') = digest (zw st_written)
       /\ size (zw st') = size (zw st_written)
       /\ log st' = log st_written ++ tr.
Proof.
  split; [apply reachable_st_written|]. split; [reflexivity|].
  split; [reflexivity|].
  destruct (rejected_blob_leaves_tally reliable st_written [x41]
              reachable_st_written eq_refl eq_refl)
    as (r & st' & tr & H1 & H2 & H3 & H4 & H5 & _).
  exists r, st', tr. auto.
Defined.

(** X11.  A blob that [WriteCompressed] accepts is taken apart as
    follows, where [int] has 64 bits, as the model has it.  On a
    reachable writer without latched error the call returns what it
    latches, and when that is no error: the blob is the header the parser
    has measured, then the payload, then the two trailer words; the
    header of the blob is dropped; the payload goes to the destination
    unchanged, in the one payload write of the call, which is its last
    call, and its length, the blob's length less header and trailer, is
    the count returned; the second trailer word is added to size modulo
    2^32, and the digest becomes [crc32Combine] of the old digest, the
    first trailer word and [int] of the second.  That conversion keeps
    the word, a length below 2^32, which [make] serves given the memory;
    where [int] has 32 bits a word from 2^31 up becomes negative, [make]
    panics, and nothing of this holds. *)
Theorem accepted_blob_is_spliced (env : environment) (st : state)
    (p : list byte) :
  reachable env st -> err (zw st) = None -> accepted p = true ->
  exists r st',
    WriteCompressed env p st = Some (r, st')
    /\ snd r = err (zw st')
    /\ (err (zw st') = None ->
        exists h content c tl pre,
          getHeaderLength p = Some h
          /\ p = firstn (Z.to_nat h) p ++ content
                 ++ binary.PutUint32 c ++ binary.PutUint32 tl
          /\ r = (len content, None)
          /\ len content = len p - h - 8
          /\ size (zw st') = uint32 (size (zw st) + tl)
          /\ intSize = 64 /\ 0 <= tl < 2 ^ 32 /\ int tl = tl
          /\ crc32Combine (digest (zw st)) c (int tl)
             = Some (digest (zw st'))
          /\ log st'
             = log st ++ pre
               ++ [(io_Write (w (zw st)) PayloadPart content, Done)]
          /\ none_of is_payload pre).
Proof.
  intros Hreach He0 Hacc.
  pose proof (reachable_wf env st Hreach) as Hwf.
  destruct (WriteCompressed_cases env p st Hwf) as (r & st' & Hw & Hcase).
  exists r, st'. split; [exact Hw|]. split.
  { destruct (WriteCompressed_case_err _ _ _ _ _ Hcase)
      as [H | (_ & H & _)]; [exact H | congruence]. }
  intros He'.
  destruct Hcase as [e He | n e st1 He Hp | n st1 c k e He Hp Ha Hc Hr
                     | n st1 st2 r0 st0 He Hp Hf Hs].
  - congruence.
  - rewrite (writeHeader_err _ _ _ _ _ Hp) in He'. discriminate.
  - unfold flush_state in He'. rewrite Hr in He'. discriminate.
  - destruct Hs as [Hrej | content c tl d _ Hg Hck Hln Hcr Htr Hd];
      [congruence|].
    destruct (accepted_parts p Hacc)
      as (h & content' & c' & tl' & Hh & _ & Hg' & Hck' & Hln' & Hlen & Hp').
    rewrite Hg in Hg'. injection Hg' as <-.
    rewrite Hck in Hck'. injection Hck' as <-.
    rewrite Hln in Hln'. injection Hln' as <-.
    destruct (writeHeader_inv _ _ _ _ _ Hp)
      as (c' & tr & Hz & Hlog & _ & _ & Hnp & _).
    destruct (header_wf _ _ _ _ _ Hwf He Hp)
      as (Hwf1 & He1 & _ & _ & _ & Hd1 & Hs1).
    destruct (flushed_wf _ _ _ Hwf1 He1 Hf)
      as (_ & _ & _ & _ & _ & _ & Hd2 & Hs2).
    destruct (flushed_log _ _ _ Hf) as (ftr & Hl2 & Hnf & _ & _ & Hw2).
    assert (Hw1 : w (zw st1) = w (zw st)) by (rewrite Hz; reflexivity).
    unfold splice_state in *. cbn [zw log] in *. fields.
    rewrite Hw2, Hw1 in *.
    destruct (env (log st2) (io_Write (w (zw st)) PayloadPart content))
      as [|k e]; cbn [error_of] in He'; [|discriminate].
    exists h, content, c, tl, (tr ++ ftr).
    split; [exact Hh|]. split; [exact Hp'|]. split; [reflexivity|].
    split; [exact Hlen|].
    rewrite Hs2, Hs1. split; [reflexivity|].
    split; [reflexivity|]. split; [exact Htr|].
    rewrite (int_uint32 tl Htr). split; [reflexivity|].
    rewrite Hd2, Hd1 in Hd. split; [exact Hd|].
    rewrite Hl2, Hlog, <- !app_assoc. split; [reflexivity|].
    apply none_of_app. auto.
Qed.

Lemma accepted_blob_is_spliced_witness :
  reachable reliable st_written /\ err (zw st_written) = None
  /\ accepted blob_bar = true
  /\ exists r st',
       WriteCompressed reliable blob_bar st_written = Some (r, st')
       /\ snd r = err (zw st').
Proof.
  split; [apply reachable_st_written|]. split; [reflexivity|].
  split; [reflexivity|].
  destruct (accepted_blob_is_spliced reliable st_written blob_bar
              reachable_st_written eq_refl eq_refl)
    as (r & st' & H1 & H2 & _).
  exists r, st'. auto.
Defined.

(* ================================================================== *)
(** ** How often the header is written *)

(** X14.  [Write], [Flush] and [Close] write the gzip header once.  On a
    reachable writer without latched error, a call of one of them writes
    no header byte when the header has been written; when it has not and
    the call leaves no error, the header bytes that the destination has
    accepted from the call are exactly the header of the writer, fixed
    bytes and optional fields, and the flag wroteHeader is set. *)
Theorem header_goes_out_once (env : environment) (st : state) :
  reachable env st -> err (zw st) = None ->
  (forall p r st', Write env p st = Some (r, st') -> header_once st st')
  /\ (forall r st', Flush env st = Some (r, st') -> header_once st st')
  /\ (forall r st', Close env st = Some (r, st') -> header_once st st').
Proof.
  intros Hreach He. split; [|split].
  - intros p r st' H.
    apply (Write_header_once env p st r st' He (Write_inv _ _ _ _ _ H)).
  - intros r st' H.
    apply (Flush_header_once env st r st' Hreach He (Flush_inv _ _ _ _ H)).
  - intros r st' H.
    apply (Close_header_once env st r st' Hreach He (Close_inv _ _ _ _ H)).
Qed.

Lemma header_goes_out_once_witness :
  reachable reliable st_fresh /\ err (zw st_fresh) = None
  /\ header_once st_fresh st_written.
Proof.
  split; [apply reachable_st_fresh|]. split; [reflexivity|].
  destruct (header_goes_out_once reliable st_fresh
              (reachable_st_fresh reliable) eq_refl) as (H & _).
  apply (H [x41] (1, None)). reflexivity.
Defined.

(** X15.  [WriteCompressed] writes the gzip header at every call.  On a
    reachable writer without latched error, whether or not the header has
    been written before, the first call that [WriteCompressed] makes is
    the write of the ten fixed header bytes to the destination; and when
    it leaves no error, the destination has accepted from it the whole
    header of the writer once more. *)
Theorem WriteCompressed_repeats_header (env : environment) (st : state)
    (p : list byte) :
  reachable env st -> err (zw st) = None ->
  exists r st' rest,
    WriteCompressed env p st = Some (r, st')
    /\ log st'
       = log st ++ (first_write st, env (log st) (first_write st)) :: rest
    /\ (err (zw st') = None ->
        sent (w (zw st)) HeaderPart
          ((first_write st, env (log st) (first_write st)) :: rest)
        = header_bytes (zw st)
        /\ checkWroteHeader (zw st') = true).
Proof.
  intros Hreach He.
  destruct (WriteCompressed_cases env p st (reachable_wf env st Hreach))
    as (r & st' & Hw & Hcase).
  destruct (WriteCompressed_first_call env _ _ _ _ He Hcase)
    as (rest & Hl & Hs).
  exists r, st', rest. auto.
Qed.

Lemma WriteCompressed_repeats_header_witness :
  reachable reliable st_written /\ err (zw st_written) = None
  /\ checkWroteHeader (zw st_written) = true
  /\ exists r st' rest,
       WriteCompressed reliable blob_bar st_written = Some (r, st')
       /\ log st'
          = log st_written
            ++ (first_write st_written, Done) :: rest.
Proof.
  split; [apply reachable_st_written|]. split; [reflexivity|].
  split; [reflexivity|].
  destruct (WriteCompressed_repeats_header reliable st_written blob_bar
              reachable_st_written eq_refl)
    as (r & st' & rest & H1 & H2 & _).
  exists r, st', rest. auto.
Defined.

(* ================================================================== *)
(** ** Flush and Close leave the tally alone *)

(** X16.  [Flush] and [Close] never change digest and size of a
    reachable writer, whatever way they take and whatever fails: the
    [Write(nil)] through which they write a missing header adds nothing.
    So the trailer that a [Close] past its guards writes when it returns
    nil holds the digest and the size that the writer had when [Close]
    was called. *)
Theorem Flush_and_Close_keep_tally (env : environment) (st : state) :
  reachable env st ->
  (forall r st', Flush env st = Some (r, st') ->
     digest (zw st') = digest (zw st) /\ size (zw st') = size (zw st))
  /\ (forall r st', Close env st = Some (r, st') ->
        digest (zw st') = digest (zw st) /\ size (zw st') = size (zw st)
        /\ (err (zw st) = None -> checkClosed (zw st) = false ->
            r = None ->
            exists pre,
              log st'
              = log st ++ pre
                ++ [(io_Write (w (zw st)) TrailerPart
                       (binary.PutUint32 (digest (zw st))
                        ++ binary.PutUint32 (size (zw st))), Done)])).
Proof.
  intros Hreach. pose proof (reachable_wf env st Hreach) as Hwf.
  split.
  - intros r st' H. apply Flush_inv in H.
    apply (Flush_case_tally env st r st' Hwf H).
  - intros r st' H. apply Close_inv in H.
    destruct (Close_case_tally env st r st' Hwf H) as [Hd Hs].
    split; [exact Hd|]. split; [exact Hs|].
    intros He Hcl ->.
    destruct (Close_case_success _ _ _ He Hcl H)
      as (st1 & c & Hr & Hc & Hz & Hl).
    destruct (close_ready_closed _ _ _ Hr) as [_ Hw0].
    destruct (close_ready_log _ _ _ Hr) as (mid & Hlog & _).
    destruct (close_ready_tally env _ _ Hwf He Hr) as [Hd1 Hs1].
    exists (mid ++ [(flate_Close c, Done)]).
    rewrite Hl, Hlog, Hw0, Hd1, Hs1, <- !app_assoc. reflexivity.
Qed.

Lemma Flush_and_Close_keep_tally_witness :
  reachable reliable st_written
  /\ forall r st', Close reliable st_written = Some (r, st') ->
                   digest (zw st') = digest (zw st_written)
                   /\ size (zw st') = size (zw st_written).
Proof.
  split; [apply reachable_st_written|].
  destruct (Flush_and_Close_keep_tally reliable st_written
              reachable_st_written) as (_ & H).
  intros r st' Hc. destruct (H r st' Hc) as (H1 & H2 & _). auto.
Defined.
